(** * texttemplate: a shallow embedding of the structural text templating
      engine of [texttemplate.py] and the properties of its compiler and
      evaluator.

    The Python objects of the module live in a store ([heap]): every list of
    child nodes is an object with an identity, because the module compares
    and rebinds such lists ([self.childnodes is self.elsenodes],
    [self.childnodes = childnodes]).  Namespaces are dictionaries from names
    to values.  The host language evaluator ([compile], [eval], [exec],
    [unicode], [str.decode]) is an interface, [Evaluator], with a small
    executable instance at the end of the definitions. *)

From stdpp Require Import gmap strings list fin_maps pretty.
From Stdlib Require Import Ascii ZArith Lia.

Local Open Scope string_scope.
Local Open Scope list_scope.
Local Open Scope nat_scope.

(** ** Strings: the [str] methods the module uses *)

Module Str.

Definition len (s : string) : nat := String.length s.

(** [data[a:b]] for [0 <= a]; empty when [b <= a]. *)
Definition slice (data : string) (a b : nat) : string :=
  String.substring a (b - a) data.

(** [data[a:]] *)
Definition slice_from (data : string) (a : nat) : string :=
  String.substring a (len data - a) data.

(** [data.startswith(prefix, pos)] *)
Definition startswith (data prefix : string) (pos : nat) : bool :=
  String.prefix prefix (slice_from data pos).

(** [data.index(sub, pos)]: [None] stands for the [ValueError]. *)
Definition index (data sub : string) (pos : nat) : option nat :=
  String.index pos sub data.

(** The characters [str.strip()] and [str.split(None)] treat as blank. *)
Definition isspace (c : ascii) : bool :=
  let n := nat_of_ascii c in
  (n =? 32) || (n =? 9) || (n =? 10) || (n =? 11) || (n =? 12) || (n =? 13).

Fixpoint lstrip_chars (l : list ascii) : list ascii :=
  match l with
  | c :: l' => if isspace c then lstrip_chars l' else l
  | [] => []
  end.

Definition lstrip (s : string) : string :=
  String.string_of_list_ascii (lstrip_chars (String.list_ascii_of_string s)).

Definition rstrip (s : string) : string :=
  String.string_of_list_ascii
    (rev (lstrip_chars (rev (String.list_ascii_of_string s)))).

(** [s.strip()] *)
Definition strip (s : string) : string := lstrip (rstrip s).

(** The longest blank-free prefix of [l] and what follows it. *)
Fixpoint span_word (l : list ascii) : list ascii * list ascii :=
  match l with
  | c :: l' =>
      if isspace c then ([], l)
      else let '(w, r) := span_word l' in (c :: w, r)
  | [] => ([], [])
  end.

(** [s.split(None, 1)]: at most two fields, the first blank-delimited
    word and the rest of the text after the blanks that follow it. *)
Definition split1 (s : string) : list string :=
  match lstrip_chars (String.list_ascii_of_string s) with
  | [] => []
  | l =>
      let '(w, r) := span_word l in
      match lstrip_chars r with
      | [] => [String.string_of_list_ascii w]
      | r' => [String.string_of_list_ascii w; String.string_of_list_ascii r']
      end
  end.

(** [''.join(parts)] *)
Definition join (parts : list string) : string := String.concat "" parts.

End Str.

(** ** Exceptions and results *)

Inductive exn :=
| TextTemplateError (msg : string)
| TemplateSyntaxError (msg : string) (pos : option nat)
| EncodingDetected (encoding : string)
| AttributeError (attr : string)
| IndexError
| HostError (cls : string).

Inductive result (A : Type) :=
| Ok (a : A)
| Raise (e : exn).
Arguments Ok {A} a.
Arguments Raise {A} e.

(** What a call into the host evaluator gives back: a value, or the class
    name of the exception it raised. *)
Definition host (A : Type) : Type := string + A.

Definition of_host {A} (r : host A) : result A :=
  match r with
  | inr a => Ok a
  | inl cls => Raise (HostError cls)
  end.

(** ** The tokenizer *)

Definition tagset : list (string * string * string) :=
  [("block", "{%", "%}"); ("variable", "{{", "}}"); ("comment", "{#", "#}")].

(** A token is the tuple [(name, start, end, expr)] that [tokenize] yields. *)
Definition token : Type := string * nat * nat * string.

Definition min_opt (a b : option nat) : option nat :=
  match a, b with
  | Some x, Some y => Some (Nat.min x y)
  | Some x, None => Some x
  | None, _ => b
  end.

(** [rx_stags.search(data, pos)]: the start of the leftmost occurrence, at
    or after [pos], of one of the three opening markers. *)
Definition rx_stags_search (data : string) (pos : nat) : option nat :=
  foldr (fun '(_, stag, _) acc => min_opt (Str.index data stag pos) acc)
        None tagset.

(** The [for name, stag, etag in tagset: ... else: ...] statement of the
    loop body: [Some] when a marker opens at [pos] (the [break] path, or
    the raise), [None] for the [else] branch. *)
Fixpoint scan_tagset (ts : list (string * string * string))
    (data : string) (pos : nat) : option (result token) :=
  match ts with
  | [] => None
  | (name, stag, etag) :: ts' =>
      if Str.startswith data stag pos then
        Some
          match Str.index data etag pos with
          | None =>
              Raise (TemplateSyntaxError "invalid syntax" (Some (Str.len data)))
          | Some i =>
              let next := i + Str.len etag in
              Ok (name, pos, next,
                  Str.strip (Str.slice data (pos + Str.len stag)
                                       (next - Str.len etag)))
          end
      else scan_tagset ts' data pos
  end.

(** One turn of the [while] loop: the tuple that is yielded next. *)
Definition next_token (data : string) (pos : nat) : result token :=
  match scan_tagset tagset data pos with
  | Some r => r
  | None =>
      let next :=
        match rx_stags_search data pos with
        | Some m => m
        | None => Str.len data
        end in
      Ok ("text", pos, next, Str.slice data pos next)
  end.

(** The generator [tokenize(data, pos)] as the trace it produces on
    demand: tokens, then normal exhaustion or an exception.  [Pending]
    marks a trace cut by the bound on the number of loop turns. *)
Inductive stream :=
| Yield (t : token) (rest : stream)
| Stop
| Throw (e : exn)
| Pending.

Fixpoint tokenize_loop (turns : nat) (data : string) (pos : nat) : stream :=
  if pos <? Str.len data then
    match turns with
    | 0 => Pending
    | S turns' =>
        match next_token data pos with
        | Raise e => Throw e
        | Ok (name, start, next, expr) =>
            Yield (name, start, next, expr) (tokenize_loop turns' data next)
        end
    end
  else Stop.

(** Every turn moves [pos] forward, so [len(data) - pos] turns are enough
    (see [tokenize_never_pending]). *)
Definition tokenize (data : string) (pos : nat) : stream :=
  tokenize_loop (Str.len data - pos) data pos.

(** ** Text escapes

    [rx_escape.sub('', data)] with
    [rx_escape = re.compile(r'^[ \t]*\\(?!\n)|\\\n', re.M)], as the scan the
    regular expression engine performs from left to right.  [bol] holds
    the blanks read since a position where [^] matches, while the first
    alternative is still possible; it is [None] elsewhere. *)

Module Escape.

Definition backslash : ascii := ascii_of_nat 92.
Definition newline : ascii := ascii_of_nat 10.
Definition is_blank (c : ascii) : bool :=
  Ascii.eqb c (ascii_of_nat 32) || Ascii.eqb c (ascii_of_nat 9).

Definition after (c : ascii) : option (list ascii) :=
  if Ascii.eqb c newline then Some [] else None.

Fixpoint sub (bol : option (list ascii)) (l : list ascii) : list ascii :=
  match l with
  | [] => match bol with Some ws => rev ws | None => [] end
  | c :: r =>
      match bol with
      | Some ws =>
          if is_blank c then sub (Some (c :: ws)) r
          else if Ascii.eqb c backslash then
            match r with
            | c' :: r' =>
                if Ascii.eqb c' newline
                then rev ws ++ sub (Some []) r'   (* second alternative *)
                else sub None r                   (* first alternative *)
            | [] => sub None r
            end
          else rev ws ++ c :: sub (after c) r
      | None =>
          if Ascii.eqb c backslash then
            match r with
            | c' :: r' =>
                if Ascii.eqb c' newline
                then sub (Some []) r'
                else c :: sub None r
            | [] => c :: sub None r
            end
          else c :: sub (after c) r
      end
  end.

Definition rx_escape_sub (data : string) : string :=
  String.string_of_list_ascii (sub (Some []) (String.list_ascii_of_string data)).

End Escape.

(** ** The host evaluator

    Everything the module delegates to Python itself.  A code object is
    what [compile(..., 'eval')] returns.  The generator that
    [eval] returns for the code object of a [for] tag is taken by the
    sequence of dictionaries it yields. *)

Class Evaluator := {
  value : Type;
  codeobj : Type;
  (** [_compile(expr, '<string>', 'eval')] *)
  compile_eval : string -> host codeobj;
  (** [eval(codeobj, namespace)] *)
  eval : codeobj -> gmap string value -> host value;
  (** the items of [eval(codeobj, namespace)] when it is iterated *)
  eval_iter : codeobj -> gmap string value -> host (list (gmap string value));
  (** [exec(source, namespace)]: the namespace afterwards *)
  exec : string -> gmap string value -> host (gmap string value);
  (** the truth value of an object in an [if] *)
  truth : value -> bool;
  (** [unicode(obj)] *)
  unicode : value -> host string;
  (** [isinstance(obj, NonEscapeValue)], giving [obj.value] *)
  nonescape_value : value -> option value;
  (** the class [NonEscapeValue] as an object *)
  NonEscapeValue : value;
  (** [escape(text)] for the object stored under ['__escape__'] *)
  call : value -> string -> host string;
  (** [data.decode(encoding)] *)
  decode : string -> string -> host string;
}.

(** ** The object store *)

Abbreviation loc := nat.

(** The objects of the module, over the values [V] and the code objects
    [C] of the host.  [PyList] is a list of node references (a
    [childnodes] list); the node classes carry their attributes.
    [childnodes], [elsenodes] and the entries of [ifnodes_list] are
    references to [PyList] objects. *)
Inductive pyobj {V C : Type} :=
| PyList (items : list loc)
| Text (value_ : string)
| Variable_ (code : C)
| IfBlock (childnodes : loc) (codeobj_list : list C)
          (ifnodes_list : list loc) (elsenodes : loc)
| ForBlock (childnodes : loc) (code : C)
| ExecBlock (childnodes : loc)
| EncodingBlock (childnodes : loc)
| Template (childnodes : loc) (namespace : gmap string V)
           (encoding : option string).
Arguments pyobj : clear implicits.

(** The objects over the values and code objects of the evaluator. *)
Abbreviation obj := (pyobj value codeobj).

(** The store: an object's reference is its position. *)
Abbreviation heap := (list obj).

Section Update.
Context `{Evaluator}.

(** [d.update(other)]: the entries of [other] win. *)
Definition update (d other : gmap string value) : gmap string value :=
  other ∪ d.

End Update.

Section Monad.

(** *** State and exceptions

    A computation reads and writes a state and ends with a value or a
    raised exception; the state written before a [raise] stays written.
    [None] is a computation cut by a recursion bound. *)
Definition M (S A : Type) : Type := S -> option (result A * S).

Definition ret {S A} (a : A) : M S A := fun s => Some (Ok a, s).
Definition raise {S A} (e : exn) : M S A := fun s => Some (Raise e, s).
Definition cut {S A} : M S A := fun _ => None.
Definition bind {S A B} (m : M S A) (f : A -> M S B) : M S B :=
  fun s =>
    match m s with
    | Some (Ok a, s') => f a s'
    | Some (Raise e, s') => Some (Raise e, s')
    | None => None
    end.
Definition get {S} : M S S := fun s => Some (Ok s, s).
Definition put {S} (s : S) : M S unit := fun _ => Some (Ok tt, s).
Definition lift {S A} (r : host A) : M S A :=
  fun s => Some (of_host r, s).

End Monad.

Notation "'do' x <- m ; k" := (bind m (fun x => k))
  (at level 10, x name, m at level 100, k at level 200).
Notation "'do' ' p <- m ; k" := (bind m (fun p => k))
  (at level 10, p pattern, m at level 100, k at level 200).
Notation "'run' m ; k" := (bind m (fun _ => k))
  (at level 10, m at level 100, k at level 200).

(** ** Nodes *)

Section Nodes.
Context `{Evaluator}.

(** *** Access to the store *)

(** A new object; its reference is the next free address. *)
Definition alloc (o : obj) : M heap loc :=
  fun h => Some (Ok (length h), h ++ [o]).

(** The object behind a reference.  The module never holds a reference
    to an object that is not in the store; the last case only makes the
    function total. *)
Definition load (l : loc) : M heap obj :=
  fun h =>
    match h !! l with
    | Some o => Some (Ok o, h)
    | None => Some (Raise (AttributeError "<no object>"), h)
    end.

Definition store (l : loc) (o : obj) : M heap unit :=
  fun h => Some (Ok tt, <[l := o]> h).

(** A computation on the store alone, inside a larger state. *)
Definition on_heap {X A} (m : M heap A) : M (heap * X) A :=
  fun '(h, x) =>
    match m h with
    | Some (r, h') => Some (r, (h', x))
    | None => None
    end.

(** A computation on the second component of the state alone. *)
Definition on_snd {X A} (m : M X A) : M (heap * X) A :=
  fun '(h, x) =>
    match m x with
    | Some (r, x') => Some (r, (h, x'))
    | None => None
    end.

(** [body] run on a dictionary of its own, which is dropped afterwards. *)
Definition with_namespace {A} (d : gmap string value)
    (body : M (heap * gmap string value) A) : M heap A :=
  fun h =>
    match body (h, d) with
    | Some (r, (h', _)) => Some (r, h')
    | None => None
    end.

(** [body] run on the dictionary [d], which is handed back updated. *)
Definition in_namespace {A} (d : gmap string value)
    (body : M (heap * gmap string value) A)
  : M heap (A * gmap string value) :=
  fun h =>
    match body (h, d) with
    | Some (Ok a, (h', d')) => Some (Ok (a, d'), h')
    | Some (Raise e, (h', _)) => Some (Raise e, h')
    | None => None
    end.

Fixpoint mapM {S A B} (f : A -> M S B) (l : list A) : M S (list B) :=
  match l with
  | [] => ret []
  | a :: l' => do b <- f a; do bs <- mapM f l'; ret (b :: bs)
  end.

(** [self.childnodes] *)
Definition getattr_childnodes (self : loc) : M heap loc :=
  do o <- load self;
  match o with
  | IfBlock c _ _ _ | ForBlock c _ | ExecBlock c | EncodingBlock c
  | Template c _ _ => ret c
  | PyList _ | Text _ | Variable_ _ => raise (AttributeError "childnodes")
  end.

(** [self.childnodes = c] *)
Definition setattr_childnodes (self c : loc) : M heap unit :=
  do o <- load self;
  match o with
  | IfBlock _ cs ifs els => store self (IfBlock c cs ifs els)
  | ForBlock _ code => store self (ForBlock c code)
  | ExecBlock _ => store self (ExecBlock c)
  | EncodingBlock _ => store self (EncodingBlock c)
  | Template _ d enc => store self (Template c d enc)
  | PyList _ | Text _ | Variable_ _ => raise (AttributeError "childnodes")
  end.

(** The items of the list object [l]. *)
Definition list_items (l : loc) : M heap (list loc) :=
  do o <- load l;
  match o with
  | PyList items => ret items
  | _ => raise (AttributeError "__iter__")
  end.

(** [l.append(x)] on the list object [l]. *)
Definition list_append (l x : loc) : M heap unit :=
  do items <- list_items l;
  store l (PyList (items ++ [x])).

(** *** [Text] *)

Definition Text_init (data : string) : M heap loc :=
  alloc (Text (Escape.rx_escape_sub data)).

(** *** [Variable] *)

Definition Variable_init (expr : string) : M heap loc :=
  do code <- lift (compile_eval expr);
  alloc (Variable_ code).

Definition Variable_evaluate (code : codeobj)
  : M (heap * gmap string value) string :=
  do ns <- on_snd get;
  do obj <- lift (eval code ns);
  match ns !! "__escape__" with
  | Some escape =>
      if truth escape then
        match nonescape_value obj with
        | Some v => lift (unicode v)
        | None => do u <- lift (unicode obj); lift (call escape u)
        end
      else lift (unicode obj)
  | None => lift (unicode obj)
  end.

(** *** [Block] *)

Definition Block_appendchild (self childnode : loc) : M heap unit :=
  do c <- getattr_childnodes self;
  list_append c childnode.

(** [Block.evaluate(self, namespace)]; [ev] is the method [evaluate] of
    the children. *)
Definition Block_evaluate
    (ev : loc -> M (heap * gmap string value) string) (self : loc)
  : M (heap * gmap string value) string :=
  do c <- on_heap (getattr_childnodes self);
  do items <- on_heap (list_items c);
  do parts <- mapM ev items;
  ret (Str.join parts).

(** *** [IfBlock] *)

Definition IfBlock_init (expr : string) : M heap loc :=
  do c <- alloc (PyList []);
  do code <- lift (compile_eval (Str.strip expr));
  do e <- alloc (PyList []);
  alloc (IfBlock c [code] [c] e).

Definition IfBlock_elif_ (self : loc) (expr : string) : M heap unit :=
  do o <- load self;
  match o with
  | IfBlock c codes ifs els =>
      if c =? els then
        raise (TextTemplateError "else_() has already been called")
      else
        do code <- lift (compile_eval (Str.strip expr));
        run store self (IfBlock c (codes ++ [code]) ifs els);
        do c' <- alloc (PyList []);
        store self (IfBlock c' (codes ++ [code]) (ifs ++ [c']) els)
  | _ => raise (AttributeError "elif_")
  end.

Definition IfBlock_else_ (self : loc) : M heap unit :=
  do o <- load self;
  match o with
  | IfBlock c codes ifs els =>
      if c =? els then
        raise (TextTemplateError "else_() has already been called")
      else store self (IfBlock els codes ifs els)
  | _ => raise (AttributeError "else_")
  end.

(** The [for ... in zip(...): ... else: ...] statement of
    [IfBlock.evaluate], over the pairs the [zip] produced. *)
Fixpoint IfBlock_choose (self : loc) (branches : list (codeobj * loc))
  : M (heap * gmap string value) unit :=
  match branches with
  | (code, childnodes) :: rest =>
      do ns <- on_snd get;
      do v <- lift (eval code ns);
      if truth v then on_heap (setattr_childnodes self childnodes)
      else IfBlock_choose self rest
  | [] =>
      do o <- on_heap (load self);
      match o with
      | IfBlock _ _ _ els => on_heap (setattr_childnodes self els)
      | _ => raise (AttributeError "elsenodes")
      end
  end.

Definition IfBlock_evaluate
    (ev : loc -> M (heap * gmap string value) string) (self : loc)
  : M (heap * gmap string value) string :=
  do o <- on_heap (load self);
  match o with
  | IfBlock _ codes ifs _ =>
      run IfBlock_choose self (zip codes ifs);
      Block_evaluate ev self
  | _ => raise (AttributeError "codeobj_list")
  end.

(** *** [ForBlock] *)

Definition ForBlock_init (expr : string) : M heap loc :=
  do c <- alloc (PyList []);
  do code <- lift (compile_eval ("(locals() for " +:+ expr +:+ ")"));
  alloc (ForBlock c code).

Fixpoint ForBlock_loop
    (ev : loc -> M (heap * gmap string value) string) (self : loc)
    (items : list (gmap string value))
  : M (heap * gmap string value) (list string) :=
  match items with
  | localnamespace :: rest =>
      do ns <- on_snd get;
      run on_snd (put (update ns localnamespace));
      do r <- Block_evaluate ev self;
      do results <- ForBlock_loop ev self rest;
      ret (r :: results)
  | [] => ret []
  end.

Definition ForBlock_evaluate
    (ev : loc -> M (heap * gmap string value) string) (self : loc)
  : M (heap * gmap string value) string :=
  do o <- on_heap (load self);
  match o with
  | ForBlock _ code =>
      do ns <- on_snd get;
      do items <- lift (eval_iter code ns);
      do results <- ForBlock_loop ev self items;
      ret (Str.join results)
  | _ => raise (AttributeError "codeobj")
  end.

(** *** [ExecBlock] and [EncodingBlock] *)

Definition ExecBlock_init : M heap loc :=
  do c <- alloc (PyList []);
  alloc (ExecBlock c).

Definition ExecBlock_execute
    (ev : loc -> M (heap * gmap string value) string) (self : loc)
  : M (heap * gmap string value) unit :=
  do source <- Block_evaluate ev self;
  do ns <- on_snd get;
  do ns' <- lift (exec source ns);
  on_snd (put ns').

Definition ExecBlock_evaluate : M (heap * gmap string value) string :=
  ret "".

Definition EncodingBlock_init : M heap loc :=
  do c <- alloc (PyList []);
  alloc (EncodingBlock c).

(** *** [Template.evaluate] and the method dispatch *)

(** The truth value of a dictionary: it is not empty. *)
Definition dict_truth (d : gmap string value) : bool :=
  match map_to_list d with
  | [] => false
  | _ :: _ => true
  end.

Definition Template_evaluate
    (ev : loc -> M (heap * gmap string value) string) (self : loc)
    (namespace : option (gmap string value)) (kwds : gmap string value)
  : M heap string :=
  do o <- load self;
  match o with
  | Template _ default _ =>
      let nsglobal := default in
      let nsglobal :=
        match namespace with
        | Some d => if dict_truth d then update nsglobal d else nsglobal
        | None => nsglobal
        end in
      let nsglobal :=
        if dict_truth kwds then update nsglobal kwds else nsglobal in
      with_namespace nsglobal (Block_evaluate ev self)
  | _ => raise (AttributeError "namespace")
  end.

(** [x.evaluate(namespace)]: the method of the class of [x].  [depth]
    bounds the nesting of the calls. *)
Fixpoint evaluate (depth : nat) (x : loc)
  : M (heap * gmap string value) string :=
  match depth with
  | 0 => cut
  | S d =>
      do o <- on_heap (load x);
      match o with
      | Text v => ret v
      | Variable_ code => Variable_evaluate code
      | IfBlock _ _ _ _ => IfBlock_evaluate (evaluate d) x
      | ForBlock _ _ => ForBlock_evaluate (evaluate d) x
      | ExecBlock _ => ExecBlock_evaluate
      | EncodingBlock _ => Block_evaluate (evaluate d) x
      | Template _ _ _ =>
          do ns <- on_snd get;
          on_heap (Template_evaluate (evaluate d) x (Some ns) ∅)
      | PyList _ => raise (AttributeError "evaluate")
      end
  end.

End Nodes.

(** ** The parser *)

Record TemplateHandler := {
  root : loc;
  nodestack : list loc;
}.

Section Parser.
Context `{Evaluator}.

(** The state of a parse: the store and the handler object. *)
Abbreviation pstate := (heap * TemplateHandler)%type.

Definition TemplateHandler_init (root : loc) : TemplateHandler :=
  {| root := root; nodestack := [root] |}.

Definition TemplateHandler_get_result : M pstate loc :=
  do self <- on_snd get;
  if negb (List.length (nodestack self) =? 1) then
    raise (TemplateSyntaxError "invalid syntax" None)
  else ret (root self).

(** [self.nodestack[-1]] *)
Definition nodestack_top : M pstate loc :=
  do self <- on_snd get;
  match last (nodestack self) with
  | Some node => ret node
  | None => raise IndexError
  end.

(** [self.nodestack.append(node)] *)
Definition nodestack_append (node : loc) : M pstate unit :=
  do self <- on_snd get;
  on_snd (put {| root := root self; nodestack := nodestack self ++ [node] |}).

(** [self.nodestack.pop()] *)
Definition nodestack_pop : M pstate loc :=
  do self <- on_snd get;
  match last (nodestack self) with
  | Some node =>
      run on_snd (put {| root := root self;
                         nodestack := removelast (nodestack self) |});
      ret node
  | None => raise IndexError
  end.

(** [node.execute(self.root.namespace)]: the dictionary of the root is
    the one that is read and written. *)
Definition execute_in_root (node : loc) : M pstate unit :=
  do self <- on_snd get;
  do o <- on_heap (load (root self));
  match o with
  | Template _ d _ =>
      do h <- on_heap get;
      do '(_, d') <- on_heap
           (in_namespace d
              (ExecBlock_execute (evaluate (List.length h)) node));
      do o' <- on_heap (load (root self));
      match o' with
      | Template c' _ enc' => on_heap (store (root self) (Template c' d' enc'))
      | _ => raise (AttributeError "namespace")
      end
  | _ => raise (AttributeError "namespace")
  end.

(** [self.root.encoding] *)
Definition root_encoding : M pstate (option string) :=
  do self <- on_snd get;
  do o <- on_heap (load (root self));
  match o with
  | Template _ _ enc => ret enc
  | _ => raise (AttributeError "encoding")
  end.

(** [self.root.encoding = encoding] *)
Definition set_root_encoding (encoding : string) : M pstate unit :=
  do self <- on_snd get;
  do o <- on_heap (load (root self));
  match o with
  | Template c d _ => on_heap (store (root self) (Template c d (Some encoding)))
  | _ => raise (AttributeError "encoding")
  end.

(** The truth value of [self.root.encoding]: neither [None] nor ['']. *)
Definition encoding_truth (enc : option string) : bool :=
  match enc with
  | Some e => negb (String.eqb e "")
  | None => false
  end.

(** ['%r' % tagname], for a name without quotes, backslashes and
    unprintable characters. *)
Definition repr (s : string) : string := "'" +:+ s +:+ "'".

(** The body of [if isinstance(node, EncodingBlock) and not
    self.root.encoding:]. *)
Definition detect_encoding (node : loc) : M pstate unit :=
  do h <- on_heap get;
  do text <- on_heap (with_namespace ∅ (evaluate (List.length h) node));
  let encoding := Str.strip text in
  run set_root_encoding encoding;
  raise (EncodingDetected encoding).

(** The body of the [if tagname == 'end':] branch. *)
Definition handle_end : M pstate unit :=
  do node <- nodestack_pop;
  do o <- on_heap (load node);
  run match o with
      | ExecBlock _ => execute_in_root node
      | _ => ret tt
      end;
  match o with
  | EncodingBlock _ =>
      do enc <- root_encoding;
      if negb (encoding_truth enc) then detect_encoding node else ret tt
  | _ => ret tt
  end.

(** Opening a block: the new node becomes a child of the innermost open
    block and then the innermost open block itself. *)
Definition open_block (init : M heap loc) : M pstate unit :=
  do node <- on_heap init;
  do top <- nodestack_top;
  run on_heap (Block_appendchild top node);
  nodestack_append node.

Definition handle_block (expr : string) : M pstate unit :=
  match Str.split1 expr with
  | [] => raise (TemplateSyntaxError "invalid syntax" None)
  | tagname :: tokens =>
      let params := Str.join tokens in
      if String.eqb tagname "end" then handle_end
      else if String.eqb tagname "if" then open_block (IfBlock_init params)
      else if String.eqb tagname "elif" then
        do top <- nodestack_top;
        do o <- on_heap (load top);
        match o with
        | IfBlock _ _ _ _ => on_heap (IfBlock_elif_ top params)
        | _ => raise (TemplateSyntaxError "invalid syntax" None)
        end
      else if String.eqb tagname "else" then
        do top <- nodestack_top;
        do o <- on_heap (load top);
        match o with
        | IfBlock _ _ _ _ => on_heap (IfBlock_else_ top)
        | _ => raise (TemplateSyntaxError "invalid syntax" None)
        end
      else if String.eqb tagname "for" then open_block (ForBlock_init params)
      else if String.eqb tagname "exec" then open_block ExecBlock_init
      else if String.eqb tagname "encoding" then
        open_block EncodingBlock_init
      else
        raise (TemplateSyntaxError ("invalid tag name " +:+ repr tagname) None)
  end.

Definition handle_variable (expr : string) : M pstate unit :=
  do top <- nodestack_top;
  do node <- on_heap (Variable_init expr);
  on_heap (Block_appendchild top node).

Definition handle_comment (expr : string) : M pstate unit := ret tt.

Definition handle_text (expr : string) : M pstate unit :=
  do top <- nodestack_top;
  do node <- on_heap (Text_init expr);
  on_heap (Block_appendchild top node).

(** [getattr(handler, 'handle_' + name)(expr)] *)
Definition handle (name expr : string) : M pstate unit :=
  if String.eqb name "block" then handle_block expr
  else if String.eqb name "variable" then handle_variable expr
  else if String.eqb name "comment" then handle_comment expr
  else if String.eqb name "text" then handle_text expr
  else raise (AttributeError ("handle_" +:+ name)).

(** The [try] statement of [parse] over the tokens still to come;
    [again] is the recursive call of the [except] clause. *)
Fixpoint parse_loop (again : string -> nat -> M pstate unit)
    (data : string) (tokens : stream) : M pstate unit :=
  match tokens with
  | Yield (name, start, end_, expr) rest =>
      fun st =>
        match handle name expr st with
        | Some (Ok _, st') => parse_loop again data rest st'
        | Some (Raise (EncodingDetected encoding), st') =>
            (do data_head <- lift (decode (Str.slice data 0 end_) encoding);
             do data_tail <- lift (decode (Str.slice_from data end_) encoding);
             let pos := Str.len data_head in
             again (data_head +:+ data_tail) pos) st'
        | Some (Raise e, st') => Some (Raise e, st')
        | None => None
        end
  | Stop => ret tt
  | Throw e => raise e
  | Pending => cut
  end.

(** [parse(data, handler, pos)]; [calls] bounds the nesting of [parse]
    in itself. *)
Fixpoint parse (calls : nat) (data : string) (pos : nat) : M pstate unit :=
  match calls with
  | 0 => cut
  | S n => parse_loop (parse n) data (tokenize data pos)
  end.

(** [Template(code)]: the store afterwards holds the compiled tree, the
    result is the reference to the new [Template].  One call of [parse]
    and one nested call are provided for (see [parse_two_calls]). *)
Definition Template_init (code : string) : M heap loc :=
  do c <- alloc (PyList []);
  do self <- alloc (Template c ∅ None);
  run (fun h =>
         match parse 2 code 0 (h, TemplateHandler_init self) with
         | Some (r, (h', _)) => Some (r, h')
         | None => None
         end);
  do o <- load self;
  match o with
  | Template c' d enc =>
      run match d !! "__escape__" with
          | Some _ =>
              store self (Template c' (<["__nonescape__" := NonEscapeValue]> d) enc)
          | None => ret tt
          end;
      ret self
  | _ => raise (AttributeError "namespace")
  end.

(** [template.evaluate(namespace, **kwds)] on a compiled template. *)
Definition render (h : heap) (template : loc)
    (namespace : option (gmap string value)) (kwds : gmap string value)
  : option (result string * heap) :=
  Template_evaluate (evaluate (List.length h)) template namespace kwds h.

End Parser.

(** ** A small host evaluator

    An executable [Evaluator] for a fragment of Python: expressions are
    names and decimal integer literals, the iteration clause of a [for]
    tag is [name in [int, ..., int]], statements are assignments
    [name = expression], one per line.  The iterator variable ['.0'] that
    [locals()] also reports inside a generator expression is left out. *)

Module MiniPy.

Inductive pyvalue :=
| PInt (n : Z)
| PStr (s : string)
| PNone
| PGenerator
| PNonEscapeValue_class
| PNonEscapeValue (v : pyvalue)
| PUpper.

Inductive pycode :=
| CName (x : string)
| CInt (n : Z)
| CLocalsFor (x : string) (items : list Z).

Definition is_digit (c : ascii) : bool :=
  let n := nat_of_ascii c in (48 <=? n) && (n <=? 57).

Definition is_alpha (c : ascii) : bool :=
  let n := nat_of_ascii c in
  ((65 <=? n) && (n <=? 90)) || ((97 <=? n) && (n <=? 122)) || (n =? 95).

Definition all_chars (p : ascii -> bool) (s : string) : bool :=
  forallb p (String.list_ascii_of_string s).

Definition is_name (s : string) : bool :=
  match s with
  | String c _ => is_alpha c && all_chars (fun c => is_alpha c || is_digit c) s
  | EmptyString => false
  end.

Definition int_of_digits (s : string) : Z :=
  fold_left (fun acc c => (10 * acc + Z.of_nat (nat_of_ascii c - 48))%Z)
            (String.list_ascii_of_string s) 0%Z.

Definition parse_int (s : string) : option Z :=
  match s with
  | EmptyString => None
  | _ => if all_chars is_digit s then Some (int_of_digits s) else None
  end.

(** The fields of [l] between the separator [sep]. *)
Fixpoint split_on (sep : ascii) (l : list ascii) : list (list ascii) :=
  match l with
  | [] => [[]]
  | c :: l' =>
      match split_on sep l' with
      | f :: fs => if Ascii.eqb c sep then [] :: f :: fs else (c :: f) :: fs
      | [] => [[c]]
      end
  end.

Fixpoint traverse {A B} (f : A -> option B) (l : list A) : option (list B) :=
  match l with
  | [] => Some []
  | a :: l' =>
      match f a, traverse f l' with
      | Some b, Some bs => Some (b :: bs)
      | _, _ => None
      end
  end.

(** [[int, ..., int]] *)
Definition parse_int_list (s : string) : option (list Z) :=
  let s := Str.strip s in
  let n := Str.len s in
  if Str.startswith s "[" 0 && Str.startswith s "]" (n - 1) then
    let inner := Str.strip (Str.slice s 1 (n - 1)) in
    match inner with
    | EmptyString => Some []
    | _ =>
        traverse
          (fun f => parse_int (Str.strip (String.string_of_list_ascii f)))
          (split_on (ascii_of_nat 44) (String.list_ascii_of_string inner))
    end
  else None.

(** [name in [int, ..., int]] *)
Definition parse_clause (s : string) : option (string * list Z) :=
  match Str.index s " in " 0 with
  | Some i =>
      let x := Str.strip (Str.slice s 0 i) in
      match parse_int_list (Str.slice_from s (i + 4)) with
      | Some items => if is_name x then Some (x, items) else None
      | None => None
      end
  | None => None
  end.

Definition compile_eval (source : string) : host pycode :=
  let n := Str.len source in
  if Str.startswith source "(locals() for " 0
     && Str.startswith source ")" (n - 1) then
    match parse_clause (Str.slice source 14 (n - 1)) with
    | Some (x, items) => inr (CLocalsFor x items)
    | None => inl "SyntaxError"
    end
  else
    match parse_int source with
    | Some k => inr (CInt k)
    | None => if is_name source then inr (CName source) else inl "SyntaxError"
    end.

Definition eval (code : pycode) (ns : gmap string pyvalue) : host pyvalue :=
  match code with
  | CName x =>
      match ns !! x with
      | Some v => inr v
      | None => inl "NameError"
      end
  | CInt n => inr (PInt n)
  | CLocalsFor _ _ => inr PGenerator
  end.

Definition eval_iter (code : pycode) (ns : gmap string pyvalue)
  : host (list (gmap string pyvalue)) :=
  match code with
  | CLocalsFor x items => inr (map (fun n => {[ x := PInt n ]}) items)
  | CName x =>
      match ns !! x with
      | Some _ => inl "TypeError"
      | None => inl "NameError"
      end
  | CInt _ => inl "TypeError"
  end.

(** One line of an [exec] source. *)
Definition exec_line (line : list ascii) (ns : gmap string pyvalue)
  : host (gmap string pyvalue) :=
  let s := Str.strip (String.string_of_list_ascii line) in
  match s with
  | EmptyString => inr ns
  | _ =>
      match Str.index s "=" 0 with
      | Some i =>
          let x := Str.strip (Str.slice s 0 i) in
          if is_name x then
            match compile_eval (Str.strip (Str.slice_from s (i + 1))) with
            | inr code =>
                match eval code ns with
                | inr v => inr (<[x := v]> ns)
                | inl cls => inl cls
                end
            | inl cls => inl cls
            end
          else inl "SyntaxError"
      | None => inl "SyntaxError"
      end
  end.

Definition exec (source : string) (ns : gmap string pyvalue)
  : host (gmap string pyvalue) :=
  fold_left
    (fun acc line =>
       match acc with
       | inr d => exec_line line d
       | inl cls => inl cls
       end)
    (split_on (ascii_of_nat 10) (String.list_ascii_of_string source))
    (inr ns).

Definition truth (v : pyvalue) : bool :=
  match v with
  | PInt n => negb (n =? 0)%Z
  | PStr s => negb (String.eqb s "")
  | PNone => false
  | _ => true
  end.

Definition unicode (v : pyvalue) : host string :=
  match v with
  | PInt n => inr (pretty n)
  | PStr s => inr s
  | PNone => inr "None"
  | _ => inr "<object>"
  end.

Definition nonescape_value (v : pyvalue) : option pyvalue :=
  match v with
  | PNonEscapeValue w => Some w
  | _ => None
  end.

Definition upper_char (c : ascii) : ascii :=
  let n := nat_of_ascii c in
  if (97 <=? n) && (n <=? 122) then ascii_of_nat (n - 32) else c.

Definition call (f : pyvalue) (text : string) : host string :=
  match f with
  | PUpper =>
      inr (String.string_of_list_ascii
             (map upper_char (String.list_ascii_of_string text)))
  | _ => inl "TypeError"
  end.

(** The codecs known here leave a text of ASCII characters as it is. *)
Definition decode (data encoding : string) : host string :=
  if String.eqb encoding "utf-8" || String.eqb encoding "ascii"
     || String.eqb encoding "latin-1"
  then inr data
  else inl "LookupError".

#[export] Instance evaluator : Evaluator :=
  Build_Evaluator pyvalue pycode compile_eval eval eval_iter exec truth
    unicode nonescape_value PNonEscapeValue_class call decode.

End MiniPy.


(** ** [compile_until]

    [compile_until(terminators, source, filename, mode)] compiles the
    longest part of [source] before one of the [terminators].  The host
    function [compile] is a parameter: it gives a code object, or raises
    [SyntaxError] with the attributes [lineno] and [offset] (either may be
    [None]), or raises something else. *)

Module Py.

(** Where the index [i] of a slice falls in a sequence of length [len]:
    a negative index counts from the end, and both ends clip. *)
Definition slice_index (len : nat) (i : Z) : nat :=
  if (i <? 0)%Z then Z.to_nat (Z.max 0 (Z.of_nat len + i))
  else Nat.min (Z.to_nat i) len.

(** [l[:i]] and [l[i:]] *)
Definition slice_to {A} (l : list A) (i : Z) : list A :=
  take (slice_index (List.length l) i) l.
Definition slice_from {A} (l : list A) (i : Z) : list A :=
  drop (slice_index (List.length l) i) l.

(** [l[i]]; [None] stands for the [IndexError]. *)
Definition getitem {A} (l : list A) (i : Z) : option A :=
  if (0 <=? i)%Z then l !! Z.to_nat i
  else if (- Z.of_nat (List.length l) <=? i)%Z
       then l !! Z.to_nat (Z.of_nat (List.length l) + i)
       else None.

(** [s[:i]] and [s[i:]] for a text *)
Definition str_slice_to (s : string) (i : Z) : string :=
  Str.slice s 0 (slice_index (Str.len s) i).
Definition str_slice_from (s : string) (i : Z) : string :=
  Str.slice_from s (slice_index (Str.len s) i).

Definition linefeed : ascii := ascii_of_nat 10.
Definition carriage_return : ascii := ascii_of_nat 13.

(** The lines of a byte string with their line ends, which are
    [\n], [\r\n] and [\r]; [cur] is the line read so far, reversed. *)
Fixpoint lines_keepends (cur : list ascii) (l : list ascii)
  : list (list ascii) :=
  match l with
  | [] => match cur with [] => [] | _ :: _ => [rev cur] end
  | c :: r =>
      if Ascii.eqb c linefeed then rev (c :: cur) :: lines_keepends [] r
      else if Ascii.eqb c carriage_return then
        match r with
        | c' :: r' =>
            if Ascii.eqb c' linefeed
            then rev (c' :: c :: cur) :: lines_keepends [] r'
            else rev (c :: cur) :: lines_keepends [] r
        | [] => rev (c :: cur) :: lines_keepends [] r
        end
      else lines_keepends (c :: cur) r
  end.

(** [source.splitlines(True)] *)
Definition splitlines_keepends (source : string) : list string :=
  map String.string_of_list_ascii
      (lines_keepends [] (String.list_ascii_of_string source)).

End Py.

(** What [compile] does with a source. *)
Inductive compiled (C : Type) :=
| Compiled (code : C)
| SyntaxError (lineno offset : option Z)
| CompileError (cls : string).
Arguments Compiled {C} code.
Arguments SyntaxError {C} lineno offset.
Arguments CompileError {C} cls.

Section CompileUntil.
Context {C : Type} (_compile : string -> compiled C).

(** The second call of [compile], on the body. *)
Definition compile_body (body : string) : result (C * nat) :=
  match _compile body with
  | Compiled codeobj => Ok (codeobj, Str.len body)
  | SyntaxError _ _ => Raise (HostError "SyntaxError")
  | CompileError cls => Raise (HostError cls)
  end.

Definition compile_until (terminators : list string) (source : string)
  : result (C * nat) :=
  match _compile source with
  | Compiled _ => Raise (HostError "ValueError")
  | CompileError cls => Raise (HostError cls)
  | SyntaxError lineno offset =>
      let lines := Py.splitlines_keepends source in
      match lineno with
      | None => Raise (HostError "TypeError")
      | Some lineno =>
          let i_line := (lineno - 1)%Z in
          match offset with
          | None => Raise (HostError "TypeError")
          | Some offset =>
              let offset := (offset - 1)%Z in
              let lines_body := Py.slice_to lines i_line in
              let lines_rest := Py.slice_from lines i_line in
              match Py.getitem lines i_line with
              | None => Raise IndexError
              | Some line =>
                  let lines_body :=
                    lines_body ++ [Py.str_slice_to line offset] in
                  match lines_rest with
                  | [] => Raise IndexError
                  | _ :: lines_tail =>
                      let lines_rest :=
                        Py.str_slice_from line offset :: lines_tail in
                      let body := Str.join lines_body in
                      let rest := Str.join lines_rest in
                      if existsb (fun token => Str.startswith rest token 0)
                                 terminators
                      then compile_body body
                      else Raise (HostError "SyntaxError")
                  end
              end
          end
      end
  end.

End CompileUntil.
(** * Properties *)

(** ** Vocabulary *)

(** Every run of [m] takes a state to one related to it by [R]. *)
Definition preserves {S A} (R : S -> S -> Prop) (m : M S A) : Prop :=
  forall s r s', m s = Some (r, s') -> R s s'.

Section Vocabulary.
Context `{Evaluator}.

(** The only change evaluation makes to an object: the [childnodes] of
    an [IfBlock] is rebound to one of the bodies of that [IfBlock]. *)
Inductive obj_rebound : obj -> obj -> Prop :=
| rebound_same o : obj_rebound o o
| rebound_if c c' codes ifs els :
    c' = els \/ c' ∈ ifs ->
    obj_rebound (IfBlock c codes ifs els) (IfBlock c' codes ifs els).

Definition heap_rebound (h h' : heap) : Prop := Forall2 obj_rebound h h'.

Definition eval_rebound (s s' : heap * gmap string value) : Prop :=
  heap_rebound s.1 s'.1.

(** The body an [IfBlock] selects in the namespace [ns]: the conditions
    are tried in the order of the list, the first one that is true
    decides, and without one the body is [els]. *)
Fixpoint selected_body (branches : list (codeobj * loc)) (els : loc)
    (ns : gmap string value) : host loc :=
  match branches with
  | (code, body) :: rest =>
      match eval code ns with
      | inr v => if truth v then inr body else selected_body rest els ns
      | inl cls => inl cls
      end
  | [] => inr els
  end.

(** The evaluation of the nodes of one body, joined. *)
Definition evaluate_body (depth : nat) (items : list loc)
  : M (heap * gmap string value) string :=
  do parts <- mapM (evaluate depth) items;
  ret (Str.join parts).

(** An object without the one attribute that evaluation rebinds. *)
Definition erase (o : obj) : obj :=
  match o with
  | IfBlock _ codes ifs els => IfBlock 0 codes ifs els
  | _ => o
  end.

(** Two stores that differ at most in the [childnodes] of [IfBlock]s. *)
Definition heap_sim (h1 h2 : heap) : Prop := erase <$> h1 = erase <$> h2.

(** Two runs that agree on the result and the namespace and end in
    similar stores. *)
Definition run_sim {A}
    (r1 r2 : option (result A * (heap * gmap string value))) : Prop :=
  match r1, r2 with
  | Some (a1, (h1, d1)), Some (a2, (h2, d2)) =>
      a1 = a2 /\ d1 = d2 /\ heap_sim h1 h2
  | None, None => True
  | _, _ => False
  end.

(** [m] does not look at the [childnodes] of [IfBlock]s. *)
Definition respects {A} (m : M (heap * gmap string value) A) : Prop :=
  forall h1 h2 d, heap_sim h1 h2 -> run_sim (m (h1, d)) (m (h2, d)).

End Vocabulary.

Section Conditions.
Context `{Evaluator}.

(** The condition of a branch is evaluated, without an exception, to an
    object that is false. *)
Definition falsy (ns : gmap string value) (branch : codeobj * loc) : Prop :=
  exists v, eval branch.1 ns = inr v /\ truth v = false.

End Conditions.

(** No run of [m] ends with the exception [EncodingDetected]. *)
Definition never_restarts {S A} (m : M S A) : Prop :=
  forall s s' e, m s <> Some (Raise (EncodingDetected e), s').

Section ParserVocabulary.
Context `{Evaluator}.

(** What the handler never does to a store: no object is removed, and a
    [Template] stays one, with the encoding it has. *)
Definition heap_keeps (h h' : heap) : Prop :=
  List.length h <= List.length h'
  /\ forall r c d enc,
      h !! r = Some (Template c d enc) ->
      exists c' d', h' !! r = Some (Template c' d' enc).

Definition parse_keeps (s s' : heap * TemplateHandler) : Prop :=
  root s.2 = root s'.2 /\ heap_keeps s.1 s'.1.

(** The root of the parse has an encoding that counts as true. *)
Definition encoding_set (s : heap * TemplateHandler) : Prop :=
  exists c d e, s.1 !! root s.2 = Some (Template c d (Some e)) /\ e <> "".

(** [decode] knows no codec of the empty name. *)
Definition decode_rejects_empty : Prop :=
  forall data, exists cls, decode data "" = inl cls.

End ParserVocabulary.

(** From a state in [P], every run of [m] takes the state to one
    related to it by [R] and does not end with [EncodingDetected]. *)
Definition steady_from {S A} (P : S -> Prop) (R : S -> S -> Prop)
    (m : M S A) : Prop :=
  forall s r s',
    P s -> m s = Some (r, s') ->
    R s s' /\ forall e, r <> Raise (EncodingDetected e).

Section LoopVocabulary.
Context `{Evaluator}.

(** The nodes whose [evaluate] writes neither the store nor the
    namespace. *)
Definition inert (o : obj) : Prop :=
  match o with
  | Text _ | Variable_ _ | ExecBlock _ => True
  | _ => False
  end.

(** The namespace after the binding sets [items] were merged into [ns],
    one after the other. *)
Definition merged (ns : gmap string value)
    (items : list (gmap string value)) : gmap string value :=
  foldl update ns items.

End LoopVocabulary.

(** A text without a backslash. *)
Definition plain (s : string) : bool :=
  forallb (fun c => negb (Ascii.eqb c Escape.backslash))
          (String.list_ascii_of_string s).

(** A text of spaces and tabs. *)
Definition blank (s : string) : bool :=
  forallb Escape.is_blank (String.list_ascii_of_string s).

(** [s] is empty or ends a line: [^] matches after it. *)
Definition at_line_start (s : string) : bool :=
  match last (String.list_ascii_of_string s) with
  | Some c => Ascii.eqb c Escape.newline
  | None => true
  end.

(** [s] does not begin with a newline. *)
Definition no_newline_ahead (s : string) : bool :=
  match s with
  | String c _ => negb (Ascii.eqb c Escape.newline)
  | EmptyString => true
  end.

(** What the scan has kept back at a place where [^] may still match. *)
Definition held (bol : option (list ascii)) : list ascii :=
  match bol with
  | Some ws => rev ws
  | None => []
  end.

(** The text of one character. *)
Definition char (c : ascii) : string := String c "".


(** One of the opening markers starts at [p]. *)
Definition opens (data : string) (p : nat) : bool :=
  existsb (fun '(_, stag, _) => Str.startswith data stag p) tagset.

(** [o] is the first position from [pos] on at which [P] holds, if any. *)
Definition first_at (P : nat -> bool) (pos : nat) (o : option nat) : Prop :=
  match o with
  | Some m => pos <= m /\ P m = true /\ forall p, pos <= p < m -> P p = false
  | None => forall p, pos <= p -> P p = false
  end.

(** The tokens of a trace lie side by side in [data], from [pos] on, and
    none is empty. *)
Fixpoint tiled (data : string) (pos : nat) (s : stream) : Prop :=
  match s with
  | Yield (_, start, next, _) rest =>
      start = pos /\ pos < next <= Str.len data /\ tiled data next rest
  | Stop | Throw _ | Pending => True
  end.

(** A trace that was not cut. *)
Fixpoint complete (s : stream) : Prop :=
  match s with
  | Yield _ rest => complete rest
  | Stop | Throw _ => True
  | Pending => False
  end.

Section TreeVocabulary.
Context `{Evaluator}.

(** The list objects an object refers to as bodies. *)
Definition bodies (o : obj) : list loc :=
  match o with
  | IfBlock c _ ifs els => c :: els :: ifs
  | ForBlock c _ | ExecBlock c | EncodingBlock c | Template c _ _ => [c]
  | PyList _ | Text _ | Variable_ _ => []
  end.

(** [o.childnodes], for the blocks. *)
Definition childnodes_of (o : obj) : option loc :=
  match o with
  | IfBlock c _ _ _ | ForBlock c _ | ExecBlock c | EncodingBlock c
  | Template c _ _ => Some c
  | PyList _ | Text _ | Variable_ _ => None
  end.

(** Every condition of an [IfBlock] has its body: [codeobj_list] and
    [ifnodes_list] are of the same length. *)
Definition paired_obj (o : obj) : Prop :=
  match o with
  | IfBlock _ codes ifs _ => List.length codes = List.length ifs
  | _ => True
  end.

Definition paired (h : heap) : Prop := Forall paired_obj h.

Definition keeps_paired (h h' : heap) : Prop := paired h -> paired h'.

Definition parse_keeps_paired (s s' : heap * TemplateHandler) : Prop :=
  keeps_paired s.1 s'.1.

(** A store in the shape of a tree: the bodies of a node are list
    objects, and the nodes in them were stored after the node. *)
Definition wf (h : heap) : Prop :=
  forall l o b,
    h !! l = Some o -> b ∈ bodies o ->
    exists items, h !! b = Some (PyList items)
                  /\ forall x, x ∈ items -> l < x.

(** The states of a parse over a store in the shape of a tree: the open
    nodes are in the store, after its first object. *)
Definition pinv (s : heap * TemplateHandler) : Prop :=
  wf s.1 /\ Forall (fun x => 0 < x < List.length s.1) (nodestack s.2).

(** The states of a parse in which [node] is in the store, after its
    first object. *)
Definition pinv_at (node : loc) (s : heap * TemplateHandler) : Prop :=
  pinv s /\ 0 < node < List.length s.1.

(** A constructor of nodes: it only adds objects to the store, the last
    of them the node, whose bodies are among the objects added. *)
Definition fresh_init (init : M heap loc) : Prop :=
  forall h : heap,
    wf h ->
    exists r h',
      init h = Some (r, h')
      /\ wf h'
      /\ List.length h <= List.length h'
      /\ (forall l, l < List.length h -> h' !! l = h !! l)
      /\ forall node,
           r = Ok node ->
           S node = List.length h'
           /\ List.length h <= node
           /\ exists o, h' !! node = Some o
                        /\ forall b, b ∈ bodies o -> List.length h <= b.

End TreeVocabulary.

(** From a state in [P], [m] is not cut: it returns a value in a state
    in [Q], or raises an exception in a state in [E]. *)
Definition returns {S A} (P : S -> Prop) (m : M S A)
    (Q : A -> S -> Prop) (E : S -> Prop) : Prop :=
  forall s, P s ->
    exists r s', m s = Some (r, s')
                 /\ match r with Ok a => Q a s' | Raise _ => E s' end.

(** The states of an evaluation over a store of [N] objects in the shape
    of a tree. *)
Definition shaped `{Evaluator} (N : nat)
    (s : heap * gmap string value) : Prop :=
  wf s.1 /\ List.length s.1 = N.

(** ** Compiled templates and parses under way

    The stores that [Template_init] and the handler build, with the host
    evaluator [MiniPy], for the templates the statements below are
    tried on. *)

Module Samples.
Import MiniPy.

(** The compiled [{% if a %}A{% elif b %}B{% else %}C{% end %}]. *)
Definition sample_conditional : heap :=
  [PyList [4]; Template 0 ∅ None; PyList [5]; PyList [8];
   IfBlock 3 [CName "a"; CName "b"] [2; 6] 3;
   Text "A"; PyList [7]; Text "B"; Text "C"].

(** The store and the handler after [{% exec %}ns_var = 5]. *)
Definition sample_exec_open : heap * TemplateHandler :=
  ([PyList [3]; Template 0 ∅ None; PyList [4]; ExecBlock 2;
    Text "ns_var = 5"],
   {| root := 1; nodestack := [1; 3] |}).

(** The compiled [{% for x in [1,2,3] %}{{x}}{% end %}{{x}}]. *)
Definition sample_loop : heap :=
  [PyList [3; 5]; Template 0 ∅ None; PyList [4];
   ForBlock 2 (CLocalsFor "x" [1; 2; 3]%Z);
   Variable_ (CName "x"); Variable_ (CName "x")].

(** The store and the handler after [{% encoding %} utf-8 ]. *)
Definition sample_encoding_open : heap * TemplateHandler :=
  ([PyList [3]; Template 0 ∅ None; PyList [4]; EncodingBlock 2;
    Text " utf-8 "],
   {| root := 1; nodestack := [1; 3] |}).

(** The same with an encoding in the root already. *)
Definition sample_encoding_later : heap * TemplateHandler :=
  ([PyList [3]; Template 0 ∅ (Some "latin-1"); PyList [4]; EncodingBlock 2;
    Text " utf-8 "],
   {| root := 1; nodestack := [1; 3] |}).

(** The compiled [{% exec %}x = 1{% end %}{{ x }}{{ y }}]. *)
Definition sample_defaults : heap :=
  [PyList [3; 5; 6]; Template 0 {[ "x" := PInt 1 ]} None; PyList [4];
   ExecBlock 2; Text "x = 1"; Variable_ (CName "x"); Variable_ (CName "y")].

(** The store and the handler after [{% if a %}A{% else %}]. *)
Definition sample_else_open : heap * TemplateHandler :=
  ([PyList [4]; Template 0 ∅ None; PyList [5]; PyList [];
    IfBlock 3 [CName "a"] [2] 3; Text "A"],
   {| root := 1; nodestack := [1; 4] |}).

(** The store and the handler after [{% for x in [1,2] %}A]. *)
Definition sample_for_open : heap * TemplateHandler :=
  ([PyList [3]; Template 0 ∅ None; PyList [4];
    ForBlock 2 (CLocalsFor "x" [1; 2]%Z); Text "A"],
   {| root := 1; nodestack := [1; 3] |}).

(** The store and the handler after [{% if a %}A]. *)
Definition sample_if_open : heap * TemplateHandler :=
  ([PyList [4]; Template 0 ∅ None; PyList [5]; PyList [];
    IfBlock 2 [CName "a"] [2] 3; Text "A"],
   {| root := 1; nodestack := [1; 4] |}).

(** A [compile] for assignments on one line: the first brace is a
    syntax error, reported with its column. *)
Definition compile_line (source : string) : compiled string :=
  match Str.index source "}" 0 with
  | Some i => SyntaxError (Some 1%Z) (Some (Z.of_nat i + 1)%Z)
  | None => Compiled source
  end.

End Samples.

(** ** Rules for computations *)

Section Rules.
Context {S : Type} (R : S -> S -> Prop) `{!Reflexive R} `{!Transitive R}.

Lemma preserves_ret {A} (a : A) : preserves R (ret a).
Proof. intros s r s' [= _ <-]. reflexivity. Qed.

Lemma preserves_raise {A} e : preserves R (@raise S A e).
Proof. intros s r s' [= _ <-]. reflexivity. Qed.

Lemma preserves_cut {A} : preserves R (@cut S A).
Proof. intros s r s' [=]. Qed.

Lemma preserves_lift {A} (r : host A) : preserves R (lift r).
Proof. intros s r' s' [= _ <-]. reflexivity. Qed.

Lemma preserves_get : preserves R get.
Proof. intros s r s' [= _ <-]. reflexivity. Qed.

Lemma preserves_bind {A B} (m : M S A) (f : A -> M S B) :
  preserves R m -> (forall a, preserves R (f a)) -> preserves R (bind m f).
Proof.
  intros Hm Hf s r s'. unfold bind.
  destruct (m s) as [[[a|e] s1]|] eqn:E; [|intros [= <- <-]; eauto|done].
  intros E'. etransitivity; [eapply Hm, E | eapply Hf, E'].
Qed.

Lemma preserves_mapM {A B} (f : A -> M S B) (l : list A) :
  (forall a, preserves R (f a)) -> preserves R (mapM f l).
Proof.
  intros Hf. induction l as [|a l IH]; simpl.
  - apply preserves_ret.
  - apply preserves_bind; [done|]. intros b.
    apply preserves_bind; [done|]. intros bs. apply preserves_ret.
Qed.

End Rules.

(** ** What evaluation changes in the store *)

Section Frame.
Context `{Evaluator}.

#[local] Instance obj_rebound_refl : Reflexive obj_rebound.
Proof. intros o. constructor. Qed.

#[local] Instance obj_rebound_trans : Transitive obj_rebound.
Proof.
  intros o1 o2 o3 H12 H23.
  destruct H12; [done|]. inversion H23; subst; by constructor.
Qed.

#[export] Instance heap_rebound_refl : Reflexive heap_rebound.
Proof.
  intros h. apply Forall2_same_length_lookup. split; [done|].
  intros i x y Hx Hy. rewrite Hx in Hy. injection Hy as <-. constructor.
Qed.

#[export] Instance heap_rebound_trans : Transitive heap_rebound.
Proof.
  intros h1 h2 h3 H12. revert h3.
  induction H12 as [|o1 o2 t1 t2 Ho _ IH]; intros h3 H23; [done|].
  inversion H23; subst. constructor; [by etransitivity | by apply IH].
Qed.

Lemma heap_rebound_length h h' :
  heap_rebound h h' -> List.length h' = List.length h.
Proof. intros Hr. symmetry. by eapply Forall2_length. Qed.

Lemma heap_rebound_lookup h h' l o :
  heap_rebound h h' -> h !! l = Some o ->
  exists o', h' !! l = Some o' /\ obj_rebound o o'.
Proof. intros Hr Hl. by eapply Forall2_lookup_l. Qed.

Lemma heap_rebound_insert h l o o' :
  h !! l = Some o -> obj_rebound o o' -> heap_rebound h (<[l := o']> h).
Proof.
  intros Hl Ho. apply Forall2_same_length_lookup.
  split; [by rewrite length_insert|].
  intros i x y Hx Hy. destruct (decide (i = l)) as [->|Hne].
  - rewrite list_lookup_insert_eq in Hy by (by eapply lookup_lt_Some).
    congruence.
  - rewrite list_lookup_insert_ne in Hy by done.
    rewrite Hx in Hy. injection Hy as <-. constructor.
Qed.

#[export] Instance eval_rebound_refl : Reflexive eval_rebound.
Proof. intros [h d]. unfold eval_rebound. reflexivity. Qed.

#[export] Instance eval_rebound_trans : Transitive eval_rebound.
Proof.
  intros [h1 d1] [h2 d2] [h3 d3]. unfold eval_rebound; simpl.
  apply heap_rebound_trans.
Qed.

Lemma preserves_on_snd {A} (m : M (gmap string value) A) :
  preserves eval_rebound (on_snd m).
Proof.
  intros [h d] r [h' d']. unfold on_snd.
  destruct (m d) as [[r0 d0]|]; [|done].
  intros [= _ <- _]. unfold eval_rebound; simpl. reflexivity.
Qed.

Lemma preserves_on_heap {A} (m : M heap A) :
  preserves heap_rebound m -> preserves eval_rebound (on_heap m).
Proof.
  intros Hm [h x] r [h' x']. unfold on_heap.
  destruct (m h) as [[r0 h0]|] eqn:E; [|done].
  intros [= _ <- _]. unfold eval_rebound; simpl. eapply Hm, E.
Qed.

Lemma preserves_load l : preserves heap_rebound (load l).
Proof.
  intros h r h'. unfold load.
  destruct (h !! l); intros [= _ <-]; reflexivity.
Qed.

Lemma preserves_getattr_childnodes self :
  preserves heap_rebound (getattr_childnodes self).
Proof.
  unfold getattr_childnodes. apply preserves_bind; try apply _.
  - apply preserves_load.
  - intros []; (apply preserves_ret || apply preserves_raise); apply _.
Qed.

Lemma preserves_list_items l : preserves heap_rebound (list_items l).
Proof.
  unfold list_items. apply preserves_bind; try apply _.
  - apply preserves_load.
  - intros []; (apply preserves_ret || apply preserves_raise); apply _.
Qed.

(** [IfBlock_choose] writes the selected body into [childnodes], and
    nothing else. *)
Lemma IfBlock_choose_selected self branches h d c codes ifs els :
  h !! self = Some (IfBlock c codes ifs els) ->
  IfBlock_choose self branches (h, d) =
    match selected_body branches els d with
    | inr body => Some (Ok tt, (<[self := IfBlock body codes ifs els]> h, d))
    | inl cls => Some (Raise (HostError cls), (h, d))
    end.
Proof.
  intros Hself. induction branches as [|[code body] rest IH]; simpl.
  - unfold bind, on_heap, load, setattr_childnodes, bind, load, store.
    rewrite Hself; simpl. by rewrite Hself.
  - unfold bind at 1. simpl. unfold bind at 1, lift. simpl.
    destruct (eval code d) as [cls|v]; simpl; [done|].
    destruct (truth v); [|apply IH].
    unfold on_heap, setattr_childnodes, bind, load, store.
    by rewrite Hself.
Qed.

(** The equations of the methods on a store that holds the node. *)
Lemma evaluate_run n x o (h : heap) (d : gmap string value) :
  h !! x = Some o ->
  evaluate (S n) x (h, d) =
    match o with
    | Text v => ret v
    | Variable_ code => Variable_evaluate code
    | IfBlock _ _ _ _ => IfBlock_evaluate (evaluate n) x
    | ForBlock _ _ => ForBlock_evaluate (evaluate n) x
    | ExecBlock _ => ExecBlock_evaluate
    | EncodingBlock _ => Block_evaluate (evaluate n) x
    | Template _ _ _ =>
        do ns <- on_snd get;
        on_heap (Template_evaluate (evaluate n) x (Some ns) ∅)
    | PyList _ => raise (AttributeError "evaluate")
    end (h, d).
Proof.
  intros Hx. simpl. unfold bind at 1, on_heap at 1, load. by rewrite Hx.
Qed.

Lemma evaluate_run_none n x (h : heap) (d : gmap string value) :
  h !! x = None ->
  evaluate (S n) x (h, d) = Some (Raise (AttributeError "<no object>"), (h, d)).
Proof.
  intros Hx. simpl. unfold bind at 1, on_heap at 1, load. by rewrite Hx.
Qed.

Lemma IfBlock_evaluate_run ev x h d c codes ifs els :
  h !! x = Some (IfBlock c codes ifs els) ->
  IfBlock_evaluate ev x (h, d) =
    match selected_body (zip codes ifs) els d with
    | inr body => Block_evaluate ev x (<[x := IfBlock body codes ifs els]> h, d)
    | inl cls => Some (Raise (HostError cls), (h, d))
    end.
Proof.
  intros Hx. unfold IfBlock_evaluate, bind at 1, on_heap at 1, load.
  rewrite Hx. unfold bind at 1. erewrite IfBlock_choose_selected by done.
  by destruct (selected_body _ _ _).
Qed.

Lemma ForBlock_evaluate_run ev x (h : heap) d c code :
  h !! x = Some (ForBlock c code) ->
  ForBlock_evaluate ev x (h, d) =
    (do items <- lift (eval_iter code d);
     do results <- ForBlock_loop ev x items;
     ret (Str.join results)) (h, d).
Proof.
  intros Hx. unfold ForBlock_evaluate, bind at 1, on_heap at 1, load.
  by rewrite Hx.
Qed.

Lemma selected_body_in branches els d body :
  selected_body branches els d = inr body ->
  body = els \/ exists code, (code, body) ∈ branches.
Proof.
  induction branches as [|[code b] rest IH]; simpl.
  - intros [= <-]. by left.
  - destruct (eval code d) as [cls|v]; [done|].
    destruct (truth v).
    + intros [= <-]. right. exists code. apply list_elem_of_here.
    + intros Hs. destruct (IH Hs) as [->|[k Hin]]; [by left|right].
      exists k. by apply list_elem_of_further.
Qed.

Lemma preserves_Block_evaluate ev self :
  (forall x, preserves eval_rebound (ev x)) ->
  preserves eval_rebound (Block_evaluate ev self).
Proof.
  intros Hev. unfold Block_evaluate.
  apply preserves_bind; try apply _.
  { apply preserves_on_heap, preserves_getattr_childnodes. }
  intros c. apply preserves_bind; try apply _.
  { apply preserves_on_heap, preserves_list_items. }
  intros items. apply preserves_bind; try apply _.
  { by apply preserves_mapM; try apply _. }
  intros parts. apply preserves_ret; apply _.
Qed.

Lemma preserves_IfBlock_evaluate ev self :
  (forall x, preserves eval_rebound (ev x)) ->
  preserves eval_rebound (IfBlock_evaluate ev self).
Proof.
  intros Hev [h d] r [h' d'].
  destruct (h !! self) as [o|] eqn:Hself.
  2:{ unfold IfBlock_evaluate, bind at 1, on_heap, load. rewrite Hself.
      intros [= _ <- <-]; reflexivity. }
  destruct o;
    try (unfold IfBlock_evaluate, bind at 1, on_heap, load; rewrite Hself;
         intros [= _ <- <-]; reflexivity).
  erewrite IfBlock_evaluate_run by done.
  destruct (selected_body _ _ _) as [cls|body] eqn:Hsel;
    [intros [= _ <- <-]; reflexivity|].
  intros Hrun. apply preserves_Block_evaluate in Hrun; [|done].
  etransitivity; [|exact Hrun]. unfold eval_rebound; simpl.
  eapply heap_rebound_insert; [done|]. constructor.
  apply selected_body_in in Hsel as [->|[k Hin]]; [by left|right].
  by eapply elem_of_zip_r.
Qed.

Lemma preserves_ForBlock_loop ev self items :
  (forall x, preserves eval_rebound (ev x)) ->
  preserves eval_rebound (ForBlock_loop ev self items).
Proof.
  intros Hev. induction items as [|b rest IH]; simpl.
  { apply preserves_ret; apply _. }
  apply preserves_bind; try apply _. { apply preserves_on_snd. }
  intros ns. apply preserves_bind; try apply _. { apply preserves_on_snd. }
  intros _. apply preserves_bind; try apply _.
  { by apply preserves_Block_evaluate. }
  intros r. apply preserves_bind; try apply _; [done|].
  intros rs. apply preserves_ret; apply _.
Qed.

Lemma preserves_ForBlock_evaluate ev self :
  (forall x, preserves eval_rebound (ev x)) ->
  preserves eval_rebound (ForBlock_evaluate ev self).
Proof.
  intros Hev. unfold ForBlock_evaluate.
  apply preserves_bind; try apply _.
  { apply preserves_on_heap, preserves_load. }
  intros []; try (apply preserves_raise; apply _).
  apply preserves_bind; try apply _. { apply preserves_on_snd. }
  intros ns. apply preserves_bind; try apply _.
  { apply preserves_lift; apply _. }
  intros items. apply preserves_bind; try apply _.
  { by apply preserves_ForBlock_loop. }
  intros rs. apply preserves_ret; apply _.
Qed.

Lemma preserves_with_namespace {A} d
    (body : M (heap * gmap string value) A) :
  preserves eval_rebound body -> preserves heap_rebound (with_namespace d body).
Proof.
  intros Hb h r h'. unfold with_namespace.
  destruct (body (h, d)) as [[r0 [h0 d0]]|] eqn:E; [|done].
  intros [= _ <-]. apply Hb in E. exact E.
Qed.

Lemma preserves_in_namespace {A} d
    (body : M (heap * gmap string value) A) :
  preserves eval_rebound body -> preserves heap_rebound (in_namespace d body).
Proof.
  intros Hb h r h'. unfold in_namespace.
  destruct (body (h, d)) as [[[a|e] [h0 d0]]|] eqn:E; [| |done];
    intros [= _ <-]; apply Hb in E; exact E.
Qed.

Lemma preserves_Template_evaluate ev self namespace kwds :
  (forall x, preserves eval_rebound (ev x)) ->
  preserves heap_rebound (Template_evaluate ev self namespace kwds).
Proof.
  intros Hev. unfold Template_evaluate.
  apply preserves_bind; try apply _. { apply preserves_load. }
  intros []; try (apply preserves_raise; apply _).
  by apply preserves_with_namespace, preserves_Block_evaluate.
Qed.

(** Evaluation rebinds [childnodes] of [IfBlock]s and writes nothing
    else. *)
Lemma preserves_evaluate depth x : preserves eval_rebound (evaluate depth x).
Proof.
  revert x. induction depth as [|d IH]; intros x; simpl.
  { apply preserves_cut. }
  apply preserves_bind; try apply _.
  { apply preserves_on_heap, preserves_load. }
  intros [].
  - apply preserves_raise; apply _.
  - apply preserves_ret; apply _.
  - unfold Variable_evaluate.
    apply preserves_bind; try apply _. { apply preserves_on_snd. }
    intros ns. apply preserves_bind; try apply _.
    { apply preserves_lift; apply _. }
    intros v. destruct (ns !! "__escape__") as [esc|].
    + destruct (truth esc); [destruct (nonescape_value v)|].
      * apply preserves_lift; apply _.
      * apply preserves_bind; try apply _; [apply preserves_lift; apply _|].
        intros u. apply preserves_lift; apply _.
      * apply preserves_lift; apply _.
    + apply preserves_lift; apply _.
  - by apply preserves_IfBlock_evaluate.
  - by apply preserves_ForBlock_evaluate.
  - apply preserves_ret; apply _.
  - by apply preserves_Block_evaluate.
  - apply preserves_bind; try apply _. { apply preserves_on_snd. }
    intros ns. by apply preserves_on_heap, preserves_Template_evaluate.
Qed.

End Frame.

(** ** [IfBlock.evaluate] *)

Section Conditional.
Context `{Evaluator}.

Lemma selected_body_first branches els ns pre code body post v :
  branches = pre ++ (code, body) :: post ->
  Forall (falsy ns) pre ->
  eval code ns = inr v -> truth v = true ->
  selected_body branches els ns = inr body.
Proof.
  intros -> Hpre Hv Ht. induction Hpre as [|[k b] pre [w [Hw Hf]] _ IH]; simpl.
  - by rewrite Hv, Ht.
  - simpl in Hw. by rewrite Hw, Hf.
Qed.

Lemma selected_body_else branches els ns :
  Forall (falsy ns) branches -> selected_body branches els ns = inr els.
Proof.
  induction 1 as [|[k b] rest [w [Hw Hf]] _ IH]; simpl; [done|].
  simpl in Hw. by rewrite Hw, Hf.
Qed.

Lemma Block_evaluate_body ev self h d c items :
  getattr_childnodes self h = Some (Ok c, h) ->
  h !! c = Some (PyList items) ->
  Block_evaluate ev self (h, d) =
    (do parts <- mapM ev items; ret (Str.join parts)) (h, d).
Proof.
  intros Hc Hitems. unfold Block_evaluate.
  unfold bind at 1, on_heap at 1. rewrite Hc.
  unfold bind at 1, on_heap at 1, list_items, bind, load. by rewrite Hitems.
Qed.

(** The evaluation of an [IfBlock] is the evaluation of the body it
    selects, after that body became its [childnodes]. *)
Lemma IfBlock_evaluate_selected d x h ns c codes ifs els body items :
  h !! x = Some (IfBlock c codes ifs els) ->
  selected_body (zip codes ifs) els ns = inr body ->
  h !! body = Some (PyList items) ->
  evaluate (S d) x (h, ns) =
    evaluate_body d items (<[x := IfBlock body codes ifs els]> h, ns).
Proof.
  intros Hx Hsel Hbody.
  erewrite evaluate_run by done. cbn beta iota.
  erewrite IfBlock_evaluate_run by done. rewrite Hsel.
  assert (x < List.length h) by (by eapply lookup_lt_Some).
  assert (body <> x) by (intros ->; congruence).
  erewrite Block_evaluate_body; [done| |].
  - unfold getattr_childnodes, bind, load, ret.
    by rewrite list_lookup_insert_eq.
  - by rewrite list_lookup_insert_ne.
Qed.

(** C2, as the code has it: evaluating an [IfBlock] keeps its
    [codeobj_list], [ifnodes_list] and [elsenodes]; the attribute
    [childnodes] is the one that can change, and then it is one of the
    bodies of the node. *)
Theorem IfBlock_evaluate_keeps_branches
    d x h ns r h' ns' c codes ifs els :
  h !! x = Some (IfBlock c codes ifs els) ->
  evaluate d x (h, ns) = Some (r, (h', ns')) ->
  exists c', h' !! x = Some (IfBlock c' codes ifs els)
             /\ (c' = c \/ c' = els \/ c' ∈ ifs).
Proof.
  intros Hx Hrun. apply preserves_evaluate in Hrun.
  destruct (heap_rebound_lookup _ _ _ _ Hrun Hx) as (o' & Ho' & Hreb).
  inversion Hreb; subst.
  - exists c. split; [done|by left].
  - exists c'. split; [done|]. right. tauto.
Qed.

(** C3: the conditions are tried in the order of declaration; the result
    is the evaluation of the body of the first branch whose condition is
    true, and of the else-body when none is; an else-body without nodes
    gives the empty string. *)
Theorem IfBlock_evaluate_first_true d x h ns c codes ifs els :
  h !! x = Some (IfBlock c codes ifs els) ->
  (forall pre code body post v items,
      zip codes ifs = pre ++ (code, body) :: post ->
      Forall (falsy ns) pre ->
      eval code ns = inr v -> truth v = true ->
      h !! body = Some (PyList items) ->
      evaluate (S d) x (h, ns) =
        evaluate_body d items (<[x := IfBlock body codes ifs els]> h, ns))
  /\ (forall items,
      Forall (falsy ns) (zip codes ifs) ->
      h !! els = Some (PyList items) ->
      evaluate (S d) x (h, ns) =
        evaluate_body d items (<[x := IfBlock els codes ifs els]> h, ns))
  /\ (forall s, evaluate_body d [] s = Some (Ok "", s)).
Proof.
  intros Hx. split; [|split].
  - intros pre code body post v items Hzip Hpre Hv Ht Hbody.
    eapply IfBlock_evaluate_selected; [done| |done].
    by eapply selected_body_first.
  - intros items Hall Hels.
    eapply IfBlock_evaluate_selected; [done| |done].
    by apply selected_body_else.
  - intros [h0 d0]. reflexivity.
Qed.

End Conditional.

(** ** Evaluation does not depend on what it rebinds *)

Section Similar.
Context `{Evaluator}.

Lemma erase_rebound o o' : obj_rebound o o' -> erase o = erase o'.
Proof. by destruct 1. Qed.

Lemma heap_rebound_sim h h' : heap_rebound h h' -> heap_sim h h'.
Proof.
  unfold heap_sim. induction 1 as [|o o' t t' Ho _ IH]; [done|].
  rewrite !fmap_cons. f_equal; [by apply erase_rebound|done].
Qed.

Lemma heap_sim_length h1 h2 : heap_sim h1 h2 -> List.length h1 = List.length h2.
Proof.
  intros Hs. apply (f_equal List.length) in Hs. by rewrite !length_fmap in Hs.
Qed.

Lemma heap_sim_lookup h1 h2 l :
  heap_sim h1 h2 -> erase <$> (h1 !! l) = erase <$> (h2 !! l).
Proof. intros Hs. rewrite <- !list_lookup_fmap. by rewrite Hs. Qed.

Lemma heap_sim_insert h1 h2 l o1 o2 :
  heap_sim h1 h2 -> erase o1 = erase o2 ->
  heap_sim (<[l := o1]> h1) (<[l := o2]> h2).
Proof.
  unfold heap_sim. intros Hs Ho. rewrite !list_fmap_insert. by rewrite Hs, Ho.
Qed.

Lemma heap_sim_sym h1 h2 : heap_sim h1 h2 -> heap_sim h2 h1.
Proof. unfold heap_sim. done. Qed.

Lemma heap_sim_trans h1 h2 h3 :
  heap_sim h1 h2 -> heap_sim h2 h3 -> heap_sim h1 h3.
Proof. unfold heap_sim. congruence. Qed.

(** Two similar stores hold the same object at [l], unless it is an
    [IfBlock]; then they agree on all but its [childnodes]. *)
Lemma heap_sim_lookup_cases h1 h2 l :
  heap_sim h1 h2 ->
  h1 !! l = h2 !! l
  \/ exists c1 c2 codes ifs els,
       h1 !! l = Some (IfBlock c1 codes ifs els)
       /\ h2 !! l = Some (IfBlock c2 codes ifs els).
Proof.
  intros Hs. apply (heap_sim_lookup _ _ l) in Hs.
  destruct (h1 !! l) as [o1|], (h2 !! l) as [o2|]; simpl in Hs;
    try done; [|by left].
  injection Hs as Hs.
  destruct o1, o2; simpl in Hs; try done; try (left; congruence).
  injection Hs as -> -> ->. right. by eexists _, _, _, _, _.
Qed.

Lemma respects_ret {A} (a : A) : respects (ret a).
Proof. intros h1 h2 d Hs. simpl. done. Qed.

Lemma respects_raise {A} e : respects (@raise _ A e).
Proof. intros h1 h2 d Hs. simpl. done. Qed.

Lemma respects_cut {A} : respects (@cut _ A).
Proof. intros h1 h2 d Hs. simpl. done. Qed.

Lemma respects_lift {A} (r : host A) : respects (lift r).
Proof. intros h1 h2 d Hs. simpl. done. Qed.

Lemma respects_on_snd {A} (m : M (gmap string value) A) : respects (on_snd m).
Proof.
  intros h1 h2 d Hs. unfold on_snd. by destruct (m d) as [[r d']|]; simpl.
Qed.

Lemma respects_bind {A B} (m : M _ A) (f : A -> M _ B) :
  respects m -> (forall a, respects (f a)) -> respects (bind m f).
Proof.
  intros Hm Hf h1 h2 d Hs. unfold bind. specialize (Hm h1 h2 d Hs).
  destruct (m (h1, d)) as [[[a1|e1] [h1' d1]]|],
           (m (h2, d)) as [[[a2|e2] [h2' d2]]|]; simpl in Hm; try done;
    destruct Hm as ([= <-] & <- & Hs'); try done.
  by apply Hf.
Qed.

Lemma respects_mapM {A B} (f : A -> M _ B) (l : list A) :
  (forall a, respects (f a)) -> respects (mapM f l).
Proof.
  intros Hf. induction l as [|a l IH]; simpl; [apply respects_ret|].
  apply respects_bind; [done|]. intros b.
  apply respects_bind; [done|]. intros bs. apply respects_ret.
Qed.

Lemma respects_list_items c : respects (on_heap (list_items c)).
Proof.
  intros h1 h2 d Hs. unfold on_heap, list_items, bind, load. simpl.
  destruct (heap_sim_lookup_cases _ _ c Hs)
    as [Heq|(c1 & c2 & codes & ifs & els & -> & ->)]; [|done].
  rewrite Heq. destruct (h2 !! c) as [[]|]; simpl; done.
Qed.

(** The evaluation of the items of the list object [c]. *)
Lemma Block_evaluate_unfold ev self s :
  Block_evaluate ev self s =
    (do c <- on_heap (getattr_childnodes self);
     do items <- on_heap (list_items c);
     do parts <- mapM ev items;
     ret (Str.join parts)) s.
Proof. reflexivity. Qed.

Lemma respects_items ev c :
  (forall x, respects (ev x)) ->
  respects (do items <- on_heap (list_items c);
            do parts <- mapM ev items;
            ret (Str.join parts)).
Proof.
  intros Hev. apply respects_bind; [apply respects_list_items|].
  intros items. apply respects_bind; [by apply respects_mapM|].
  intros parts. apply respects_ret.
Qed.

(** [Block.evaluate] on two similar stores that hold the same object
    at [self]. *)
Lemma Block_evaluate_sim ev self h1 h2 d :
  (forall x, respects (ev x)) ->
  heap_sim h1 h2 -> h1 !! self = h2 !! self ->
  run_sim (Block_evaluate ev self (h1, d)) (Block_evaluate ev self (h2, d)).
Proof.
  intros Hev Hs Hself. rewrite !Block_evaluate_unfold.
  unfold bind at 1 3. unfold on_heap at 1 4, getattr_childnodes, bind, load.
  simpl. rewrite <- Hself.
  destruct (h1 !! self) as [o|]; [|done].
  destruct o; simpl; try done; by apply respects_items.
Qed.

Lemma bind_get_snd {A} (f : gmap string value -> M _ A) (h : heap) d :
  (do ns <- on_snd get; f ns) (h, d) = f d (h, d).
Proof. reflexivity. Qed.

Lemma bind_put_snd {A} (k : M _ A) (h : heap) (d d' : gmap string value) :
  (run on_snd (put d'); k) (h, d) = k (h, d').
Proof. reflexivity. Qed.

(** Two runs of [bind] are similar when the first parts are and the
    continuations are from similar stores. *)
Lemma run_sim_bind {A B} (m1 m2 : M _ A) (f1 f2 : A -> M _ B) s1 s2 :
  run_sim (m1 s1) (m2 s2) ->
  (forall a h1 h2 d,
      m1 s1 = Some (Ok a, (h1, d)) -> m2 s2 = Some (Ok a, (h2, d)) ->
      heap_sim h1 h2 -> run_sim (f1 a (h1, d)) (f2 a (h2, d))) ->
  run_sim (bind m1 f1 s1) (bind m2 f2 s2).
Proof.
  intros Hm Hf. unfold bind.
  destruct (m1 s1) as [[[a1|e1] [h1 d1]]|],
           (m2 s2) as [[[a2|e2] [h2 d2]]|]; simpl in Hm; try done;
    destruct Hm as (Heq & <- & Hs); simplify_eq; simpl; [|done].
  by apply Hf.
Qed.

Lemma ForBlock_loop_sim ev self items c code h1 h2 d :
  (forall x, respects (ev x)) ->
  (forall x, preserves eval_rebound (ev x)) ->
  heap_sim h1 h2 ->
  h1 !! self = Some (ForBlock c code) ->
  run_sim (ForBlock_loop ev self items (h1, d))
          (ForBlock_loop ev self items (h2, d)).
Proof.
  intros Hev Hpr. revert h1 h2 d.
  induction items as [|b rest IH]; intros h1 h2 d Hs Hself; simpl; [done|].
  assert (h2 !! self = Some (ForBlock c code)) as Hself2.
  { destruct (heap_sim_lookup_cases _ _ self Hs)
      as [Heq|(c1 & c2 & codes & ifs & els & Hc & _)]; congruence. }
  rewrite !bind_get_snd, !bind_put_snd.
  apply run_sim_bind.
  { apply Block_evaluate_sim; [done..|congruence]. }
  intros r h1' h2' d' E1 E2 Hs'.
  apply preserves_Block_evaluate in E1; [|done].
  destruct (heap_rebound_lookup _ _ _ _ E1 Hself) as (o' & Ho' & Hreb).
  inversion Hreb; subst.
  apply run_sim_bind; [by apply IH|].
  intros rs k1 k2 n _ _ Hk. simpl. done.
Qed.

Lemma respects_Variable_evaluate code : respects (Variable_evaluate code).
Proof.
  unfold Variable_evaluate.
  apply respects_bind; [apply respects_on_snd|]. intros ns.
  apply respects_bind; [apply respects_lift|]. intros v.
  destruct (ns !! "__escape__") as [esc|]; [|apply respects_lift].
  destruct (truth esc); [|apply respects_lift].
  destruct (nonescape_value v); [apply respects_lift|].
  apply respects_bind; [apply respects_lift|]. intros u. apply respects_lift.
Qed.

(** [evaluate] gives the same result and namespace on two similar
    stores, and leaves them similar. *)
Lemma respects_evaluate depth x : respects (evaluate depth x).
Proof.
  revert x. induction depth as [|n IH]; intros x; [apply respects_cut|].
  intros h1 h2 d Hs.
  destruct (heap_sim_lookup_cases _ _ x Hs)
    as [Heq|(c1 & c2 & codes & ifs & els & Hx1 & Hx2)].
  - destruct (h1 !! x) as [o|] eqn:Hx.
    2:{ by rewrite !evaluate_run_none. }
    symmetry in Heq. rewrite (evaluate_run _ _ _ _ _ Hx).
    rewrite (evaluate_run _ _ _ _ _ Heq).
    destruct o; cbn beta iota.
    + done.
    + done.
    + by apply respects_Variable_evaluate.
    + erewrite !IfBlock_evaluate_run by done.
      destruct (selected_body _ _ _) as [cls|body]; [done|].
      apply Block_evaluate_sim; [done| |].
      * by apply heap_sim_insert.
      * assert (x < List.length h1) by (by eapply lookup_lt_Some).
        assert (x < List.length h2) by (by eapply lookup_lt_Some).
        by rewrite !list_lookup_insert_eq.
    + erewrite !ForBlock_evaluate_run by done.
      apply run_sim_bind; [done|]. intros items k1 k2 n' E1 E2 Hk.
      unfold lift in E1, E2. simplify_eq.
      apply run_sim_bind.
      { eapply ForBlock_loop_sim; [done|apply preserves_evaluate|done..]. }
      by intros.
    + done.
    + apply Block_evaluate_sim; [done..|congruence].
    + rewrite !bind_get_snd.
      unfold on_heap, Template_evaluate, bind, load. rewrite Hx, Heq.
      unfold with_namespace.
      match goal with
      | |- context [Block_evaluate ?ev x (h1, ?g)] =>
          assert (run_sim (Block_evaluate ev x (h1, g))
                          (Block_evaluate ev x (h2, g))) as Hb
            by (apply Block_evaluate_sim; [done..|congruence]);
          destruct (Block_evaluate ev x (h1, g)) as [[r1 [k1 n1]]|],
                   (Block_evaluate ev x (h2, g)) as [[r2 [k2 n2]]|]
      end; simpl in Hb; try done.
      destruct Hb as (-> & _ & Hk). done.
  - rewrite (evaluate_run _ _ _ _ _ Hx1), (evaluate_run _ _ _ _ _ Hx2).
    cbn beta iota. erewrite !IfBlock_evaluate_run by done.
    destruct (selected_body _ _ _) as [cls|body]; [done|].
    apply Block_evaluate_sim; [done| |].
    * by apply heap_sim_insert.
    * assert (x < List.length h1) by (by eapply lookup_lt_Some).
      assert (x < List.length h2) by (by eapply lookup_lt_Some).
      by rewrite !list_lookup_insert_eq.
Qed.

End Similar.

(** ** [Template.evaluate] *)

Section Render.
Context `{Evaluator}.

Lemma dict_truth_false (d : gmap string value) : dict_truth d = false -> d = ∅.
Proof.
  unfold dict_truth. destruct (map_to_list d) eqn:E; [|done].
  intros _. by apply map_to_list_empty_iff.
Qed.

Lemma update_empty (d : gmap string value) : update d ∅ = d.
Proof. unfold update. by rewrite (left_id_L ∅ (∪)). Qed.

Lemma update_if_truth (d other : gmap string value) :
  (if dict_truth other then update d other else d) = update d other.
Proof.
  destruct (dict_truth other) eqn:E; [done|].
  apply dict_truth_false in E as ->. by rewrite update_empty.
Qed.

Lemma update_lookup_new (d other : gmap string value) k v :
  other !! k = Some v -> update d other !! k = Some v.
Proof. intros Hk. unfold update. by apply lookup_union_Some_l. Qed.

Lemma update_lookup_old (d other : gmap string value) k :
  other !! k = None -> update d other !! k = d !! k.
Proof. intros Hk. unfold update. by apply lookup_union_r. Qed.

(** The namespace a call of [Template.evaluate] works on. *)
Lemma Template_evaluate_run ev t (h : heap) c dflt enc namespace kwds :
  h !! t = Some (Template c dflt enc) ->
  Template_evaluate ev t namespace kwds h =
    with_namespace (update (update dflt (default ∅ namespace)) kwds)
                   (Block_evaluate ev t) h.
Proof.
  intros Ht. unfold Template_evaluate, bind, load. rewrite Ht.
  rewrite update_if_truth. destruct namespace as [d|]; simpl.
  - by rewrite update_if_truth.
  - by rewrite update_empty.
Qed.

Lemma Template_evaluate_sim ev t namespace kwds h1 h2 :
  (forall x, respects (ev x)) ->
  heap_sim h1 h2 ->
  match Template_evaluate ev t namespace kwds h1,
        Template_evaluate ev t namespace kwds h2 with
  | Some (r1, k1), Some (r2, k2) => r1 = r2 /\ heap_sim k1 k2
  | None, None => True
  | _, _ => False
  end.
Proof.
  intros Hev Hs.
  destruct (heap_sim_lookup_cases _ _ t Hs)
    as [Heq|(c1 & c2 & codes & ifs & els & Hx1 & Hx2)].
  - destruct (h1 !! t) as [o|] eqn:Ht; symmetry in Heq.
    2:{ unfold Template_evaluate, bind, load. by rewrite Ht, Heq. }
    destruct o;
      try (unfold Template_evaluate, bind, load; by rewrite Ht, Heq).
    erewrite !Template_evaluate_run by done. unfold with_namespace.
    match goal with
    | |- context [Block_evaluate ev t (h1, ?g)] =>
        assert (run_sim (Block_evaluate ev t (h1, g))
                        (Block_evaluate ev t (h2, g))) as Hb
          by (apply Block_evaluate_sim; [done..|congruence]);
        destruct (Block_evaluate ev t (h1, g)) as [[r1 [k1 n1]]|],
                 (Block_evaluate ev t (h2, g)) as [[r2 [k2 n2]]|]
    end; simpl in Hb; try done.
    by destruct Hb as (-> & _ & Hk).
  - unfold Template_evaluate, bind, load. by rewrite Hx1, Hx2.
Qed.

Lemma render_rebound h t namespace kwds r h' :
  render h t namespace kwds = Some (r, h') -> heap_rebound h h'.
Proof.
  intros Hr. eapply preserves_Template_evaluate; [|exact Hr].
  intros x. apply preserves_evaluate.
Qed.

Lemma render_again h t namespace kwds r h' :
  render h t namespace kwds = Some (r, h') ->
  exists h'', render h' t namespace kwds = Some (r, h'').
Proof.
  intros Hr. pose proof (render_rebound _ _ _ _ _ _ Hr) as Hreb.
  pose proof (heap_rebound_sim _ _ Hreb) as Hs.
  unfold render in *. rewrite (heap_rebound_length _ _ Hreb).
  pose proof (Template_evaluate_sim (evaluate (List.length h)) t namespace
                kwds h h' (respects_evaluate _) Hs) as Hsim.
  rewrite Hr in Hsim.
  destruct (Template_evaluate _ t namespace kwds h') as [[r2 k2]|]; [|done].
  destruct Hsim as [<- _]. by exists k2.
Qed.

(** C7: [Template.evaluate] works on a copy of the default namespace
    with the entries of the caller's namespace laid over it, the
    caller's value on a common key; the default namespace itself is as
    before afterwards, and a second call with the same namespace returns
    what the first one returned. *)
Theorem render_overlays_and_repeats
    h t c dflt enc (namespace : gmap string value) :
  h !! t = Some (Template c dflt enc) ->
  render h t (Some namespace) ∅ =
    with_namespace (update dflt namespace)
                   (Block_evaluate (evaluate (List.length h)) t) h
  /\ (forall k v, namespace !! k = Some v ->
                  update dflt namespace !! k = Some v)
  /\ (forall k, namespace !! k = None ->
                update dflt namespace !! k = dflt !! k)
  /\ (forall r h',
        render h t (Some namespace) ∅ = Some (r, h') ->
        h' !! t = Some (Template c dflt enc)
        /\ exists h'', render h' t (Some namespace) ∅ = Some (r, h'')).
Proof.
  intros Ht. split; [|split; [|split]].
  - unfold render. erewrite Template_evaluate_run by done.
    simpl. by rewrite update_empty.
  - intros k v. apply update_lookup_new.
  - intros k. apply update_lookup_old.
  - intros r h' Hr. split; [|by eapply render_again].
    apply render_rebound in Hr.
    destruct (heap_rebound_lookup _ _ _ _ Hr Ht) as (o' & Ho' & Hreb).
    by inversion Hreb; subst.
Qed.

(** C10: the keyword arguments are laid over the namespace after the
    namespace argument, so that on a common key the value of the keyword
    argument is the one the template sees. *)
Theorem render_kwds_override
    h t c dflt enc (namespace : option (gmap string value))
    (kwds : gmap string value) :
  h !! t = Some (Template c dflt enc) ->
  render h t namespace kwds =
    with_namespace (update (update dflt (default ∅ namespace)) kwds)
                   (Block_evaluate (evaluate (List.length h)) t) h
  /\ (forall k v, kwds !! k = Some v ->
        update (update dflt (default ∅ namespace)) kwds !! k = Some v)
  /\ (forall k, kwds !! k = None ->
        update (update dflt (default ∅ namespace)) kwds !! k =
        update dflt (default ∅ namespace) !! k).
Proof.
  intros Ht. repeat split.
  - unfold render. by erewrite Template_evaluate_run.
  - intros k v. apply update_lookup_new.
  - intros k. apply update_lookup_old.
Qed.

End Render.

(** ** The handler *)

Section Handler.
Context `{Evaluator}.

Lemma bind_on_heap_load {X A} l o (f : obj -> M (heap * X) A) (h : heap) x :
  h !! l = Some o ->
  (do o <- on_heap (load l); f o) (h, x) = f o (h, x).
Proof. intros Hl. unfold bind, on_heap, load. by rewrite Hl. Qed.

Lemma bind_on_heap_get {X A} (f : heap -> M (heap * X) A) (h : heap) x :
  (do h0 <- on_heap get; f h0) (h, x) = f h (h, x).
Proof. reflexivity. Qed.

Lemma bind_on_heap_ok {X A B} (m : M heap A) (f : A -> M (heap * X) B)
    (h h1 : heap) a x :
  m h = Some (Ok a, h1) ->
  (do a0 <- on_heap m; f a0) (h, x) = f a (h1, x).
Proof. intros Hm. unfold bind, on_heap. by rewrite Hm. Qed.

Lemma bind_handler_get {A} (f : TemplateHandler -> M _ A) (h : heap) hd :
  (do self <- on_snd get; f self) (h, hd) = f hd (h, hd).
Proof. reflexivity. Qed.

Lemma nodestack_top_run (h : heap) hd node :
  last (nodestack hd) = Some node ->
  nodestack_top (h, hd) = Some (Ok node, (h, hd)).
Proof. intros Hl. unfold nodestack_top. rewrite bind_handler_get. by rewrite Hl. Qed.

Lemma nodestack_pop_run (h : heap) hd node :
  last (nodestack hd) = Some node ->
  nodestack_pop (h, hd) =
    Some (Ok node, (h, {| root := root hd;
                          nodestack := removelast (nodestack hd) |})).
Proof. intros Hl. unfold nodestack_pop. rewrite bind_handler_get. by rewrite Hl. Qed.

Lemma root_encoding_run (h : heap) hd c d enc :
  h !! root hd = Some (Template c d enc) ->
  root_encoding (h, hd) = Some (Ok enc, (h, hd)).
Proof.
  intros Hr. unfold root_encoding. rewrite bind_handler_get.
  by erewrite bind_on_heap_load by eassumption.
Qed.

Lemma set_root_encoding_run (h : heap) hd c d enc encoding :
  h !! root hd = Some (Template c d enc) ->
  set_root_encoding encoding (h, hd) =
    Some (Ok tt, (<[root hd := Template c d (Some encoding)]> h, hd)).
Proof.
  intros Hr. unfold set_root_encoding. rewrite bind_handler_get.
  by erewrite bind_on_heap_load by eassumption.
Qed.

(** The directive of a block tag. *)
Lemma handle_block_end expr tokens :
  Str.split1 expr = "end" :: tokens -> handle_block expr = handle_end.
Proof. intros Hs. unfold handle_block. by rewrite Hs. Qed.

Lemma handle_block_elif expr tokens st :
  Str.split1 expr = "elif" :: tokens ->
  handle_block expr st =
    (do top <- nodestack_top;
     do o <- on_heap (load top);
     match o with
     | IfBlock _ _ _ _ => on_heap (IfBlock_elif_ top (Str.join tokens))
     | _ => raise (TemplateSyntaxError "invalid syntax" None)
     end) st.
Proof. intros Hs. unfold handle_block. by rewrite Hs. Qed.

Lemma handle_block_else expr tokens st :
  Str.split1 expr = "else" :: tokens ->
  handle_block expr st =
    (do top <- nodestack_top;
     do o <- on_heap (load top);
     match o with
     | IfBlock _ _ _ _ => on_heap (IfBlock_else_ top)
     | _ => raise (TemplateSyntaxError "invalid syntax" None)
     end) st.
Proof. intros Hs. unfold handle_block. by rewrite Hs. Qed.

(** C9, as the code has it: [elif] and [else] on an [IfBlock] whose
    [childnodes] is its [elsenodes] raise [TextTemplateError]; on an
    innermost open block of another class they raise
    [TemplateSyntaxError]; the store and the stack stay as they were.
    An [else] on an [IfBlock] that has not had one makes [elsenodes] its
    [childnodes]. *)
Theorem elif_else_errors (h : heap) hd top expr tokens :
  last (nodestack hd) = Some top ->
  Str.split1 expr = "elif" :: tokens \/ Str.split1 expr = "else" :: tokens ->
  (forall codes ifs els,
      h !! top = Some (IfBlock els codes ifs els) ->
      handle_block expr (h, hd) =
        Some (Raise (TextTemplateError "else_() has already been called"),
              (h, hd)))
  /\ (forall o,
      h !! top = Some o ->
      (forall c codes ifs els, o <> IfBlock c codes ifs els) ->
      handle_block expr (h, hd) =
        Some (Raise (TemplateSyntaxError "invalid syntax" None), (h, hd)))
  /\ (forall c codes ifs els,
      h !! top = Some (IfBlock c codes ifs els) -> c <> els ->
      Str.split1 expr = "else" :: tokens ->
      handle_block expr (h, hd) =
        Some (Ok tt, (<[top := IfBlock els codes ifs els]> h, hd))).
Proof.
  intros Htop Hexpr. split; [|split].
  - intros codes ifs els Ho.
    destruct Hexpr as [He|He];
      [rewrite (handle_block_elif _ _ _ He)
      |rewrite (handle_block_else _ _ _ He)];
      unfold bind at 1; rewrite (nodestack_top_run _ _ _ Htop);
      erewrite bind_on_heap_load by eassumption;
      unfold on_heap, IfBlock_elif_, IfBlock_else_, bind, load;
      rewrite Ho, Nat.eqb_refl; done.
  - intros o Ho Hnot.
    destruct Hexpr as [He|He];
      [rewrite (handle_block_elif _ _ _ He)
      |rewrite (handle_block_else _ _ _ He)];
      unfold bind at 1; rewrite (nodestack_top_run _ _ _ Htop);
      erewrite bind_on_heap_load by eassumption;
      destruct o; try done; by edestruct Hnot.
  - intros c codes ifs els Ho Hne He.
    rewrite (handle_block_else _ _ _ He).
    unfold bind at 1; rewrite (nodestack_top_run _ _ _ Htop).
    erewrite bind_on_heap_load by eassumption.
    unfold on_heap, IfBlock_else_, bind, load, store. rewrite Ho.
    by apply Nat.eqb_neq in Hne as ->.
Qed.

End Handler.

(** ** What the handler keeps *)

Section NoRestart.
Context {S : Type}.

Lemma never_restarts_ret {A} (a : A) : never_restarts (@ret S A a).
Proof. intros s s' e [=]. Qed.

Lemma never_restarts_cut {A} : never_restarts (@cut S A).
Proof. intros s s' e [=]. Qed.

Lemma never_restarts_get : never_restarts (@get S).
Proof. intros s s' e [=]. Qed.

Lemma never_restarts_put s0 : never_restarts (@put S s0).
Proof. intros s s' e [=]. Qed.

Lemma never_restarts_lift {A} (r : host A) : never_restarts (@lift S A r).
Proof. intros s s' e. unfold lift. by destruct r. Qed.

Lemma never_restarts_raise {A} e0 :
  (forall e, e0 <> EncodingDetected e) -> never_restarts (@raise S A e0).
Proof. intros He s s' e [= -> _]. by eapply He. Qed.

Lemma never_restarts_bind {A B} (m : M S A) (f : A -> M S B) :
  never_restarts m -> (forall a, never_restarts (f a)) ->
  never_restarts (bind m f).
Proof.
  intros Hm Hf s s' e. unfold bind.
  destruct (m s) as [[[a|e0] s1]|] eqn:E; [apply Hf| |done].
  intros [= -> ->]. by eapply Hm.
Qed.

Lemma never_restarts_mapM {A B} (f : A -> M S B) (l : list A) :
  (forall a, never_restarts (f a)) -> never_restarts (mapM f l).
Proof.
  intros Hf. induction l as [|a l IH]; simpl; [apply never_restarts_ret|].
  apply never_restarts_bind; [done|]. intros b.
  apply never_restarts_bind; [done|]. intros bs. apply never_restarts_ret.
Qed.

End NoRestart.

Lemma never_restarts_on_heap `{Evaluator} {X A} (m : M heap A) :
  never_restarts m -> never_restarts (@on_heap _ X A m).
Proof.
  intros Hm [h x] [h' x'] e. unfold on_heap.
  destruct (m h) as [[r h0]|] eqn:E; [|done].
  intros [= -> <- _]. by eapply Hm.
Qed.

Lemma never_restarts_on_snd `{Evaluator} {X A} (m : M X A) :
  never_restarts m -> never_restarts (@on_snd _ X A m).
Proof.
  intros Hm [h x] [h' x'] e. unfold on_snd.
  destruct (m x) as [[r x0]|] eqn:E; [|done].
  intros [= -> _ <-]. by eapply Hm.
Qed.

Lemma never_restarts_load `{Evaluator} l : never_restarts (load l).
Proof. intros h h' e. unfold load. by destruct (h !! l). Qed.

Lemma never_restarts_store `{Evaluator} l o : never_restarts (store l o).
Proof. intros h h' e [=]. Qed.

Lemma never_restarts_alloc `{Evaluator} o : never_restarts (alloc o).
Proof. intros h h' e [=]. Qed.

(** One step in the proof that a computation never raises
    [EncodingDetected], by the shape of the computation. *)
Ltac quiet_step :=
  match goal with
  | |- never_restarts (bind _ _) => apply never_restarts_bind; [|intros ?]
  | |- never_restarts (ret _) => apply never_restarts_ret
  | |- never_restarts cut => apply never_restarts_cut
  | |- never_restarts get => apply never_restarts_get
  | |- never_restarts (put _) => apply never_restarts_put
  | |- never_restarts (lift _) => apply never_restarts_lift
  | |- never_restarts (raise _) => apply never_restarts_raise; intros ? [=]
  | |- never_restarts (on_heap _) => apply never_restarts_on_heap
  | |- never_restarts (on_snd _) => apply never_restarts_on_snd
  | |- never_restarts (load _) => apply never_restarts_load
  | |- never_restarts (store _ _) => apply never_restarts_store
  | |- never_restarts (alloc _) => apply never_restarts_alloc
  | |- never_restarts (mapM _ _) => apply never_restarts_mapM; intros ?
  | |- never_restarts (match ?x with _ => _ end) => destruct x
  | |- never_restarts (if ?b then _ else _) => destruct b
  end.

Ltac quiet := repeat quiet_step; try done.

Section NoRestartNodes.
Context `{Evaluator}.

Lemma never_restarts_getattr_childnodes self :
  never_restarts (getattr_childnodes self).
Proof. unfold getattr_childnodes. quiet. Qed.

Lemma never_restarts_setattr_childnodes self c :
  never_restarts (setattr_childnodes self c).
Proof. unfold setattr_childnodes. quiet. Qed.

Lemma never_restarts_list_items l : never_restarts (list_items l).
Proof. unfold list_items. quiet. Qed.

Lemma never_restarts_Block_evaluate ev self :
  (forall x, never_restarts (ev x)) -> never_restarts (Block_evaluate ev self).
Proof.
  intros Hev. unfold Block_evaluate. quiet.
  - apply never_restarts_getattr_childnodes.
  - apply never_restarts_list_items.
Qed.

Lemma never_restarts_IfBlock_choose self branches :
  never_restarts (IfBlock_choose self branches).
Proof.
  induction branches as [|[code c] rest IH]; simpl; quiet;
    apply never_restarts_setattr_childnodes.
Qed.

Lemma never_restarts_ForBlock_loop ev self items :
  (forall x, never_restarts (ev x)) ->
  never_restarts (ForBlock_loop ev self items).
Proof.
  intros Hev. induction items as [|b rest IH]; simpl; quiet.
  by apply never_restarts_Block_evaluate.
Qed.

Lemma never_restarts_with_namespace {A} d
    (body : M (heap * gmap string value) A) :
  never_restarts body -> never_restarts (with_namespace d body).
Proof.
  intros Hb h h' e. unfold with_namespace.
  destruct (body (h, d)) as [[r [h0 d0]]|] eqn:E; [|done].
  intros [= -> _]. by eapply Hb.
Qed.

Lemma never_restarts_in_namespace {A} d
    (body : M (heap * gmap string value) A) :
  never_restarts body -> never_restarts (in_namespace d body).
Proof.
  intros Hb h h' e. unfold in_namespace.
  destruct (body (h, d)) as [[[a|e0] [h0 d0]]|] eqn:E; [done| |done].
  intros [= -> _]. by eapply Hb.
Qed.

Lemma never_restarts_evaluate depth x : never_restarts (evaluate depth x).
Proof.
  revert x. induction depth as [|n IH]; intros x; simpl; quiet;
    unfold Variable_evaluate, IfBlock_evaluate, ForBlock_evaluate,
      ExecBlock_evaluate, Template_evaluate; quiet;
    auto using never_restarts_IfBlock_choose, never_restarts_Block_evaluate,
      never_restarts_ForBlock_loop, never_restarts_with_namespace.
Qed.

End NoRestartNodes.

Section Keeps.
Context `{Evaluator}.

#[export] Instance heap_keeps_refl : Reflexive heap_keeps.
Proof. intros h. split; [done|]. intros r c d enc Hr. by exists c, d. Qed.

#[export] Instance heap_keeps_trans : Transitive heap_keeps.
Proof.
  intros h1 h2 h3 [Hl12 H12] [Hl23 H23]. split; [lia|].
  intros r c d enc Hr. destruct (H12 _ _ _ _ Hr) as (c' & d' & Hr').
  by apply H23 in Hr'.
Qed.

#[export] Instance parse_keeps_refl : Reflexive parse_keeps.
Proof. intros [h hd]. split; [done|]. simpl. reflexivity. Qed.

#[export] Instance parse_keeps_trans : Transitive parse_keeps.
Proof.
  intros [h1 hd1] [h2 hd2] [h3 hd3] [Hr12 H12] [Hr23 H23]; simpl in *.
  split; simpl; [congruence|by etransitivity].
Qed.

Lemma heap_rebound_keeps h h' : heap_rebound h h' -> heap_keeps h h'.
Proof.
  intros Hreb. split; [by rewrite (heap_rebound_length _ _ Hreb)|].
  intros r c d enc Hr.
  destruct (heap_rebound_lookup _ _ _ _ Hreb Hr) as (o' & Ho' & Hobj).
  inversion Hobj; subst. by exists c, d.
Qed.

Lemma heap_keeps_alloc (h : heap) o : heap_keeps h (h ++ [o]).
Proof.
  split; [rewrite length_app; lia|].
  intros r c d enc Hr. exists c, d. by apply lookup_app_l_Some.
Qed.

(** Writing over an object that is not a [Template]. *)
Lemma heap_keeps_insert_other (h : heap) l o o' :
  h !! l = Some o ->
  (forall c d enc, o <> Template c d enc) ->
  heap_keeps h (<[l := o']> h).
Proof.
  intros Hl Hno. split; [by rewrite length_insert|].
  intros r c d enc Hr. exists c, d.
  destruct (decide (r = l)) as [->|Hne].
  - rewrite Hl in Hr. injection Hr as ->. by edestruct Hno.
  - by rewrite list_lookup_insert_ne.
Qed.

(** Writing a [Template] with the same encoding over a [Template]. *)
Lemma heap_keeps_insert_template (h : heap) l c d c' d' enc :
  h !! l = Some (Template c d enc) ->
  heap_keeps h (<[l := Template c' d' enc]> h).
Proof.
  intros Hl. split; [by rewrite length_insert|].
  intros r c0 d0 enc0 Hr.
  destruct (decide (r = l)) as [->|Hne].
  - rewrite Hl in Hr. injection Hr as <- <- <-. exists c', d'.
    apply list_lookup_insert_eq. by eapply lookup_lt_Some.
  - exists c0, d0. by rewrite list_lookup_insert_ne.
Qed.

Lemma preserves_alloc o : preserves heap_keeps (alloc o).
Proof. intros h r h' [= _ <-]. apply heap_keeps_alloc. Qed.

Lemma preserves_keeps_load l : preserves heap_keeps (load l).
Proof.
  intros h r h'. unfold load. destruct (h !! l); intros [= _ <-]; reflexivity.
Qed.

Lemma preserves_keeps_list_append l x : preserves heap_keeps (list_append l x).
Proof.
  intros h r h'. unfold list_append, list_items, bind, load, store.
  destruct (h !! l) as [o|] eqn:Hl; [|intros [= _ <-]; reflexivity].
  destruct o; intros [= _ <-]; try reflexivity.
  by eapply heap_keeps_insert_other.
Qed.

Lemma preserves_keeps_getattr_childnodes self :
  preserves heap_keeps (getattr_childnodes self).
Proof.
  intros h r h'. unfold getattr_childnodes, bind, load.
  destruct (h !! self) as [o|]; [|intros [= _ <-]; reflexivity].
  destruct o; intros [= _ <-]; reflexivity.
Qed.

Lemma preserves_keeps_appendchild self x :
  preserves heap_keeps (Block_appendchild self x).
Proof.
  unfold Block_appendchild. apply preserves_bind; try apply _.
  - apply preserves_keeps_getattr_childnodes.
  - intros c. apply preserves_keeps_list_append.
Qed.

Lemma preserves_keeps_elif self expr :
  preserves heap_keeps (IfBlock_elif_ self expr).
Proof.
  intros h r h'. unfold IfBlock_elif_, bind at 1, load.
  destruct (h !! self) as [o|] eqn:Hs; [|intros [= _ <-]; reflexivity].
  destruct o; try (intros [= _ <-]; reflexivity).
  destruct (_ =? _); [intros [= _ <-]; reflexivity|].
  unfold bind, lift, store, alloc.
  destruct (compile_eval _) as [cls|code]; simpl;
    intros [= _ <-]; [reflexivity|].
  match goal with
  | |- heap_keeps _ (<[_ := _]> (?h1 ++ [?o1])) =>
      transitivity h1; [by eapply heap_keeps_insert_other|];
      transitivity (h1 ++ [o1]); [apply heap_keeps_alloc|]
  end.
  eapply heap_keeps_insert_other;
    [apply lookup_app_l_Some, list_lookup_insert_eq; by eapply lookup_lt_Some
    |done].
Qed.

Lemma preserves_keeps_else self : preserves heap_keeps (IfBlock_else_ self).
Proof.
  intros h r h'. unfold IfBlock_else_, bind, load, store.
  destruct (h !! self) as [o|] eqn:Hs; [|intros [= _ <-]; reflexivity].
  destruct o; try (intros [= _ <-]; reflexivity).
  destruct (_ =? _); intros [= _ <-]; [reflexivity|].
  by eapply heap_keeps_insert_other.
Qed.

End Keeps.

(** One step in the proof that a computation keeps a relation between
    the states, by the shape of the computation. *)
Ltac keep_step :=
  match goal with
  | |- preserves _ (bind _ _) =>
      apply preserves_bind; try apply _; [|intros ?]
  | |- preserves _ (ret _) => apply preserves_ret; apply _
  | |- preserves _ (raise _) => apply preserves_raise; apply _
  | |- preserves _ cut => apply preserves_cut
  | |- preserves _ get => apply preserves_get; apply _
  | |- preserves _ (lift _) => apply preserves_lift; apply _
  | |- preserves _ (mapM _ _) => apply preserves_mapM; try apply _; intros ?
  | |- preserves _ (match ?x with _ => _ end) => destruct x
  | |- preserves _ (if ?b then _ else _) => destruct b
  end.

Ltac keep := repeat keep_step; try done.

Section HandlerKeeps.
Context `{Evaluator}.

Lemma preserves_parse_on_heap {A} (m : M heap A) :
  preserves heap_keeps m -> preserves parse_keeps (on_heap m).
Proof.
  intros Hm [h hd] r [h' hd']. unfold on_heap.
  destruct (m h) as [[r0 h0]|] eqn:E; [|done].
  intros [= _ <- <-]. split; [done|]. simpl. eapply Hm, E.
Qed.

Lemma preserves_parse_get : preserves parse_keeps (on_snd get).
Proof. intros [h hd] r [h' hd'] [= _ <- <-]. reflexivity. Qed.

Lemma preserves_nodestack_top : preserves parse_keeps nodestack_top.
Proof. unfold nodestack_top. keep. apply preserves_parse_get. Qed.

Lemma preserves_nodestack_append node :
  preserves parse_keeps (nodestack_append node).
Proof.
  intros [h hd] r [h' hd'] [= _ <- <-]. split; [done|]. simpl. reflexivity.
Qed.

Lemma preserves_nodestack_pop : preserves parse_keeps nodestack_pop.
Proof.
  intros [h hd] r [h' hd']. unfold nodestack_pop. rewrite bind_handler_get.
  destruct (last (nodestack hd)); intros [= _ <- <-]; [|reflexivity].
  split; [done|]. simpl. reflexivity.
Qed.

Lemma never_restarts_nodestack_top : never_restarts nodestack_top.
Proof. unfold nodestack_top. quiet. Qed.

Lemma never_restarts_nodestack_append node :
  never_restarts (nodestack_append node).
Proof. unfold nodestack_append. quiet. Qed.

Lemma never_restarts_nodestack_pop : never_restarts nodestack_pop.
Proof. unfold nodestack_pop. quiet. Qed.

Lemma preserves_keeps_inits :
  (forall data, preserves heap_keeps (Text_init data))
  /\ (forall expr, preserves heap_keeps (Variable_init expr))
  /\ (forall expr, preserves heap_keeps (IfBlock_init expr))
  /\ (forall expr, preserves heap_keeps (ForBlock_init expr))
  /\ preserves heap_keeps ExecBlock_init
  /\ preserves heap_keeps EncodingBlock_init.
Proof.
  unfold Text_init, Variable_init, IfBlock_init, ForBlock_init,
    ExecBlock_init, EncodingBlock_init.
  repeat apply conj; intros; keep; apply preserves_alloc.
Qed.

Lemma never_restarts_inits :
  (forall data, never_restarts (Text_init data))
  /\ (forall expr, never_restarts (Variable_init expr))
  /\ (forall expr, never_restarts (IfBlock_init expr))
  /\ (forall expr, never_restarts (ForBlock_init expr))
  /\ never_restarts ExecBlock_init
  /\ never_restarts EncodingBlock_init.
Proof.
  unfold Text_init, Variable_init, IfBlock_init, ForBlock_init,
    ExecBlock_init, EncodingBlock_init.
  repeat apply conj; intros; quiet.
Qed.

Lemma never_restarts_appendchild self x :
  never_restarts (Block_appendchild self x).
Proof.
  unfold Block_appendchild, list_append. quiet.
  - apply never_restarts_getattr_childnodes.
  - apply never_restarts_list_items.
Qed.

Lemma preserves_open_block init :
  preserves heap_keeps init -> preserves parse_keeps (open_block init).
Proof.
  intros Hi. unfold open_block. keep.
  - by apply preserves_parse_on_heap.
  - apply preserves_nodestack_top.
  - apply preserves_parse_on_heap, preserves_keeps_appendchild.
  - apply preserves_nodestack_append.
Qed.

Lemma never_restarts_open_block init :
  never_restarts init -> never_restarts (open_block init).
Proof.
  intros Hi. unfold open_block. quiet.
  - apply never_restarts_nodestack_top.
  - apply never_restarts_appendchild.
  - apply never_restarts_nodestack_append.
Qed.

Lemma preserves_execute_in_root node :
  preserves parse_keeps (execute_in_root node).
Proof.
  intros [h hd] r [h' hd']. unfold execute_in_root.
  rewrite bind_handler_get. unfold bind at 1, on_heap at 1, load.
  destruct (h !! root hd) as [o|] eqn:Hr; [|intros [= _ <- <-]; reflexivity].
  destruct o; try (intros [= _ <- <-]; reflexivity).
  unfold bind at 1. simpl. unfold bind at 1, on_heap at 1.
  destruct (in_namespace _ _ h) as [[[[u d']|e] h1]|] eqn:E; [| |done].
  2:{ intros [= _ <- <-]. split; [done|]. simpl.
      apply preserves_in_namespace in E.
      - by apply heap_rebound_keeps.
      - unfold ExecBlock_execute. keep.
        + apply preserves_Block_evaluate. intros x. apply preserves_evaluate.
        + apply preserves_on_snd.
        + apply preserves_on_snd. }
  assert (heap_rebound h h1) as Hreb.
  { eapply preserves_in_namespace in E; [done|].
    unfold ExecBlock_execute. keep.
    - apply preserves_Block_evaluate. intros x. apply preserves_evaluate.
    - apply preserves_on_snd.
    - apply preserves_on_snd. }
  destruct (heap_rebound_lookup _ _ _ _ Hreb Hr) as (o' & Ho' & Hobj).
  inversion Hobj; subst.
  unfold bind, on_heap, load, store. rewrite Ho'.
  intros [= _ <- <-]. split; [done|]. simpl.
  etransitivity; [by apply heap_rebound_keeps|].
  by eapply heap_keeps_insert_template.
Qed.

Lemma never_restarts_execute_in_root node :
  never_restarts (execute_in_root node).
Proof.
  unfold execute_in_root. quiet.
  apply never_restarts_in_namespace. unfold ExecBlock_execute. quiet.
  apply never_restarts_Block_evaluate. intros x. apply never_restarts_evaluate.
Qed.

End HandlerKeeps.

(** ** The encoding is detected once *)

Section Steady.
Context {S : Type} (P : S -> Prop) (R : S -> S -> Prop).
Context `{!Reflexive R} `{!Transitive R}.
Context (P_stable : forall s s', P s -> R s s' -> P s').

Lemma steady_from_quiet {A} (m : M S A) :
  preserves R m -> never_restarts m -> steady_from P R m.
Proof.
  intros Hp Hq s r s' _ E. split; [by eapply Hp|].
  intros e ->. by eapply Hq.
Qed.

Lemma steady_from_bind {A B} (m : M S A) (f : A -> M S B) :
  steady_from P R m -> (forall a, steady_from P R (f a)) ->
  steady_from P R (bind m f).
Proof.
  intros Hm Hf s r s' Hs. unfold bind.
  destruct (m s) as [[[a|e0] s1]|] eqn:E; [| |done].
  - intros E'. destruct (Hm _ _ _ Hs E) as [HR _].
    destruct (Hf a _ _ _ (P_stable _ _ Hs HR) E') as [HR' Hne].
    split; [by etransitivity|done].
  - intros [= <- <-]. destruct (Hm _ _ _ Hs E) as [HR Hne].
    split; [done|]. intros e [= ->]. by eapply (Hne e).
Qed.

(** A restart out of [bind m f], when [m] raises none, is raised by
    [f]. *)
Lemma bind_restart_inv {A B} (m : M S A) (f : A -> M S B) s s' e :
  never_restarts m ->
  bind m f s = Some (Raise (EncodingDetected e), s') ->
  exists a s1, m s = Some (Ok a, s1)
               /\ f a s1 = Some (Raise (EncodingDetected e), s').
Proof.
  intros Hm. unfold bind.
  destruct (m s) as [[[a|e0] s1]|] eqn:E; [by eauto| |done].
  intros [= -> ->]. by apply Hm in E.
Qed.

End Steady.

Section Encoding.
Context `{Evaluator}.

Lemma encoding_set_stable (s s' : heap * TemplateHandler) :
  encoding_set s -> parse_keeps s s' -> encoding_set s'.
Proof.
  intros (c & d & e & Hr & He) [Hroot [_ Hk]].
  destruct (Hk _ _ _ _ Hr) as (c' & d' & Hr').
  exists c', d', e. by rewrite <- Hroot.
Qed.

Lemma encoding_set_truth e : e <> "" -> encoding_truth (Some e) = true.
Proof.
  intros He. simpl. apply negb_true_iff. by apply String.eqb_neq.
Qed.

(** An [end] while the root has its encoding: no restart. *)
Lemma steady_handle_end : steady_from encoding_set parse_keeps handle_end.
Proof.
  unfold handle_end.
  apply steady_from_bind; try apply _; [apply encoding_set_stable|..].
  { apply steady_from_quiet;
      [apply preserves_nodestack_pop|apply never_restarts_nodestack_pop]. }
  intros node.
  apply steady_from_bind; try apply _; [apply encoding_set_stable|..].
  { apply steady_from_quiet.
    - apply preserves_parse_on_heap, preserves_keeps_load.
    - quiet. }
  intros o.
  apply steady_from_bind; try apply _; [apply encoding_set_stable|..].
  { apply steady_from_quiet.
    - destruct o; keep; apply preserves_execute_in_root.
    - destruct o; quiet; apply never_restarts_execute_in_root. }
  intros _. destruct o;
    try solve [apply steady_from_quiet; [keep|quiet]].
  intros [h hd] r s' (c & d & e & Hr & He). simpl in Hr.
  unfold bind. erewrite root_encoding_run by done.
  rewrite encoding_set_truth by done. simpl.
  intros [= <- <-]. split; [reflexivity|done].
Qed.

(** Every token is handled by [handle_end], or by code that keeps the
    encoding of the root and raises no restart. *)
Lemma handle_block_cases expr :
  handle_block expr = handle_end
  \/ (preserves parse_keeps (handle_block expr)
      /\ never_restarts (handle_block expr)).
Proof.
  pose proof preserves_keeps_inits as (Ht & Hv & Hi & Hf & Hx & He).
  pose proof never_restarts_inits as (Qt & Qv & Qi & Qf & Qx & Qe).
  unfold handle_block.
  destruct (Str.split1 expr) as [|tagname tokens].
  { right. split; [keep|quiet]. }
  destruct (String.eqb tagname "end"); [by left|right].
  repeat match goal with
         | |- _ /\ never_restarts (if ?b then _ else _) => destruct b
         end;
    (split;
     [try (apply preserves_open_block; done)
     |try (apply never_restarts_open_block; done)]).
  - keep; [apply preserves_nodestack_top
          |apply preserves_parse_on_heap, preserves_keeps_load
          |apply preserves_parse_on_heap, preserves_keeps_elif].
  - quiet; [apply never_restarts_nodestack_top|].
    unfold IfBlock_elif_. quiet.
  - keep; [apply preserves_nodestack_top
          |apply preserves_parse_on_heap, preserves_keeps_load
          |apply preserves_parse_on_heap, preserves_keeps_else].
  - quiet; [apply never_restarts_nodestack_top|].
    unfold IfBlock_else_. quiet.
  - keep.
  - quiet.
Qed.

Lemma handle_cases name expr :
  handle name expr = handle_end
  \/ (preserves parse_keeps (handle name expr)
      /\ never_restarts (handle name expr)).
Proof.
  pose proof preserves_keeps_inits as (Ht & Hv & Hi & Hf & Hx & He).
  pose proof never_restarts_inits as (Qt & Qv & Qi & Qf & Qx & Qe).
  unfold handle.
  destruct (String.eqb name "block"); [apply handle_block_cases|right].
  repeat match goal with
         | |- _ /\ never_restarts (if ?b then _ else _) => destruct b
         end;
    split; unfold handle_variable, handle_comment, handle_text.
  - keep; [apply preserves_nodestack_top
          |by apply preserves_parse_on_heap
          |apply preserves_parse_on_heap, preserves_keeps_appendchild].
  - quiet; [apply never_restarts_nodestack_top
           |apply never_restarts_appendchild].
  - keep.
  - quiet.
  - keep; [apply preserves_nodestack_top
          |by apply preserves_parse_on_heap
          |apply preserves_parse_on_heap, preserves_keeps_appendchild].
  - quiet; [apply never_restarts_nodestack_top
           |apply never_restarts_appendchild].
  - keep.
  - quiet.
Qed.

(** No token restarts the parse once the root has its encoding; the
    encoding stays what it is. *)
Lemma steady_handle name expr :
  steady_from encoding_set parse_keeps (handle name expr).
Proof.
  destruct (handle_cases name expr) as [->|[Hp Hq]].
  - apply steady_handle_end.
  - by apply steady_from_quiet.
Qed.

(** A restart is raised with its encoding stored in the root. *)
Lemma handle_restart_sets name expr st st' e :
  handle name expr st = Some (Raise (EncodingDetected e), st') ->
  exists c d, st'.1 !! root st'.2 = Some (Template c d (Some e)).
Proof.
  destruct (handle_cases name expr) as [->|[_ Hq]]; [|intros E; by apply Hq in E].
  unfold handle_end. intros E.
  apply bind_restart_inv in E as (node & s1 & _ & E);
    [|apply never_restarts_nodestack_pop].
  apply bind_restart_inv in E as (o & s2 & _ & E); [|quiet].
  apply bind_restart_inv in E as (u & s3 & _ & E);
    [|destruct o; quiet; apply never_restarts_execute_in_root].
  destruct o; try done.
  apply bind_restart_inv in E as (enc & s4 & _ & E);
    [|unfold root_encoding; quiet].
  destruct (negb (encoding_truth enc)); [|done].
  unfold detect_encoding in E.
  apply bind_restart_inv in E as (h & s5 & _ & E); [|quiet].
  apply bind_restart_inv in E as (text & s6 & _ & E);
    [|quiet; apply never_restarts_with_namespace, never_restarts_evaluate].
  destruct s6 as [h6 hd6]. unfold bind at 1, set_root_encoding in E.
  rewrite bind_handler_get in E. unfold bind at 1, on_heap at 1, load in E.
  destruct (h6 !! root hd6) as [o|] eqn:Hr; [|done].
  destruct o; try done. simpl in E. injection E as <- <-. simpl.
  eexists _, _. apply list_lookup_insert_eq. by eapply lookup_lt_Some.
Qed.

(** Once the root has its encoding, the rest of the parse does not
    depend on what a restart would do, and ends with the same encoding
    in the root. *)
Lemma parse_loop_set again again' data tokens st :
  encoding_set st ->
  parse_loop again data tokens st = parse_loop again' data tokens st
  /\ forall r st',
       parse_loop again data tokens st = Some (r, st') -> parse_keeps st st'.
Proof.
  revert st. induction tokens as [[[[name start] end_] expr] rest IH| | |];
    intros st Hset; simpl; try (split; [done|]).
  - pose proof (steady_handle name expr st) as Hh.
    destruct (handle name expr st) as [[[u|e] st1]|] eqn:E; [| |done].
    + destruct (Hh _ _ Hset eq_refl) as [Hk _].
      destruct (IH st1 (encoding_set_stable _ _ Hset Hk)) as [IH1 IH2].
      split; [done|]. intros r st' E'. etransitivity; [done|by eapply IH2].
    + destruct (Hh _ _ Hset eq_refl) as [Hk Hne].
      destruct e; try by edestruct Hne.
      all: split; [done|]; by intros r st' [= <- <-].
  - intros r st' [= _ <-]. reflexivity.
  - intros r st' [= _ <-]. reflexivity.
  - done.
Qed.

(** C6, the bound: with a [decode] that knows no codec of the empty
    name, a [parse] is nested in a [parse] at most once. *)
Lemma parse_two_calls n data pos st :
  decode_rejects_empty ->
  parse (2 + n) data pos st = parse 2 data pos st.
Proof.
  intros Hdec. simpl. generalize (tokenize data pos) as tokens.
  intros tokens. revert st.
  induction tokens as [[[[name start] end_] expr] rest IH| | |];
    intros st; simpl; try done.
  destruct (handle name expr st) as [[[u|e] st1]|] eqn:E; [done| |done].
  destruct e; try done.
  destruct (handle_restart_sets _ _ _ _ _ E) as (c & d & Hr).
  destruct (decide (encoding = "")) as [->|Hne].
  - destruct (Hdec (Str.slice data 0 end_)) as [cls Hcls].
    unfold bind at 1 3, lift. by rewrite Hcls.
  - unfold bind at 1 3, lift.
    destruct (decode (Str.slice data 0 end_) encoding); [done|]. simpl.
    unfold bind.
    destruct (decode (Str.slice_from data end_) encoding); [done|]. simpl.
    apply parse_loop_set. destruct st1 as [h1 hd1]. by exists c, d, encoding.
Qed.

End Encoding.

(** ** Closing a block *)

Section Closing.
Context `{Evaluator}.

Lemma with_namespace_rebound {A} d (body : M _ A) h r h' :
  preserves eval_rebound body ->
  with_namespace d body h = Some (r, h') -> heap_rebound h h'.
Proof. intros Hb E. by eapply preserves_with_namespace. Qed.

(** The first [EncodingBlock] that is closed: its text, stripped, becomes
    the encoding of the root and the restart is raised. *)
Lemma handle_end_encoding_first (h : heap) hd node c rc d enc text h1 :
  last (nodestack hd) = Some node ->
  h !! node = Some (EncodingBlock c) ->
  h !! root hd = Some (Template rc d enc) ->
  encoding_truth enc = false ->
  with_namespace ∅ (evaluate (List.length h) node) h = Some (Ok text, h1) ->
  handle_end (h, hd) =
    Some (Raise (EncodingDetected (Str.strip text)),
          (<[root hd := Template rc d (Some (Str.strip text))]> h1,
           {| root := root hd; nodestack := removelast (nodestack hd) |})).
Proof.
  intros Hlast Hnode Hroot Htruth Hrun. unfold handle_end.
  unfold bind at 1. rewrite (nodestack_pop_run _ _ _ Hlast).
  erewrite bind_on_heap_load by eassumption. cbn beta iota.
  unfold bind at 1, ret at 1. unfold bind at 1.
  erewrite root_encoding_run by eassumption. rewrite Htruth.
  change (negb false) with true. cbv iota. unfold detect_encoding.
  rewrite bind_on_heap_get. erewrite bind_on_heap_ok by exact Hrun.
  assert (heap_rebound h h1) as Hreb.
  { eapply with_namespace_rebound; [|exact Hrun]. apply preserves_evaluate. }
  destruct (heap_rebound_lookup _ _ _ _ Hreb Hroot) as (o' & Ho' & Hobj).
  inversion Hobj; subst.
  unfold bind. by erewrite set_root_encoding_run by eassumption.
Qed.

(** A later [EncodingBlock]: closing it changes neither the store nor
    the encoding, and raises nothing. *)
Lemma handle_end_encoding_later (h : heap) hd node c rc d e :
  last (nodestack hd) = Some node ->
  h !! node = Some (EncodingBlock c) ->
  h !! root hd = Some (Template rc d (Some e)) ->
  e <> "" ->
  handle_end (h, hd) =
    Some (Ok tt,
          (h, {| root := root hd; nodestack := removelast (nodestack hd) |})).
Proof.
  intros Hlast Hnode Hroot He. unfold handle_end.
  unfold bind at 1. rewrite (nodestack_pop_run _ _ _ Hlast).
  erewrite bind_on_heap_load by eassumption. cbn beta iota.
  unfold bind at 1, ret at 1. unfold bind at 1.
  erewrite root_encoding_run by eassumption.
  by rewrite encoding_set_truth.
Qed.

(** Closing an [ExecBlock]: the text of its body is executed in the
    namespace of the root, there and then. *)
Lemma handle_end_exec (h : heap) hd node c rc d enc source h1 d1 d2 :
  last (nodestack hd) = Some node ->
  h !! node = Some (ExecBlock c) ->
  h !! root hd = Some (Template rc d enc) ->
  Block_evaluate (evaluate (List.length h)) node (h, d)
    = Some (Ok source, (h1, d1)) ->
  exec source d1 = inr d2 ->
  handle_end (h, hd) =
    Some (Ok tt,
          (<[root hd := Template rc d2 enc]> h1,
           {| root := root hd; nodestack := removelast (nodestack hd) |})).
Proof.
  intros Hlast Hnode Hroot Hrun Hexec. unfold handle_end.
  unfold bind at 1. rewrite (nodestack_pop_run _ _ _ Hlast).
  erewrite bind_on_heap_load by eassumption. cbn beta iota.
  assert (heap_rebound h h1) as Hreb.
  { by eapply (preserves_Block_evaluate _ _ (preserves_evaluate _)
                 (h, d) _ (h1, d1)). }
  destruct (heap_rebound_lookup _ _ _ _ Hreb Hroot) as (o' & Ho' & Hobj).
  inversion Hobj; subst.
  assert (in_namespace d (ExecBlock_execute (evaluate (List.length h)) node) h
          = Some (Ok (tt, d2), h1)) as Hin.
  { unfold in_namespace, ExecBlock_execute. unfold bind at 1. rewrite Hrun.
    rewrite bind_get_snd. unfold bind at 1, lift. by rewrite Hexec. }
  unfold bind at 1, execute_in_root. rewrite bind_handler_get. simpl root.
  erewrite bind_on_heap_load by eassumption. cbn beta iota.
  rewrite bind_on_heap_get. erewrite bind_on_heap_ok by exact Hin.
  cbn beta iota zeta. erewrite bind_on_heap_load by eassumption. done.
Qed.

End Closing.

(** ** [ForBlock.evaluate] and [ExecBlock.evaluate] *)

Section Loop.
Context `{Evaluator}.

Lemma ExecBlock_evaluate_empty n x c (h : heap) (d : gmap string value) :
  h !! x = Some (ExecBlock c) ->
  evaluate (S n) x (h, d) = Some (Ok "", (h, d)).
Proof. intros Hx. by rewrite (evaluate_run _ _ _ _ _ Hx). Qed.

Lemma ForBlock_loop_nil ev x s : ForBlock_loop ev x [] s = Some (Ok [], s).
Proof. reflexivity. Qed.

Lemma ForBlock_loop_cons ev x b rest (h : heap) d :
  ForBlock_loop ev x (b :: rest) (h, d) =
    (do r <- Block_evaluate ev x;
     do results <- ForBlock_loop ev x rest;
     ret (r :: results)) (h, update d b).
Proof. reflexivity. Qed.

Lemma Variable_evaluate_state code s r s' :
  Variable_evaluate code s = Some (r, s') -> s' = s.
Proof.
  destruct s as [h d]. unfold Variable_evaluate. rewrite bind_get_snd.
  unfold bind at 1, lift at 1.
  destruct (eval code d) as [cls|v]; simpl; [by intros [= _ <-]|].
  destruct (d !! "__escape__") as [esc|]; [|by intros [= _ <-]].
  destruct (truth esc); [|by intros [= _ <-]].
  destruct (nonescape_value v); [by intros [= _ <-]|].
  unfold bind, lift. destruct (unicode v); simpl; by intros [= _ <-].
Qed.

Lemma evaluate_inert n x o (h : heap) d r s' :
  h !! x = Some o -> inert o ->
  evaluate n x (h, d) = Some (r, s') -> s' = (h, d).
Proof.
  intros Hx Hi. destruct n as [|n]; [done|].
  rewrite (evaluate_run _ _ _ _ _ Hx). destruct o; try done.
  - by intros [= _ <-].
  - apply Variable_evaluate_state.
  - by intros [= _ <-].
Qed.

Lemma mapM_inert n items (h : heap) d r s' :
  Forall (fun l => exists o, h !! l = Some o /\ inert o) items ->
  mapM (evaluate n) items (h, d) = Some (r, s') -> s' = (h, d).
Proof.
  intros Hall. revert r s'.
  induction Hall as [|l items (o & Hl & Hi) _ IH];
    intros r s'; simpl; [by intros [= _ <-]|].
  unfold bind at 1.
  destruct (evaluate n l (h, d)) as [[[a|e] s1]|] eqn:E; [| |done];
    apply (evaluate_inert _ _ _ _ _ _ _ Hl Hi) in E as ->;
    [|by intros [= _ <-]].
  unfold bind at 1.
  destruct (mapM (evaluate n) items (h, d)) as [[[bs|e] s2]|]; [| |done];
    rewrite (IH _ _ eq_refl); by intros [= _ <-].
Qed.

Lemma Block_evaluate_inert n x c items (h : heap) d r s' :
  getattr_childnodes x h = Some (Ok c, h) ->
  h !! c = Some (PyList items) ->
  Forall (fun l => exists o, h !! l = Some o /\ inert o) items ->
  Block_evaluate (evaluate n) x (h, d) = Some (r, s') -> s' = (h, d).
Proof.
  intros Hc Hitems Hall. erewrite Block_evaluate_body by done.
  unfold bind.
  destruct (mapM (evaluate n) items (h, d)) as [[[bs|e] s2]|] eqn:E;
    [| |done]; apply mapM_inert in E as ->; try done; by intros [= _ <-].
Qed.

(** A loop over a body of inert nodes: the namespace afterwards is the
    one before with the binding sets merged in, in their order, and
    there is one result for each of them. *)
Lemma ForBlock_loop_inert n x c code items bsets (h : heap) d results s' :
  h !! x = Some (ForBlock c code) ->
  h !! c = Some (PyList items) ->
  Forall (fun l => exists o, h !! l = Some o /\ inert o) items ->
  ForBlock_loop (evaluate n) x bsets (h, d) = Some (Ok results, s') ->
  s' = (h, merged d bsets) /\ List.length results = List.length bsets.
Proof.
  intros Hx Hc Hall. revert d results s'.
  induction bsets as [|b rest IH]; intros d results s'.
  { by intros [= <- <-]. }
  rewrite ForBlock_loop_cons. unfold bind at 1.
  destruct (Block_evaluate _ x _) as [[[r|e] s1]|] eqn:E; [|done..].
  eapply Block_evaluate_inert in E as ->; try done.
  2:{ unfold getattr_childnodes, bind, load. by rewrite Hx. }
  unfold bind at 1.
  destruct (ForBlock_loop _ x rest _) as [[[rs|e] s2]|] eqn:E2; [|done..].
  apply IH in E2 as [-> Hlen]. intros [= <- <-]. simpl. by rewrite Hlen.
Qed.

Lemma merged_last (d : gmap string value) pre b k v :
  b !! k = Some v -> merged d (pre ++ [b]) !! k = Some v.
Proof.
  intros Hk. unfold merged. rewrite foldl_app. simpl.
  by apply update_lookup_new.
Qed.

End Loop.

(** ** The tokenizer *)

Section Tokenizer.

Lemma index_ge n s1 s2 m : String.index n s1 s2 = Some m -> n <= m.
Proof.
  revert n m. induction s2 as [|c s2 IH]; intros n m; simpl.
  - destruct n; [|done]. destruct s1; [|done]. intros [= <-]. lia.
  - destruct n as [|n]; [lia|].
    destruct (String.index n s1 s2) as [m0|] eqn:E; [|done].
    intros [= <-]. apply IH in E. lia.
Qed.

Lemma substring_all s : String.substring 0 (String.length s) s = s.
Proof. induction s as [|c s IH]; simpl; [done|by rewrite IH]. Qed.

Lemma substring_empty n k : String.substring n k "" = "".
Proof. by destruct n, k. Qed.

(** An occurrence of [s1] in [s2] at [m] is a prefix of [s2[m:]]. *)
Lemma occurrence_prefix s1 s2 m :
  String.substring m (String.length s1) s2 = s1 ->
  String.prefix s1 (String.substring m (String.length s2 - m) s2) = true.
Proof.
  revert m. induction s2 as [|c s2 IH]; intros m Hm.
  - rewrite substring_empty in *. subst s1. done.
  - destruct m as [|m].
    + rewrite Nat.sub_0_r, substring_all. by apply String.prefix_correct.
    + simpl. by apply IH.
Qed.

Lemma index_startswith data sub pos :
  Str.index data sub pos = Some pos -> Str.startswith data sub pos = true.
Proof.
  intros Hi. apply String.index_correct1 in Hi. by apply occurrence_prefix.
Qed.

(** A token ends after the place where it starts. *)
Lemma next_token_forward data pos name start next expr :
  pos < Str.len data ->
  next_token data pos = Ok (name, start, next, expr) ->
  pos < next.
Proof.
  intros Hpos. unfold next_token, tagset. simpl.
  destruct (Str.startswith data "{%" pos) eqn:S1.
  { destruct (Str.index data "%}" pos) as [i|] eqn:I; [|done].
    apply index_ge in I. intros [= _ _ <- _]. simpl. lia. }
  destruct (Str.startswith data "{{" pos) eqn:S2.
  { destruct (Str.index data "}}" pos) as [i|] eqn:I; [|done].
    apply index_ge in I. intros [= _ _ <- _]. simpl. lia. }
  destruct (Str.startswith data "{#" pos) eqn:S3.
  { destruct (Str.index data "#}" pos) as [i|] eqn:I; [|done].
    apply index_ge in I. intros [= _ _ <- _]. simpl. lia. }
  unfold rx_stags_search. simpl.
  assert (forall sub i, Str.startswith data sub pos = false ->
            Str.index data sub pos = Some i -> pos < i) as Hlt.
  { intros sub i Hs Hi. pose proof (index_ge _ _ _ _ Hi).
    destruct (decide (i = pos)) as [->|]; [|lia].
    apply index_startswith in Hi. congruence. }
  destruct (Str.index data "{%" pos) as [i1|] eqn:I1;
    destruct (Str.index data "{{" pos) as [i2|] eqn:I2;
    destruct (Str.index data "{#" pos) as [i3|] eqn:I3; simpl;
    intros [= _ _ <- _];
    repeat match goal with
           | Hi : Str.index data _ pos = Some _ |- _ =>
               apply Hlt in Hi; [|done]
           end; lia.
Qed.

Lemma tokenize_loop_complete turns data pos :
  Str.len data - pos <= turns -> complete (tokenize_loop turns data pos).
Proof.
  revert pos. induction turns as [|turns IH]; intros pos Hle; simpl.
  - destruct (pos <? Str.len data) eqn:E; [|done].
    apply Nat.ltb_lt in E. lia.
  - destruct (pos <? Str.len data) eqn:E; [|done].
    apply Nat.ltb_lt in E.
    destruct (next_token data pos) as [[[[name start] next] expr]|e] eqn:T;
      [|done].
    simpl. apply IH. apply next_token_forward in T; [lia|done].
Qed.

(** The bound on the turns of the loop of [tokenize] is never reached. *)
Lemma tokenize_never_pending data pos : complete (tokenize data pos).
Proof. by apply tokenize_loop_complete. Qed.

(** Where the search for [sub] starts does not matter up to the
    occurrence that is found. *)
Lemma index_from_later data sub pos k i :
  sub <> "" ->
  Str.index data sub pos = Some i -> pos <= k <= i ->
  Str.index data sub k = Some i.
Proof.
  unfold Str.index. intros Hsub Hi [Hk1 Hk2].
  pose proof (String.index_correct1 _ _ _ _ Hi) as Hocc.
  destruct (String.index k sub data) as [j|] eqn:Hj.
  - pose proof (index_ge _ _ _ _ Hj) as Hkj.
    pose proof (String.index_correct1 _ _ _ _ Hj) as Hoccj.
    destruct (Nat.lt_trichotomy i j) as [Hlt|[->|Hgt]]; [|done|].
    + by destruct (String.index_correct2 _ _ _ _ Hj i).
    + destruct (String.index_correct2 _ _ _ _ Hi j); [lia|done..].
  - by destruct (String.index_correct3 k i _ _ Hj).
Qed.

Lemma index_none_later data sub pos k :
  sub <> "" ->
  Str.index data sub pos = None -> pos <= k ->
  Str.index data sub k = None.
Proof.
  unfold Str.index. intros Hsub Hi Hk.
  destruct (String.index k sub data) as [j|] eqn:Hj; [|done].
  pose proof (index_ge _ _ _ _ Hj) as Hkj.
  pose proof (String.index_correct1 _ _ _ _ Hj) as Hoccj.
  destruct (String.index_correct3 pos j _ _ Hi); [done|lia|done].
Qed.

(** The two characters of a marker that opens at [pos]. *)
Lemma startswith_chars data a b pos :
  Str.startswith data (String a (String b "")) pos = true ->
  exists r, Str.slice_from data pos = String a (String b r).
Proof.
  unfold Str.startswith.
  destruct (Str.slice_from data pos) as [|x [|y r]]; simpl; try done.
  - by destruct (Ascii.ascii_dec a x).
  - destruct (Ascii.ascii_dec a x) as [->|]; [|done].
    destruct (Ascii.ascii_dec b y) as [->|]; [|done]. by exists r.
Qed.

(** What [tokenize] yields where a marker opens: the search for the
    closing marker starts at [pos], the first character of the opening
    marker. *)
Lemma next_token_at_marker name stag etag data pos :
  (name, stag, etag) ∈ tagset ->
  Str.startswith data stag pos = true ->
  next_token data pos =
    match Str.index data etag pos with
    | Some i =>
        Ok (name, pos, i + 2, Str.strip (Str.slice data (pos + 2) i))
    | None => Raise (TemplateSyntaxError "invalid syntax" (Some (Str.len data)))
    end.
Proof.
  unfold tagset. intros Hin Hs.
  apply list_elem_of_In in Hin. simpl in Hin.
  unfold next_token, tagset. simpl.
  destruct Hin as [[= <- <- <-]|[[= <- <- <-]|[[= <- <- <-]|[]]]].
  - rewrite Hs. destruct (Str.index data "%}" pos); [|done].
    simpl. by rewrite Nat.add_sub.
  - destruct (startswith_chars _ _ _ _ Hs) as [r Hr].
    unfold Str.startswith at 1. rewrite Hr. simpl. rewrite Hs.
    destruct (Str.index data "}}" pos); [|done].
    simpl. by rewrite Nat.add_sub.
  - destruct (startswith_chars _ _ _ _ Hs) as [r Hr].
    unfold Str.startswith at 1 2. rewrite Hr. simpl. rewrite Hs.
    destruct (Str.index data "#}" pos); [|done].
    simpl. by rewrite Nat.add_sub.
Qed.

(** Unless the closing marker starts on the second character of the
    opening marker, the token is the one between the opening marker and
    the first closing marker after it. *)
Lemma next_token_without_overlap name stag etag data pos :
  (name, stag, etag) ∈ tagset ->
  Str.startswith data stag pos = true ->
  Str.index data etag pos <> Some (pos + 1) ->
  next_token data pos =
    match Str.index data etag (pos + Str.len stag) with
    | Some i =>
        Ok (name, pos, i + Str.len etag,
            Str.strip (Str.slice data (pos + Str.len stag) i))
    | None => Raise (TemplateSyntaxError "invalid syntax" (Some (Str.len data)))
    end.
Proof.
  intros Hin Hs Hno. rewrite (next_token_at_marker _ _ _ _ _ Hin Hs).
  assert (Str.len stag = 2 /\ Str.len etag = 2 /\ etag <> ""
          /\ Str.startswith data etag pos = false) as (-> & -> & Hne & Hdiff).
  { unfold tagset in Hin. apply list_elem_of_In in Hin. simpl in Hin.
    destruct Hin as [[= <- <- <-]|[[= <- <- <-]|[[= <- <- <-]|[]]]];
      (repeat split; [done|]);
      destruct (startswith_chars _ _ _ _ Hs) as [r Hr];
      unfold Str.startswith; by rewrite Hr. }
  destruct (Str.index data etag pos) as [i|] eqn:Hi.
  - pose proof (index_ge _ _ _ _ Hi) as Hge.
    assert (i <> pos).
    { intros ->. apply index_startswith in Hi. congruence. }
    assert (i <> pos + 1) by congruence.
    rewrite (index_from_later _ _ pos (pos + 2) i Hne Hi); [done|lia].
  - rewrite (index_none_later _ _ pos (pos + 2) Hne Hi); [done|lia].
Qed.

End Tokenizer.

(** ** The tokens of a text *)

Section Tokens.

Lemma prefix_occurrence s1 s2 m :
  String.prefix s1 (String.substring m (String.length s2 - m) s2) = true ->
  String.substring m (String.length s1) s2 = s1.
Proof.
  revert m. induction s2 as [|c s2 IH]; intros m Hm.
  - rewrite substring_empty in *. by destruct s1.
  - destruct m as [|m].
    + rewrite Nat.sub_0_r, substring_all in Hm.
      by apply String.prefix_correct.
    + simpl in *. by apply IH.
Qed.

Lemma length_substring_le m n s :
  String.length (String.substring m n s) <= String.length s - m.
Proof.
  revert m n. induction s as [|c s IH]; intros m n.
  - by rewrite substring_empty.
  - destruct m as [|m]; simpl.
    + destruct n as [|n]; simpl; [lia|]. specialize (IH 0 n). lia.
    + apply IH.
Qed.

(** An occurrence of a marker lies inside the text. *)
Lemma occurrence_inside s1 s2 m :
  s1 <> "" -> String.substring m (String.length s1) s2 = s1 ->
  m + String.length s1 <= String.length s2.
Proof.
  intros Hne Hocc.
  pose proof (length_substring_le m (String.length s1) s2) as Hle.
  rewrite Hocc in Hle. destruct s1; [done|]. simpl in *. lia.
Qed.

(** [data.index(sub, pos)] finds the first place from [pos] on where
    [data.startswith(sub, ...)] holds. *)
Lemma index_first data sub pos :
  sub <> "" ->
  first_at (Str.startswith data sub) pos (Str.index data sub pos).
Proof.
  intros Hne. unfold Str.index, first_at.
  destruct (String.index pos sub data) as [m|] eqn:Hi.
  - split; [by eapply index_ge|]. split.
    + apply occurrence_prefix. by eapply String.index_correct1.
    + intros p [Hp1 Hp2].
      destruct (Str.startswith data sub p) eqn:Hs; [|done].
      apply prefix_occurrence in Hs.
      by destruct (String.index_correct2 _ _ _ _ Hi p).
  - intros p Hp. destruct (Str.startswith data sub p) eqn:Hs; [|done].
    apply prefix_occurrence in Hs.
    by destruct (String.index_correct3 pos p _ _ Hi).
Qed.

Lemma first_at_min P Q pos a b :
  first_at P pos a -> first_at Q pos b ->
  first_at (fun p => P p || Q p) pos (min_opt a b).
Proof.
  destruct a as [x|], b as [y|]; simpl.
  - intros (Hx1 & Hx2 & Hx3) (Hy1 & Hy2 & Hy3).
    destruct (Nat.min_spec x y) as [[Hlt ->]|[Hle ->]].
    + split; [done|]. split; [by rewrite Hx2|].
      intros p Hp. rewrite Hx3, Hy3 by lia. done.
    + split; [done|]. split; [rewrite Hy2; by destruct (P y)|].
      intros p Hp. rewrite Hx3, Hy3 by lia. done.
  - intros (Hx1 & Hx2 & Hx3) Hy. split; [done|]. split; [by rewrite Hx2|].
    intros p Hp. rewrite Hx3, Hy by lia. done.
  - intros Hx (Hy1 & Hy2 & Hy3). split; [done|].
    split; [rewrite Hy2; by destruct (P y)|].
    intros p Hp. rewrite Hx, Hy3 by lia. done.
  - intros Hx Hy p Hp. by rewrite Hx, Hy.
Qed.

(** [rx_stags.search(data, pos)] finds the first place from [pos] on
    where a marker opens. *)
Lemma rx_stags_search_first data pos :
  first_at (opens data) pos (rx_stags_search data pos).
Proof.
  unfold rx_stags_search, opens, tagset. simpl.
  repeat (apply first_at_min; [by apply index_first|]).
  by intros p _.
Qed.

Lemma scan_tagset_opens data pos :
  opens data pos = false -> scan_tagset tagset data pos = None.
Proof.
  unfold opens, tagset. simpl. intros Ho.
  repeat (apply orb_false_elim in Ho as [-> Ho]). done.
Qed.

Lemma rx_stags_search_le data pos m :
  rx_stags_search data pos = Some m -> m <= Str.len data.
Proof.
  intros Hm. pose proof (rx_stags_search_first data pos) as Hf.
  rewrite Hm in Hf. destruct Hf as (_ & Ho & _).
  unfold opens, tagset in Ho. simpl in Ho.
  assert (forall sub, sub <> "" -> Str.startswith data sub m = true ->
            m <= Str.len data) as Hin.
  { intros sub Hne Hs. apply prefix_occurrence in Hs.
    apply occurrence_inside in Hs; [|done]. unfold Str.len. lia. }
  repeat (apply orb_prop in Ho as [Ho|Ho]; [refine (Hin _ _ Ho); done|]).
  done.
Qed.

(** A token ends inside the text. *)
Lemma next_token_inside data pos name start next expr :
  pos <= Str.len data ->
  next_token data pos = Ok (name, start, next, expr) ->
  start = pos /\ next <= Str.len data.
Proof.
  intros Hpos.
  assert (forall etag i, etag <> "" -> Str.len etag = 2 ->
            Str.index data etag pos = Some i -> i + 2 <= Str.len data)
    as Hin.
  { intros etag i Hne Hlen Hi. apply String.index_correct1 in Hi.
    apply occurrence_inside in Hi; [|done]. unfold Str.len in *. lia. }
  unfold next_token, tagset. simpl.
  destruct (Str.startswith data "{%" pos).
  { destruct (Str.index data "%}" pos) as [i|] eqn:I; [|done].
    intros [= _ <- <- _]. split; [done|]. by refine (Hin _ _ _ _ I). }
  destruct (Str.startswith data "{{" pos).
  { destruct (Str.index data "}}" pos) as [i|] eqn:I; [|done].
    intros [= _ <- <- _]. split; [done|]. by refine (Hin _ _ _ _ I). }
  destruct (Str.startswith data "{#" pos).
  { destruct (Str.index data "#}" pos) as [i|] eqn:I; [|done].
    intros [= _ <- <- _]. split; [done|]. by refine (Hin _ _ _ _ I). }
  destruct (rx_stags_search data pos) as [m|] eqn:Hm;
    intros [= _ <- <- _]; (split; [done|]); [|done].
  by eapply rx_stags_search_le.
Qed.

(** More turns than [len(data) - pos] change nothing. *)
Lemma tokenize_loop_turns turns data pos :
  Str.len data - pos <= turns ->
  tokenize_loop turns data pos = tokenize data pos.
Proof.
  unfold tokenize.
  enough (forall t1 t2 p, Str.len data - p <= t1 -> Str.len data - p <= t2 ->
            tokenize_loop t1 data p = tokenize_loop t2 data p) as Hen.
  { intros Hle. by apply Hen. }
  clear. induction t1 as [|t1 IH]; intros t2 p H1 H2.
  - destruct t2; simpl; destruct (p <? Str.len data) eqn:E; try done.
    apply Nat.ltb_lt in E. lia.
  - simpl. destruct (p <? Str.len data) eqn:E.
    2:{ destruct t2; simpl; by rewrite E. }
    apply Nat.ltb_lt in E. destruct t2 as [|t2]; [lia|].
    simpl. apply Nat.ltb_lt in E as E'. rewrite E'.
    destruct (next_token data p) as [[[[name start] next] expr]|e] eqn:T;
      [|done].
    f_equal. apply next_token_forward in T; [|done]. apply IH; lia.
Qed.

(** The loop of [tokenize], one turn at a time. *)
Lemma tokenize_turn data pos :
  tokenize data pos =
    if pos <? Str.len data then
      match next_token data pos with
      | Raise e => Throw e
      | Ok (name, start, next, expr) =>
          Yield (name, start, next, expr) (tokenize data next)
      end
    else Stop.
Proof.
  unfold tokenize at 1.
  destruct (pos <? Str.len data) eqn:E.
  - apply Nat.ltb_lt in E as E'.
    destruct (Str.len data - pos) as [|turns] eqn:Ht; [lia|].
    simpl. rewrite E.
    destruct (next_token data pos) as [[[[name start] next] expr]|e] eqn:T;
      [|done].
    f_equal. apply tokenize_loop_turns.
    apply next_token_forward in T; [lia|done].
  - destruct (Str.len data - pos); simpl; by rewrite E.
Qed.

Lemma tokenize_loop_tiled turns data pos :
  tiled data pos (tokenize_loop turns data pos).
Proof.
  revert pos. induction turns as [|turns IH]; intros pos; simpl;
    destruct (pos <? Str.len data) eqn:E; try done.
  apply Nat.ltb_lt in E.
  destruct (next_token data pos) as [[[[name start] next] expr]|e] eqn:T;
    [|done].
  simpl. pose proof (next_token_forward _ _ _ _ _ _ E T).
  destruct (next_token_inside _ _ _ _ _ _ (Nat.lt_le_incl _ _ E) T).
  done.
Qed.

End Tokens.

(** ** The escapes of a text *)

Section Escapes.
Import Escape.

Lemma chars_app a b :
  String.list_ascii_of_string (a +:+ b)
  = String.list_ascii_of_string a ++ String.list_ascii_of_string b.
Proof. induction a as [|c a IH]; simpl; [done|by rewrite IH]. Qed.

Lemma text_app (l1 l2 : list ascii) :
  String.string_of_list_ascii (l1 ++ l2)
  = String.string_of_list_ascii l1 +:+ String.string_of_list_ascii l2.
Proof. induction l1 as [|c l1 IH]; simpl; [done|by rewrite IH]. Qed.

Lemma held_after c : held (after c) = [].
Proof. unfold after. by destruct (Ascii.eqb c newline). Qed.

Lemma sub_plain bol l :
  forallb (fun c => negb (Ascii.eqb c backslash)) l = true ->
  sub bol l = held bol ++ l.
Proof.
  revert bol. induction l as [|c l IH]; intros bol Hl; simpl in *.
  - destruct bol; simpl; by rewrite ?app_nil_r.
  - apply andb_prop in Hl as [Hc Hl]. apply negb_true_iff in Hc.
    destruct bol as [ws|]; simpl.
    + destruct (is_blank c).
      * rewrite IH by done. simpl. by rewrite <- app_assoc.
      * rewrite Hc, IH, held_after by done. done.
    + rewrite Hc, IH, held_after by done. done.
Qed.

Lemma sub_continuation bol a b :
  forallb (fun c => negb (Ascii.eqb c backslash)) a = true ->
  forallb (fun c => negb (Ascii.eqb c backslash)) b = true ->
  sub bol (a ++ backslash :: newline :: b) = held bol ++ a ++ b.
Proof.
  intros Ha Hb. revert bol. induction a as [|c a IH]; intros bol; simpl in *.
  - destruct bol as [ws|]; simpl; by rewrite sub_plain.
  - apply andb_prop in Ha as [Hc Ha]. apply negb_true_iff in Hc.
    destruct bol as [ws|]; simpl.
    + destruct (is_blank c).
      * rewrite IH by done. simpl. by rewrite <- app_assoc.
      * rewrite Hc, IH, held_after by done. done.
    + rewrite Hc, IH, held_after by done. done.
Qed.

Lemma blank_plain c : is_blank c = true -> Ascii.eqb c backslash = false.
Proof.
  unfold is_blank. intros Hc. apply orb_prop in Hc as [Hc|Hc];
    apply Ascii.eqb_eq in Hc; by subst c.
Qed.

Lemma sub_blanks ws acc l :
  forallb is_blank ws = true ->
  sub (Some acc) (ws ++ l) = sub (Some (rev ws ++ acc)) l.
Proof.
  revert acc. induction ws as [|c ws IH]; intros acc Hws; simpl in *; [done|].
  apply andb_prop in Hws as [Hc Hws]. rewrite Hc, IH by done.
  by rewrite <- app_assoc.
Qed.

(** After a text that ends a line the scan is at a place where [^]
    matches, with nothing kept back. *)
Lemma sub_line bol pre l :
  forallb (fun c => negb (Ascii.eqb c backslash)) pre = true ->
  match last pre with Some c => Ascii.eqb c newline | None => false end
    = true ->
  sub bol (pre ++ l) = held bol ++ pre ++ sub (Some []) l.
Proof.
  revert bol. induction pre as [|c pre IH]; intros bol Hp Hlast; [done|].
  simpl in Hp. apply andb_prop in Hp as [Hc Hp]. apply negb_true_iff in Hc.
  destruct pre as [|c' pre].
  - simpl in Hlast. apply Ascii.eqb_eq in Hlast as ->.
    destruct bol as [ws|]; simpl; done.
  - assert (last (c :: c' :: pre) = last (c' :: pre)) as Hl by done.
    rewrite Hl in Hlast.
    pose proof (fun bol => IH bol Hp Hlast) as IH'. clear IH.
    change ((c :: c' :: pre) ++ l) with (c :: (c' :: pre) ++ l).
    destruct bol as [ws|]; cbn [sub].
    + destruct (is_blank c).
      * rewrite IH'. simpl. by rewrite <- app_assoc.
      * rewrite Hc, IH', held_after. done.
    + rewrite Hc, IH', held_after. done.
Qed.

(** A backslash after the spaces and tabs that begin a line, and not
    before a newline. *)
Lemma sub_line_start ws b :
  forallb is_blank ws = true ->
  forallb (fun c => negb (Ascii.eqb c backslash)) b = true ->
  match b with c :: _ => negb (Ascii.eqb c newline) | [] => true end = true ->
  sub (Some []) (ws ++ backslash :: b) = b.
Proof.
  intros Hws Hb Hnl. rewrite sub_blanks by done.
  destruct b as [|c b]; [done|]. apply negb_true_iff in Hnl.
  cbn [sub]. change (is_blank backslash) with false. cbv iota.
  rewrite Ascii.eqb_refl, Hnl. by apply (sub_plain None (c :: b)).
Qed.

End Escapes.

(** ** The bounds are not reached

    On a store in the shape of a tree, the depth that is given to
    [evaluate] is enough; the compiler builds such stores. *)

Section ReturnsRules.
Context {S : Type}.

Lemma returns_ret {A} (P : S -> Prop) (a : A) (Q : A -> S -> Prop) E :
  (forall s, P s -> Q a s) -> returns P (ret a) Q E.
Proof. intros HQ s Hs. exists (Ok a), s. split; [done|by apply HQ]. Qed.

Lemma returns_raise {A} (P : S -> Prop) e (Q : A -> S -> Prop) (E : S -> Prop) :
  (forall s, P s -> E s) -> returns P (raise e) Q E.
Proof. intros HE s Hs. exists (Raise e), s. split; [done|by apply HE]. Qed.

Lemma returns_lift {A} (P : S -> Prop) (r : host A) (Q : A -> S -> Prop)
    (E : S -> Prop) :
  (forall s a, P s -> Q a s) -> (forall s, P s -> E s) ->
  returns P (lift r) Q E.
Proof.
  intros HQ HE s Hs. unfold lift. destruct r as [cls|a]; simpl.
  - eexists _, _. split; [done|]. by apply HE.
  - eexists _, _. split; [done|]. by apply HQ.
Qed.

Lemma returns_bind {A B} (P : S -> Prop) (m : M S A) (f : A -> M S B)
    (Q : A -> S -> Prop) (Q' : B -> S -> Prop) (E : S -> Prop) :
  returns P m Q E -> (forall a, returns (Q a) (f a) Q' E) ->
  returns P (bind m f) Q' E.
Proof.
  intros Hm Hf s Hs. destruct (Hm s Hs) as (r & s1 & Em & Hr).
  unfold bind. rewrite Em. destruct r as [a|e].
  - by apply Hf.
  - by exists (Raise e), s1.
Qed.

Lemma returns_weaken {A} (P P' : S -> Prop) (m : M S A)
    (Q Q' : A -> S -> Prop) (E E' : S -> Prop) :
  returns P m Q E ->
  (forall s, P' s -> P s) -> (forall a s, Q a s -> Q' a s) ->
  (forall s, E s -> E' s) ->
  returns P' m Q' E'.
Proof.
  intros Hm HP HQ HE s Hs. destruct (Hm s (HP s Hs)) as (r & s1 & Em & Hr).
  exists r, s1. split; [done|]. destruct r; [by apply HQ|by apply HE].
Qed.

End ReturnsRules.

Section Total.
Context `{Evaluator}.

Lemma bodies_rebound o o' b :
  obj_rebound o o' -> b ∈ bodies o' -> b ∈ bodies o.
Proof.
  destruct 1 as [|c c' codes ifs els Hc]; [done|]. simpl.
  rewrite !elem_of_cons. intros [->|[->|Hb]]; [|tauto..].
  destruct Hc as [->|Hin]; tauto.
Qed.

Lemma heap_rebound_lookup_r h h' l o' :
  heap_rebound h h' -> h' !! l = Some o' ->
  exists o, h !! l = Some o /\ obj_rebound o o'.
Proof. intros Hr Hl. by eapply Forall2_lookup_r. Qed.

(** Evaluation keeps the shape of the store. *)
Lemma wf_rebound h h' : wf h -> heap_rebound h h' -> wf h'.
Proof.
  intros Hwf Hreb l o' b Hl Hb.
  destruct (heap_rebound_lookup_r _ _ _ _ Hreb Hl) as (o & Ho & Hobj).
  destruct (Hwf l o b Ho (bodies_rebound _ _ _ Hobj Hb)) as (items & Hi & Hlt).
  exists items. split; [|done].
  destruct (heap_rebound_lookup _ _ _ _ Hreb Hi) as (o2 & Ho2 & Hobj2).
  by inversion Hobj2; subst.
Qed.

Lemma shaped_rebound N h d h' d' :
  shaped N (h, d) -> heap_rebound h h' -> shaped N (h', d').
Proof.
  intros [Hwf Hlen] Hreb. split; simpl in *.
  - by eapply wf_rebound.
  - by rewrite (heap_rebound_length _ _ Hreb).
Qed.

Lemma mapM_returns N n items :
  (forall x, x ∈ items ->
     returns (shaped N) (evaluate n x) (fun _ => shaped N) (shaped N)) ->
  returns (shaped N) (mapM (evaluate n) items)
          (fun _ => shaped N) (shaped N).
Proof.
  induction items as [|a items IH]; intros Hev; simpl.
  { by apply returns_ret. }
  eapply returns_bind.
  { apply Hev. apply list_elem_of_here. }
  intros b. eapply returns_bind.
  { apply IH. intros x Hx. apply Hev. by apply list_elem_of_further. }
  intros bs. by apply returns_ret.
Qed.

(** [Block.evaluate] on the node [l], when [evaluate n] is not cut on
    the nodes stored after [l]. *)
Lemma Block_evaluate_returns N n l :
  (forall x, l < x ->
     returns (shaped N) (evaluate n x) (fun _ => shaped N) (shaped N)) ->
  returns (shaped N) (Block_evaluate (evaluate n) l)
          (fun _ => shaped N) (shaped N).
Proof.
  intros Hev [h d] Hsh. pose proof Hsh as [Hwf Hlen]. simpl in *.
  rewrite Block_evaluate_unfold.
  unfold bind at 1, on_heap at 1, getattr_childnodes, bind, load.
  destruct (h !! l) as [o|] eqn:Hl; [|by eexists _, _].
  assert (forall c, c ∈ bodies o ->
            exists r s',
              (do items <- on_heap (list_items c);
               do parts <- mapM (evaluate n) items;
               ret (Str.join parts)) (h, d) = Some (r, s')
              /\ match r with
                 | Ok _ => shaped N s'
                 | Raise _ => shaped N s'
                 end) as Hbody.
  { intros c Hc. destruct (Hwf l o c Hl Hc) as (items & Hi & Hlt).
    unfold bind at 1, on_heap at 1, list_items, bind, load. rewrite Hi.
    simpl. eapply returns_bind; [apply mapM_returns; by auto|..|done].
    intros parts. by apply returns_ret. }
  destruct o; simpl; try (by eexists _, _);
    apply Hbody; simpl; rewrite ?elem_of_cons; tauto.
Qed.

Lemma ForBlock_loop_returns N n l bsets :
  (forall x, l < x ->
     returns (shaped N) (evaluate n x) (fun _ => shaped N) (shaped N)) ->
  returns (shaped N) (ForBlock_loop (evaluate n) l bsets)
          (fun _ => shaped N) (shaped N).
Proof.
  intros Hev. induction bsets as [|b rest IH]; simpl.
  { by apply returns_ret. }
  assert (returns (shaped N)
            (do r <- Block_evaluate (evaluate n) l;
             do results <- ForBlock_loop (evaluate n) l rest;
             ret (r :: results))
            (fun _ => shaped N) (shaped N)) as Hret.
  { eapply returns_bind; [by apply Block_evaluate_returns|].
    intros r. eapply returns_bind; [done|].
    intros rs. by apply returns_ret. }
  intros [h d] Hsh. rewrite bind_get_snd, bind_put_snd.
  apply Hret. by destruct Hsh.
Qed.

(** [evaluate n] is not cut on a node [x] when [n] is more than the
    number of objects stored from [x] on. *)
Lemma evaluate_returns N n x :
  N - x < n ->
  returns (shaped N) (evaluate n x) (fun _ => shaped N) (shaped N).
Proof.
  revert x. induction n as [|n IH]; intros x Hn; [lia|].
  assert (forall y, x < N -> x < y ->
            returns (shaped N) (evaluate n y) (fun _ => shaped N) (shaped N))
    as Hchild by (intros y Hx Hy; apply IH; lia).
  intros [h d] Hsh. pose proof Hsh as [Hwf Hlen]. simpl in Hwf, Hlen.
  destruct (h !! x) as [o|] eqn:Hx.
  2:{ rewrite evaluate_run_none by done. by eexists _, _. }
  assert (x < N) as HxN by (rewrite <- Hlen; by eapply lookup_lt_Some).
  rewrite (evaluate_run _ _ _ _ _ Hx). destruct o; cbn beta iota.
  - by eexists _, _.
  - by eexists _, _.
  - destruct (Variable_evaluate code (h, d)) as [[r s']|] eqn:Ev.
    + pose proof (Variable_evaluate_state _ _ _ _ Ev) as ->.
      exists r, (h, d). split; [done|]. by destruct r.
    + exfalso. revert Ev. unfold Variable_evaluate.
      rewrite bind_get_snd. unfold bind, lift.
      destruct (eval code d); simpl; [done|].
      destruct (d !! "__escape__") as [esc|]; [|done].
      destruct (truth esc); [|done].
      destruct (nonescape_value _); [done|].
      by destruct (unicode _).
  - erewrite IfBlock_evaluate_run by done.
    destruct (selected_body _ _ _) as [cls|body] eqn:Hsel;
      [by eexists _, _|].
    apply Block_evaluate_returns; [by auto|].
    eapply shaped_rebound; [done|].
    eapply heap_rebound_insert; [done|]. constructor.
    apply selected_body_in in Hsel as [->|[k Hin]]; [by left|right].
    by eapply elem_of_zip_r.
  - erewrite ForBlock_evaluate_run by done.
    unfold bind at 1, lift.
    destruct (eval_iter code d) as [cls|bsets]; simpl; [by eexists _, _|].
    eapply returns_bind; [apply ForBlock_loop_returns; by auto| |done].
    intros rs. by apply returns_ret.
  - by eexists _, _.
  - apply Block_evaluate_returns; by auto.
  - rewrite bind_get_snd. unfold on_heap.
    erewrite Template_evaluate_run by done. unfold with_namespace.
    match goal with
    | |- context [Block_evaluate _ x (h, ?g)] =>
        destruct (Block_evaluate_returns N n x (fun y => Hchild y HxN)
                    (h, g) (conj Hwf Hlen)) as (r & [h' d'] & Eb & Hr)
    end.
    rewrite Eb. exists r, (h', d). split; [done|].
    destruct r; destruct Hr; by split.
Qed.

(** Rendering a template in a store in the shape of a tree is not
    cut. *)
Lemma render_returns (h : heap) t namespace kwds :
  wf h -> exists r h', render h t namespace kwds = Some (r, h') /\ wf h'.
Proof.
  intros Hwf. unfold render, Template_evaluate, bind, load.
  destruct (h !! t) as [o|] eqn:Ht; [|by eexists _, _].
  destruct o; try (by eexists _, _).
  unfold with_namespace.
  assert (forall y, t < y ->
            returns (shaped (List.length h)) (evaluate (List.length h) y)
                    (fun _ => shaped (List.length h))
                    (shaped (List.length h))) as Hchild.
  { intros y Hy. apply evaluate_returns.
    apply lookup_lt_Some in Ht. lia. }
  match goal with
  | |- context [Block_evaluate _ t (h, ?g)] =>
      destruct (Block_evaluate_returns (List.length h) (List.length h) t
                  Hchild (h, g) (conj Hwf eq_refl))
        as (r & [h' d'] & Eb & Hr)
  end.
  rewrite Eb. exists r, h'. split; [done|]. by destruct r; destruct Hr.
Qed.

End Total.

(** ** The compiler builds stores in the shape of a tree *)

Section Shape.
Context `{Evaluator}.

Lemma wf_lookup_body (h : heap) l o b :
  wf h -> h !! l = Some o -> b ∈ bodies o -> b < List.length h.
Proof.
  intros Hwf Hl Hb. destruct (Hwf l o b Hl Hb) as (items & Hi & _).
  by eapply lookup_lt_Some.
Qed.

Lemma wf_alloc (h : heap) o :
  wf h ->
  (forall b, b ∈ bodies o ->
     exists items, (h ++ [o]) !! b = Some (PyList items)
                   /\ forall x, x ∈ items -> List.length h < x) ->
  wf (h ++ [o]).
Proof.
  intros Hwf Ho l o' b Hl Hb.
  destruct (decide (l < List.length h)) as [Hlt|Hge].
  - rewrite lookup_app_l in Hl by done.
    destruct (Hwf l o' b Hl Hb) as (items & Hi & Hx).
    exists items. split; [by apply lookup_app_l_Some|done].
  - assert (l = List.length h) as ->.
    { apply lookup_lt_Some in Hl. rewrite length_app in Hl. simpl in Hl. lia. }
    rewrite list_lookup_middle in Hl by done. injection Hl as <-.
    by apply Ho.
Qed.

Lemma wf_alloc_leaf (h : heap) o : wf h -> bodies o = [] -> wf (h ++ [o]).
Proof.
  intros Hwf Hb. apply wf_alloc; [done|]. rewrite Hb. intros b Hin.
  by apply elem_of_nil in Hin.
Qed.

(** Writing a node over a node. *)
Lemma wf_insert_node (h : heap) l o o' :
  wf h -> h !! l = Some o ->
  (forall items, o <> PyList items) -> (forall items, o' <> PyList items) ->
  (forall b, b ∈ bodies o' ->
     exists items, h !! b = Some (PyList items)
                   /\ forall x, x ∈ items -> l < x) ->
  wf (<[l := o']> h).
Proof.
  intros Hwf Hl Hno Hno' Ho' k ok b Hk Hb.
  assert (forall c items, h !! c = Some (PyList items) ->
            <[l := o']> h !! c = Some (PyList items)) as Hkeep.
  { intros c items Hc. rewrite list_lookup_insert_ne; [done|].
    intros ->. rewrite Hl in Hc. injection Hc as ->. by eapply Hno. }
  destruct (decide (k = l)) as [->|Hne].
  - rewrite list_lookup_insert_eq in Hk by (by eapply lookup_lt_Some).
    injection Hk as <-. destruct (Ho' b Hb) as (items & Hi & Hx).
    exists items. split; [by apply Hkeep|done].
  - rewrite list_lookup_insert_ne in Hk by done.
    destruct (Hwf k ok b Hk Hb) as (items & Hi & Hx).
    exists items. split; [by apply Hkeep|done].
Qed.

(** Appending a node to a body. *)
Lemma wf_append (h : heap) c items x :
  wf h -> h !! c = Some (PyList items) ->
  (forall l o, h !! l = Some o -> c ∈ bodies o -> l < x) ->
  wf (<[c := PyList (items ++ [x])]> h).
Proof.
  intros Hwf Hc Hown l o b Hl Hb.
  assert (l <> c) as Hlc.
  { intros ->. rewrite list_lookup_insert_eq in Hl
      by (by eapply lookup_lt_Some).
    injection Hl as <-. by apply elem_of_nil in Hb. }
  rewrite list_lookup_insert_ne in Hl by done.
  destruct (Hwf l o b Hl Hb) as (its & Hi & Hx).
  destruct (decide (b = c)) as [->|Hbc].
  - rewrite Hc in Hi. injection Hi as <-.
    exists (items ++ [x]). split.
    + apply list_lookup_insert_eq. by eapply lookup_lt_Some.
    + intros y [Hy|Hy]%elem_of_app; [by apply Hx|].
      apply list_elem_of_singleton in Hy as ->. by eapply Hown.
  - exists its. split; [|done]. by rewrite list_lookup_insert_ne.
Qed.

(** The constructors of the nodes. *)
Lemma fresh_inits :
  (forall data, fresh_init (Text_init data))
  /\ (forall expr, fresh_init (Variable_init expr))
  /\ (forall expr, fresh_init (IfBlock_init expr))
  /\ (forall expr, fresh_init (ForBlock_init expr))
  /\ fresh_init ExecBlock_init
  /\ fresh_init EncodingBlock_init.
Proof.
  assert (forall (h : heap) o, wf h -> bodies o = [] ->
            exists r h', alloc o h = Some (r, h') /\ wf h'
              /\ List.length h <= List.length h'
              /\ (forall l, l < List.length h -> h' !! l = h !! l)
              /\ forall node, r = Ok node ->
                   S node = List.length h' /\ List.length h <= node
                   /\ exists o0, h' !! node = Some o0
                        /\ forall b, b ∈ bodies o0 -> List.length h <= b)
    as Hleaf.
  { intros h o Hwf Hb. exists (Ok (List.length h)), (h ++ [o]).
    split; [done|]. split; [by apply wf_alloc_leaf|].
    split; [rewrite length_app; lia|].
    split; [intros l Hl; by apply lookup_app_l|].
    intros node [= <-]. rewrite length_app. simpl.
    split; [lia|]. split; [lia|]. exists o.
    split; [by apply list_lookup_middle|]. rewrite Hb.
    intros b Hin. by apply elem_of_nil in Hin. }
  assert (forall (h : heap) (mk : loc -> obj),
            wf h ->
            (forall c, bodies (mk c) = [c]) ->
            exists r h',
              (do c <- alloc (PyList []); alloc (mk c)) h = Some (r, h')
              /\ wf h' /\ List.length h <= List.length h'
              /\ (forall l, l < List.length h -> h' !! l = h !! l)
              /\ forall node, r = Ok node ->
                   S node = List.length h' /\ List.length h <= node
                   /\ exists o0, h' !! node = Some o0
                        /\ forall b, b ∈ bodies o0 -> List.length h <= b)
    as Hblock.
  { intros h mk Hwf Hmk.
    exists (Ok (S (List.length h))),
           ((h ++ [PyList []]) ++ [mk (List.length h)]).
    split. { unfold bind, alloc. simpl. rewrite length_app. simpl.
             by rewrite Nat.add_1_r. }
    split.
    { apply wf_alloc; [by apply wf_alloc_leaf|]. rewrite Hmk.
      intros b ->%list_elem_of_singleton. exists []. split.
      - apply lookup_app_l_Some. by apply list_lookup_middle.
      - intros x Hx. by apply elem_of_nil in Hx. }
    split; [rewrite !length_app; lia|].
    split. { intros l Hl. rewrite <- app_assoc. by apply lookup_app_l. }
    intros node [= <-]. rewrite !length_app. simpl.
    split; [lia|]. split; [lia|]. exists (mk (List.length h)). split.
    - apply list_lookup_middle. rewrite length_app. simpl. lia.
    - rewrite Hmk. intros b ->%list_elem_of_singleton. done. }
  repeat apply conj.
  - intros data h Hwf. by apply Hleaf.
  - intros expr h Hwf. unfold Variable_init, bind, lift.
    destruct (compile_eval expr) as [cls|code]; simpl.
    + exists (Raise (HostError cls)), h. repeat split; try done.
    + by apply Hleaf.
  - intros expr h Hwf. unfold IfBlock_init, bind, lift, alloc.
    destruct (compile_eval _) as [cls|code]; simpl.
    + exists (Raise (HostError cls)), (h ++ [PyList []]).
      split; [done|]. split; [by apply wf_alloc_leaf|].
      split; [rewrite length_app; lia|].
      split; [intros l Hl; by apply lookup_app_l|done].
    + eexists _, _. split; [done|].
      rewrite !length_app. simpl.
      split.
      { apply wf_alloc; [by repeat apply wf_alloc_leaf|].
        simpl. intros b Hb. exists []. split.
        - rewrite !elem_of_cons in Hb.
          destruct Hb as [->|[->|[->|Hb]]];
            [..|by apply elem_of_nil in Hb];
            apply lookup_app_l_Some.
          + apply lookup_app_l_Some. by apply list_lookup_middle.
          + apply list_lookup_middle. rewrite length_app. simpl. lia.
          + apply lookup_app_l_Some. by apply list_lookup_middle.
        - intros x Hx. by apply elem_of_nil in Hx. }
      split; [lia|].
      split. { intros l Hl. rewrite <- !app_assoc. by apply lookup_app_l. }
      intros node [= <-]. split; [lia|]. split; [lia|].
      eexists. split.
      { apply list_lookup_middle. rewrite !length_app. simpl. lia. }
      simpl. intros b Hb. rewrite !elem_of_cons in Hb.
      destruct Hb as [->|[->|[->|Hb]]]; [lia..|by apply elem_of_nil in Hb].
  - intros expr h Hwf. unfold ForBlock_init, bind, lift, alloc.
    destruct (compile_eval _) as [cls|code]; simpl.
    + exists (Raise (HostError cls)), (h ++ [PyList []]).
      split; [done|]. split; [by apply wf_alloc_leaf|].
      split; [rewrite length_app; lia|].
      split; [intros l Hl; by apply lookup_app_l|done].
    + destruct (Hblock h (fun c => ForBlock c code) Hwf (fun _ => eq_refl))
        as (r & h' & Hrun & Hrest).
      exists r, h'. split; [|done]. revert Hrun. unfold bind, alloc.
      simpl. by rewrite length_app.
  - intros h Hwf. by apply (Hblock h ExecBlock).
  - intros h Hwf. by apply (Hblock h EncodingBlock).
Qed.

End Shape.

Section ShapeHandler.
Context `{Evaluator}.

Lemma on_heap_bind {X A B} (m : M heap A) (f : A -> M heap B)
    (s : heap * X) :
  on_heap (bind m f) s = bind (on_heap m) (fun a => on_heap (f a)) s.
Proof.
  destruct s as [h x]. unfold on_heap, bind.
  by destruct (m h) as [[[a|e] h1]|].
Qed.

Lemma bind_on_heap_raise {X A B} (m : M heap A) (f : A -> M (heap * X) B)
    (h h1 : heap) e x :
  m h = Some (Raise e, h1) ->
  (do a0 <- on_heap m; f a0) (h, x) = Some (Raise e, (h1, x)).
Proof. intros Hm. unfold bind, on_heap. by rewrite Hm. Qed.

Lemma on_heap_ok {X A} (m : M heap A) (h h1 : heap) r (x : X) :
  m h = Some (r, h1) -> on_heap m (h, x) = Some (r, (h1, x)).
Proof. intros Hm. unfold on_heap. by rewrite Hm. Qed.

Lemma bind_top_run {A} (f : loc -> M _ A) (h : heap) hd top :
  last (nodestack hd) = Some top ->
  (do t <- nodestack_top; f t) (h, hd) = f top (h, hd).
Proof.
  intros Hl. unfold bind at 1. by rewrite (nodestack_top_run _ _ _ Hl).
Qed.

Lemma bind_top_none {A} (f : loc -> M _ A) (h : heap) hd :
  last (nodestack hd) = None ->
  (do t <- nodestack_top; f t) (h, hd) = Some (Raise IndexError, (h, hd)).
Proof.
  intros Hl. unfold bind at 1, nodestack_top. rewrite bind_handler_get.
  by rewrite Hl.
Qed.

(** Appending the node that was built last to the body of an older
    node. *)
Lemma appendchild_new (h0 h : heap) top node o :
  wf h0 -> wf h ->
  (forall l, l < List.length h0 -> h !! l = h0 !! l) ->
  top < List.length h0 ->
  S node = List.length h -> List.length h0 <= node ->
  h !! node = Some o ->
  (forall b, b ∈ bodies o -> List.length h0 <= b) ->
  exists r h',
    Block_appendchild top node h = Some (r, h')
    /\ wf h' /\ List.length h' = List.length h.
Proof.
  intros Hwf0 Hwf Hold Htop Hlast Hnew Hnode Hfresh.
  unfold Block_appendchild, bind at 1, getattr_childnodes, bind, load.
  rewrite (Hold top Htop).
  destruct (lookup_lt_is_Some_2 h0 top Htop) as [ot Hot]. rewrite Hot.
  assert (forall c, c ∈ bodies ot ->
            exists r h', list_append c node h = Some (r, h')
                         /\ wf h' /\ List.length h' = List.length h) as Happ.
  { intros c Hc.
    pose proof (wf_lookup_body _ _ _ _ Hwf0 Hot Hc) as Hc0.
    assert (h !! top = Some ot) as Hot' by (by rewrite Hold).
    destruct (Hwf top ot c Hot' Hc) as (items & Hi & Hx).
    unfold list_append, bind, list_items, bind, load, store. rewrite Hi.
    eexists _, _. split; [done|]. split; [|by rewrite length_insert].
    apply wf_append; [done..|].
    intros l ol Hl Hin.
    assert (l < List.length h) as Hlt by (by eapply lookup_lt_Some).
    destruct (decide (l = node)) as [->|]; [|lia].
    rewrite Hnode in Hl. injection Hl as <-.
    apply Hfresh in Hin. lia. }
  destruct ot; simpl; try (by eexists _, _);
    apply Happ; simpl; rewrite ?elem_of_cons; tauto.
Qed.

(** Building a node and appending it to the body of the innermost open
    block. *)
Lemma attach_returns init (h : heap) top :
  fresh_init init -> wf h -> 0 < top < List.length h ->
  exists r h',
    (do node <- init; run Block_appendchild top node; ret node) h
      = Some (r, h')
    /\ wf h' /\ List.length h <= List.length h'
    /\ forall node, r = Ok node -> 0 < node < List.length h'.
Proof.
  intros Hinit Hwf Htop.
  destruct (Hinit h Hwf) as (r & h1 & Hrun & Hwf1 & Hlen & Hold & Hnode).
  unfold bind at 1. rewrite Hrun. destruct r as [node|e].
  2:{ exists (Raise e), h1. repeat split; try done. }
  destruct (Hnode node eq_refl) as (Hlast & Hnew & o & Ho & Hfresh).
  destruct (appendchild_new h h1 top node o Hwf Hwf1 Hold ltac:(lia) Hlast
              Hnew Ho Hfresh) as (r2 & h2 & Happ & Hwf2 & Hlen2).
  unfold bind. rewrite Happ. destruct r2 as [u|e].
  - exists (Ok node), h2. split; [done|]. split; [done|].
    split; [lia|]. intros ? [= <-]. lia.
  - exists (Raise e), h2. split; [done|]. split; [done|].
    split; [lia|done].
Qed.

Lemma pinv_grow (h h' : heap) hd :
  pinv (h, hd) -> wf h' -> List.length h <= List.length h' -> pinv (h', hd).
Proof.
  intros [_ Hst] Hwf Hlen. split; [done|]. simpl in *.
  eapply Forall_impl; [exact Hst|]. intros x Hx. simpl in Hx. lia.
Qed.

Lemma pinv_top (h : heap) hd top :
  pinv (h, hd) -> last (nodestack hd) = Some top ->
  0 < top < List.length h.
Proof.
  intros [_ Hst] Hlast. simpl in Hst.
  rewrite Forall_forall in Hst. apply Hst.
  apply last_Some in Hlast as [l' ->]. apply elem_of_app. right.
  apply list_elem_of_here.
Qed.

(** [handle_text] and [handle_variable]. *)
Lemma handle_leaf_returns init :
  fresh_init init ->
  returns pinv
    (do top <- nodestack_top;
     do node <- on_heap init;
     on_heap (Block_appendchild top node))
    (fun _ => pinv) pinv.
Proof.
  intros Hinit [h hd] Hinv.
  destruct (last (nodestack hd)) as [top|] eqn:Hlast.
  2:{ rewrite bind_top_none by done. by eexists _, _. }
  erewrite bind_top_run by exact Hlast.
  pose proof (pinv_top _ _ _ Hinv Hlast) as Htop.
  destruct (attach_returns init h top Hinit (proj1 Hinv) Htop)
    as (r & h' & Hrun & Hwf & Hlen & _).
  revert Hrun. unfold bind at 1.
  destruct (init h) as [[[node|e] h1]|] eqn:Ei; [| |done].
  - erewrite bind_on_heap_ok by exact Ei. unfold bind.
    destruct (Block_appendchild top node h1) as [[[u|e] h2]|] eqn:Ea;
      [| |done]; intros [= <- <-];
      erewrite on_heap_ok by exact Ea;
      eexists _, _; (split; [done|]); by eapply pinv_grow.
  - erewrite bind_on_heap_raise by exact Ei. intros [= <- <-].
    eexists _, _. split; [done|]. by eapply pinv_grow.
Qed.

Lemma open_block_returns init :
  fresh_init init -> returns pinv (open_block init) (fun _ => pinv) pinv.
Proof.
  intros Hinit [h hd] Hinv. unfold open_block.
  destruct (last (nodestack hd)) as [top|] eqn:Hlast.
  2:{ destruct (Hinit h (proj1 Hinv)) as (r & h1 & Hrun & Hwf1 & Hlen & _).
      destruct r as [node|e].
      - erewrite bind_on_heap_ok by exact Hrun.
        rewrite bind_top_none by done.
        eexists _, _. split; [done|]. by eapply pinv_grow.
      - erewrite bind_on_heap_raise by exact Hrun.
        eexists _, _. split; [done|]. by eapply pinv_grow. }
  pose proof (pinv_top _ _ _ Hinv Hlast) as Htop.
  destruct (attach_returns init h top Hinit (proj1 Hinv) Htop)
    as (r & h' & Hrun & Hwf & Hlen & Hnode).
  revert Hrun. unfold bind at 1.
  destruct (init h) as [[[node|e] h1]|] eqn:Ei; [| |done].
  - erewrite bind_on_heap_ok by exact Ei.
    erewrite bind_top_run by exact Hlast. unfold bind at 1.
    destruct (Block_appendchild top node h1) as [[[u|e] h2]|] eqn:Ea;
      [| |done]; intros [= <- <-].
    + erewrite bind_on_heap_ok by exact Ea.
      eexists _, _. split; [done|]. split; [done|]. simpl.
      apply Forall_app. split.
      * destruct Hinv as [_ Hst]. simpl in Hst.
        eapply Forall_impl; [exact Hst|]. intros x Hx. simpl in Hx. lia.
      * constructor; [|constructor]. by apply Hnode.
    + erewrite bind_on_heap_raise by exact Ea.
      eexists _, _. split; [done|]. by eapply pinv_grow.
  - erewrite bind_on_heap_raise by exact Ei. intros [= <- <-].
    eexists _, _. split; [done|]. by eapply pinv_grow.
Qed.

End ShapeHandler.

Section ShapeParse.
Context `{Evaluator}.

Lemma returns_on_heap_shape {A} (m : M heap A) :
  (forall h : heap, wf h ->
     exists r h', m h = Some (r, h') /\ wf h'
                  /\ List.length h <= List.length h') ->
  returns pinv (on_heap m) (fun _ => pinv) pinv.
Proof.
  intros Hm [h hd] Hinv.
  destruct (Hm h (proj1 Hinv)) as (r & h' & Hrun & Hwf & Hlen).
  erewrite on_heap_ok by exact Hrun. exists r, (h', hd).
  split; [done|]. destruct r; by eapply pinv_grow.
Qed.

Lemma IfBlock_elif_shape self expr (h : heap) :
  wf h ->
  exists r h', IfBlock_elif_ self expr h = Some (r, h') /\ wf h'
               /\ List.length h <= List.length h'.
Proof.
  intros Hwf. unfold IfBlock_elif_, bind at 1, load.
  destruct (h !! self) as [o|] eqn:Hs; [|by eexists _, _].
  destruct o; try (by eexists _, _).
  destruct (_ =? _); [by eexists _, _|].
  unfold bind, lift, store, alloc.
  destruct (compile_eval _) as [cls|code]; simpl; [by eexists _, _|].
  eexists _, _. split; [done|].
  split; [|rewrite !length_insert, length_app, ?length_insert; simpl; lia].
  rewrite (length_insert h).
  set (o1 := IfBlock childnodes (codeobj_list ++ [code]) ifnodes_list
               elsenodes).
  assert (wf (<[self := o1]> h)) as Hwf1.
  { eapply wf_insert_node; [done..|]. intros b Hb. by eapply Hwf. }
  assert ((<[self := o1]> h ++ [PyList []]) !! self = Some o1) as Hs2.
  { apply lookup_app_l_Some, list_lookup_insert_eq.
    by eapply lookup_lt_Some. }
  eapply wf_insert_node; [by apply wf_alloc_leaf|exact Hs2|done..|].
  intros b Hb. simpl in Hb.
  rewrite !elem_of_cons, elem_of_app, list_elem_of_singleton in Hb.
  assert (b = List.length h \/ b ∈ bodies o1) as [->|Hold].
  { simpl. rewrite !elem_of_cons. tauto. }
  - exists []. split.
    + apply list_lookup_middle. by rewrite length_insert.
    + intros x Hx. by apply elem_of_nil in Hx.
  - apply (wf_alloc_leaf _ (PyList [])) in Hwf1; [|done].
    by eapply Hwf1.
Qed.

Lemma IfBlock_else_shape self (h : heap) :
  wf h ->
  exists r h', IfBlock_else_ self h = Some (r, h') /\ wf h'
               /\ List.length h <= List.length h'.
Proof.
  intros Hwf. unfold IfBlock_else_, bind, load, store.
  destruct (h !! self) as [o|] eqn:Hs; [|by eexists _, _].
  destruct o; try (by eexists _, _).
  destruct (_ =? _); [by eexists _, _|].
  eexists _, _. split; [done|]. rewrite length_insert. split; [|done].
  eapply wf_insert_node; [done..|]. intros b Hb.
  eapply Hwf; [done|]. simpl in *. rewrite !elem_of_cons in *. tauto.
Qed.

Lemma load_shape l (h : heap) :
  wf h ->
  exists r h', load l h = Some (r, h') /\ wf h'
               /\ List.length h <= List.length h'.
Proof. intros Hwf. unfold load. destruct (h !! l); by eexists _, _. Qed.

Lemma nodestack_top_returns :
  returns pinv nodestack_top (fun _ => pinv) pinv.
Proof.
  intros [h hd] Hinv.
  destruct (last (nodestack hd)) as [top|] eqn:Hlast.
  - rewrite (nodestack_top_run _ _ _ Hlast). by eexists _, _.
  - unfold nodestack_top. rewrite bind_handler_get, Hlast.
    by eexists _, _.
Qed.

Lemma branch_returns (f : loc -> M heap unit) :
  (forall top (h : heap), wf h ->
     exists r h', f top h = Some (r, h') /\ wf h'
                  /\ List.length h <= List.length h') ->
  returns pinv
    (do top <- nodestack_top;
     do o <- on_heap (load top);
     match o with
     | IfBlock _ _ _ _ => on_heap (f top)
     | _ => raise (TemplateSyntaxError "invalid syntax" None)
     end) (fun _ => pinv) pinv.
Proof.
  intros Hf.
  apply (returns_bind _ _ _ (fun _ => pinv)); [apply nodestack_top_returns|].
  intros top. apply (returns_bind _ _ _ (fun _ => pinv)).
  { apply returns_on_heap_shape, load_shape. }
  intros o. destruct o; try (by apply returns_raise).
  apply returns_on_heap_shape, Hf.
Qed.

(** [evaluate] with the depth the handler gives it, on an open node. *)
Lemma evaluate_length_returns (h : heap) node :
  0 < node < List.length h ->
  returns (shaped (List.length h)) (evaluate (List.length h) node)
          (fun _ => shaped (List.length h)) (shaped (List.length h)).
Proof. intros Hnode. apply evaluate_returns. lia. Qed.

Lemma returns_pure {S A} (P : S -> Prop) (m : M S A) :
  (forall s, exists r, m s = Some (r, s)) -> returns P m (fun _ => P) P.
Proof.
  intros Hm s Hs. destruct (Hm s) as [r Hr]. exists r, s.
  split; [done|]. by destruct r.
Qed.

Lemma root_encoding_pure s : exists r, root_encoding s = Some (r, s).
Proof.
  destruct s as [h hd]. unfold root_encoding. rewrite bind_handler_get.
  unfold bind, on_heap, load. destruct (h !! root hd) as [o|]; [|by eexists].
  destruct o; by eexists.
Qed.

(** Writing the root again with other attributes than [childnodes]. *)
Lemma store_root_shape (h : heap) r c d enc d' enc' :
  wf h -> h !! r = Some (Template c d enc) ->
  wf (<[r := Template c d' enc']> h).
Proof.
  intros Hwf Hr. eapply wf_insert_node; [done..|].
  intros b Hb. by eapply Hwf.
Qed.

Lemma execute_in_root_returns node :
  returns (pinv_at node) (execute_in_root node) (fun _ => pinv) pinv.
Proof.
  intros [h hd] [Hinv Hnode]. simpl in Hnode.
  unfold execute_in_root. rewrite bind_handler_get.
  unfold bind at 1, on_heap at 1, load.
  destruct (h !! root hd) as [o|] eqn:Hr; [|by eexists _, _].
  destruct o; try (by eexists _, _).
  rewrite bind_on_heap_get.
  assert (forall y, node < y ->
            returns (shaped (List.length h)) (evaluate (List.length h) y)
                    (fun _ => shaped (List.length h))
                    (shaped (List.length h))) as Hchild.
  { intros y Hy. apply evaluate_returns. lia. }
  destruct (Block_evaluate_returns _ _ node Hchild (h, namespace)
              (conj (proj1 Hinv) eq_refl))
    as (r & [h1 d1] & Eb & Hsh).
  assert (wf h1 /\ List.length h1 = List.length h) as [Hwf1 Hlen1]
    by (by destruct r; destruct Hsh).
  assert (pinv (h1, hd)) as Hinv1 by (eapply pinv_grow; [done..|lia]).
  unfold bind at 1, on_heap at 1, in_namespace, ExecBlock_execute.
  unfold bind at 1. rewrite Eb. destruct r as [source|e]; [|by eexists _, _].
  rewrite bind_get_snd. unfold bind at 1, lift at 1.
  destruct (exec source d1) as [cls|d2]; simpl; [by eexists _, _|].
  unfold bind, on_heap, load, store.
  destruct (h1 !! root hd) as [o|] eqn:Hr1; [|by eexists _, _].
  destruct o; try (by eexists _, _).
  eexists _, _. split; [done|]. eapply pinv_grow; [exact Hinv1| |].
  - by eapply store_root_shape.
  - by rewrite length_insert.
Qed.

Lemma detect_encoding_returns node :
  returns (pinv_at node) (detect_encoding node) (fun _ => pinv) pinv.
Proof.
  intros [h hd] [Hinv Hnode]. simpl in Hnode.
  unfold detect_encoding. rewrite bind_on_heap_get.
  destruct (evaluate_length_returns h node Hnode (h, ∅)
              (conj (proj1 Hinv) eq_refl)) as (r & [h1 d1] & Ee & Hsh).
  assert (wf h1 /\ List.length h1 = List.length h) as [Hwf1 Hlen1]
    by (by destruct r; destruct Hsh).
  assert (pinv (h1, hd)) as Hinv1 by (eapply pinv_grow; [done..|lia]).
  unfold bind at 1, on_heap at 1, with_namespace. rewrite Ee.
  destruct r as [text|e]; [|by eexists _, _].
  unfold bind at 1, set_root_encoding. rewrite bind_handler_get.
  unfold bind at 1, on_heap at 1, load.
  destruct (h1 !! root hd) as [o|] eqn:Hr1; [|by eexists _, _].
  destruct o; try (by eexists _, _).
  unfold on_heap, store. eexists _, _. split; [done|].
  eapply pinv_grow; [exact Hinv1| |].
  - by eapply store_root_shape.
  - by rewrite length_insert.
Qed.

Lemma handle_end_tail node (o : obj) :
  returns (pinv_at node)
    (run match o with
         | ExecBlock _ => execute_in_root node
         | _ => ret tt
         end;
     match o with
     | EncodingBlock _ =>
         do enc <- root_encoding;
         if negb (encoding_truth enc) then detect_encoding node else ret tt
     | _ => ret tt
     end) (fun _ => pinv) pinv.
Proof.
  assert (forall s, pinv_at node s -> pinv s) as Hweak by (by intros s [Hs _]).
  assert (returns (pinv_at node)
            (do enc <- root_encoding;
             if negb (encoding_truth enc) then detect_encoding node
             else ret tt) (fun _ => pinv) pinv) as Henc.
  { apply (returns_bind _ _ _ (fun _ => pinv_at node)).
    - eapply returns_weaken;
        [apply (returns_pure (pinv_at node)), root_encoding_pure|done..].
    - intros enc. destruct (negb _).
      + apply detect_encoding_returns.
      + by apply returns_ret. }
  destruct o;
    try (apply (returns_bind _ _ _ (fun _ => pinv));
         [by apply returns_ret|intros _; by apply returns_ret]).
  - apply (returns_bind _ _ _ (fun _ => pinv));
      [apply execute_in_root_returns|intros _; by apply returns_ret].
  - apply (returns_bind _ _ _ (fun _ => pinv_at node));
      [by apply returns_ret|intros _; apply Henc].
Qed.

Lemma handle_end_returns : returns pinv handle_end (fun _ => pinv) pinv.
Proof.
  intros [h hd] Hinv. unfold handle_end.
  destruct (last (nodestack hd)) as [node|] eqn:Hlast.
  2:{ unfold bind at 1, nodestack_pop. rewrite bind_handler_get, Hlast.
      by eexists _, _. }
  unfold bind at 1. rewrite (nodestack_pop_run _ _ _ Hlast).
  pose proof (pinv_top _ _ _ Hinv Hlast) as Hnode.
  set (hd' := {| root := root hd; nodestack := removelast (nodestack hd) |}).
  assert (pinv (h, hd')) as Hinv'.
  { destruct Hinv as [Hwf Hst]. split; [done|]. simpl in *.
    apply last_Some in Hlast as [l' Hl]. rewrite Hl in Hst |- *.
    rewrite removelast_last. by apply Forall_app in Hst as [Hst _]. }
  destruct (lookup_lt_is_Some_2 h node (proj2 Hnode)) as [o Ho].
  erewrite bind_on_heap_load by exact Ho.
  by apply (handle_end_tail node o (h, hd')).
Qed.

(** Every token leaves the store in the shape of a tree. *)
Lemma handle_returns name expr :
  returns pinv (handle name expr) (fun _ => pinv) pinv.
Proof.
  pose proof fresh_inits as (Ft & Fv & Fi & Ff & Fx & Fe).
  unfold handle.
  destruct (String.eqb name "block").
  { unfold handle_block.
    destruct (Str.split1 expr) as [|tagname tokens];
      [by apply returns_raise|].
    destruct (String.eqb tagname "end"); [apply handle_end_returns|].
    destruct (String.eqb tagname "if"); [by apply open_block_returns|].
    destruct (String.eqb tagname "elif").
    { apply (branch_returns (fun top => IfBlock_elif_ top (Str.join tokens))).
      intros top h. apply IfBlock_elif_shape. }
    destruct (String.eqb tagname "else").
    { apply (branch_returns IfBlock_else_).
      intros top h. apply IfBlock_else_shape. }
    destruct (String.eqb tagname "for"); [by apply open_block_returns|].
    destruct (String.eqb tagname "exec"); [by apply open_block_returns|].
    destruct (String.eqb tagname "encoding"); [by apply open_block_returns|].
    by apply returns_raise. }
  destruct (String.eqb name "variable"); [by apply handle_leaf_returns|].
  destruct (String.eqb name "comment"); [by apply returns_ret|].
  destruct (String.eqb name "text"); [by apply handle_leaf_returns|].
  by apply returns_raise.
Qed.

End ShapeParse.

(** ** The compiler is not cut *)

Section ParseReturns.
Context `{Evaluator}.

(** Once the root has an encoding, the rest of the tokens is handled
    without a nested call. *)
Lemma parse_loop_set_returns again data tokens :
  complete tokens ->
  returns (fun s => pinv s /\ encoding_set s)
          (parse_loop again data tokens) (fun _ => pinv) pinv.
Proof.
  induction tokens as [[[[name start] end_] expr] rest IH| | |];
    intros Hc st [Hinv Hset]; simpl.
  - destruct (handle_returns name expr st Hinv) as (r & st1 & Eh & Hr).
    destruct (steady_handle name expr st r st1 Hset Eh) as [Hk Hne].
    rewrite Eh. destruct r as [u|e].
    + apply IH; [done|]. split; [done|by eapply encoding_set_stable].
    + destruct e; try (by eexists _, _). by edestruct Hne.
  - by eexists _, _.
  - by eexists _, _.
  - done.
Qed.

Lemma parse_loop_returns data tokens :
  decode_rejects_empty -> complete tokens ->
  returns pinv (parse_loop (parse 1) data tokens) (fun _ => pinv) pinv.
Proof.
  intros Hdec.
  induction tokens as [[[[name start] end_] expr] rest IH| | |];
    intros Hc st Hinv; simpl.
  - destruct (handle_returns name expr st Hinv) as (r & st1 & Eh & Hr).
    rewrite Eh. destruct r as [u|e]; [by apply IH|].
    destruct e; try (by eexists _, _).
    destruct (handle_restart_sets _ _ _ _ _ Eh) as (c & d & Hroot).
    destruct (decide (encoding = "")) as [->|Hne].
    { destruct (Hdec (Str.slice data 0 end_)) as [cls Hcls].
      unfold bind at 1, lift. rewrite Hcls. by eexists _, _. }
    unfold bind at 1, lift.
    destruct (decode (Str.slice data 0 end_) encoding); [by eexists _, _|].
    simpl. unfold bind.
    destruct (decode (Str.slice_from data end_) encoding);
      [by eexists _, _|].
    simpl. apply parse_loop_set_returns; [apply tokenize_never_pending|].
    split; [done|]. by exists c, d, encoding.
  - by eexists _, _.
  - by eexists _, _.
  - done.
Qed.

Lemma parse_returns data pos :
  decode_rejects_empty ->
  returns pinv (parse 2 data pos) (fun _ => pinv) pinv.
Proof.
  intros Hdec. apply parse_loop_returns; [done|].
  apply tokenize_never_pending.
Qed.

Lemma Template_init_shape code (h : heap) :
  decode_rejects_empty -> wf h ->
  exists r h', Template_init code h = Some (r, h') /\ wf h'.
Proof.
  intros Hdec Hwf. unfold Template_init, bind at 1 2, alloc.
  set (self := List.length (h ++ [PyList []])).
  set (h0 := (h ++ [PyList []]) ++ [Template (List.length h) ∅ None]).
  assert (self = List.length h + 1) as Hself
    by (unfold self; by rewrite length_app).
  assert (wf h0) as Hwf0.
  { apply wf_alloc; [by apply wf_alloc_leaf|].
    intros b Hb. apply list_elem_of_singleton in Hb as ->.
    exists []. rewrite <- app_assoc, lookup_app_r, Nat.sub_diag by done.
    split; [done|]. intros x Hx. by apply elem_of_nil in Hx. }
  assert (pinv (h0, TemplateHandler_init self)) as Hinv.
  { split; [done|]. simpl. apply Forall_singleton.
    unfold h0. rewrite length_app. fold self. simpl. lia. }
  destruct (parse_returns code 0 Hdec _ Hinv) as (r & [h1 hd1] & Ep & Hr).
  assert (wf h1) as Hwf1 by (by destruct r; destruct Hr).
  unfold bind at 1. rewrite Ep. destruct r as [u|e]; [|by eexists _, _].
  unfold bind at 1, load.
  destruct (h1 !! self) as [o|] eqn:Ho; [|by eexists _, _].
  destruct o; try (by eexists _, _).
  destruct (namespace !! "__escape__").
  - unfold bind, store, ret. eexists _, _. split; [done|].
    by eapply store_root_shape.
  - unfold bind, ret. by eexists _, _.
Qed.

End ParseReturns.

(** ** The handler, one token at a time *)

Section HandlerRuns.
Context `{Evaluator}.

Lemma Block_appendchild_run (h : heap) top o c items node :
  h !! top = Some o -> childnodes_of o = Some c ->
  h !! c = Some (PyList items) ->
  Block_appendchild top node h
  = Some (Ok tt, <[c := PyList (items ++ [node])]> h).
Proof.
  intros Htop Hc Hitems.
  unfold Block_appendchild, bind at 1, getattr_childnodes, bind at 1, load.
  rewrite Htop. destruct o; simpl in Hc; try done; injection Hc as ->;
    unfold ret, list_append, bind at 1, list_items, bind, load, store;
    by rewrite Hitems.
Qed.

(** Appending a node that has just been stored. *)
Lemma attach_leaf_run (h : heap) (hd : TemplateHandler) top o c items
    (node : obj) :
  h !! top = Some o -> childnodes_of o = Some c ->
  h !! c = Some (PyList items) ->
  on_heap (Block_appendchild top (List.length h)) (h ++ [node], hd)
  = Some (Ok tt,
          (<[c := PyList (items ++ [List.length h])]> (h ++ [node]), hd)).
Proof.
  intros Htop Hc Hitems. apply on_heap_ok.
  eapply Block_appendchild_run; [|done|]; by apply lookup_app_l_Some.
Qed.

Lemma handle_text_run expr (h : heap) hd top o c items :
  last (nodestack hd) = Some top ->
  h !! top = Some o -> childnodes_of o = Some c ->
  h !! c = Some (PyList items) ->
  handle "text" expr (h, hd)
  = Some (Ok tt,
          (<[c := PyList (items ++ [List.length h])]>
             (h ++ [Text (Escape.rx_escape_sub expr)]), hd)).
Proof.
  intros Hlast Htop Hc Hitems.
  change (handle "text" expr) with (handle_text expr). unfold handle_text.
  rewrite (bind_top_run _ _ _ _ Hlast).
  erewrite bind_on_heap_ok by reflexivity.
  by eapply attach_leaf_run.
Qed.

Lemma handle_variable_run expr code (h : heap) hd top o c items :
  last (nodestack hd) = Some top ->
  h !! top = Some o -> childnodes_of o = Some c ->
  h !! c = Some (PyList items) ->
  compile_eval expr = inr code ->
  handle "variable" expr (h, hd)
  = Some (Ok tt,
          (<[c := PyList (items ++ [List.length h])]>
             (h ++ [Variable_ code]), hd)).
Proof.
  intros Hlast Htop Hc Hitems Hcode.
  change (handle "variable" expr) with (handle_variable expr).
  unfold handle_variable. rewrite (bind_top_run _ _ _ _ Hlast).
  erewrite bind_on_heap_ok;
    [|unfold Variable_init, bind, lift; rewrite Hcode; reflexivity].
  by eapply attach_leaf_run.
Qed.

Lemma handle_variable_error expr cls (h : heap) hd top :
  last (nodestack hd) = Some top ->
  compile_eval expr = inl cls ->
  handle "variable" expr (h, hd) = Some (Raise (HostError cls), (h, hd)).
Proof.
  intros Hlast Hcode.
  change (handle "variable" expr) with (handle_variable expr).
  unfold handle_variable. rewrite (bind_top_run _ _ _ _ Hlast).
  erewrite bind_on_heap_raise; [done|].
  unfold Variable_init, bind, lift. by rewrite Hcode.
Qed.


(** A text without opening markers is one [text] token. *)
Lemma tokenize_literal code :
  code <> "" -> rx_stags_search code 0 = None ->
  tokenize code 0 = Yield ("text", 0, Str.len code, code) Stop.
Proof.
  intros Hne Hno. pose proof (rx_stags_search_first code 0) as Hf.
  rewrite Hno in Hf. simpl in Hf.
  assert (0 < Str.len code) as Hlen by (destruct code; [done|simpl; lia]).
  rewrite tokenize_turn. apply Nat.ltb_lt in Hlen as Hlen'. rewrite Hlen'.
  unfold next_token. rewrite scan_tagset_opens by (apply Hf; lia).
  rewrite Hno. unfold Str.slice. rewrite Nat.sub_0_r.
  unfold Str.len at 2. rewrite substring_all.
  rewrite tokenize_turn, Nat.ltb_irrefl. done.
Qed.

End HandlerRuns.

Section BlockRuns.
Context `{Evaluator}.

Lemma open_block_run init (h h1 : heap) hd node top o c items :
  init h = Some (Ok node, h1) ->
  last (nodestack hd) = Some top ->
  h1 !! top = Some o -> childnodes_of o = Some c ->
  h1 !! c = Some (PyList items) ->
  open_block init (h, hd)
  = Some (Ok tt,
          (<[c := PyList (items ++ [node])]> h1,
           {| root := root hd; nodestack := nodestack hd ++ [node] |})).
Proof.
  intros Hinit Hlast Htop Hc Hitems. unfold open_block.
  erewrite bind_on_heap_ok by exact Hinit.
  rewrite (bind_top_run _ _ _ _ Hlast).
  erewrite bind_on_heap_ok by (by eapply Block_appendchild_run).
  done.
Qed.

(** The [end] of a block that is neither an [ExecBlock] nor an
    [EncodingBlock] only takes the block off the stack. *)
Lemma handle_end_plain (h : heap) stack r node o :
  h !! node = Some o ->
  match o with ExecBlock _ | EncodingBlock _ => False | _ => True end ->
  handle_end (h, {| root := r; nodestack := stack ++ [node] |})
  = Some (Ok tt, (h, {| root := r; nodestack := stack |})).
Proof.
  intros Hnode Ho. unfold handle_end, bind at 1.
  rewrite (nodestack_pop_run _ _ node) by (simpl; apply last_snoc).
  simpl. rewrite removelast_last.
  erewrite bind_on_heap_load by exact Hnode.
  by destruct o.
Qed.

End BlockRuns.

(** ** [compile_until] *)

Section CompileUntilProperties.

Lemma append_empty_r (s : string) : s +:+ "" = s.
Proof.
  induction s as [|c s IH]; [done|].
  change (String c s +:+ "") with (String c (s +:+ "")). by rewrite IH.
Qed.

Lemma append_assoc_text (a b c : string) : (a +:+ b) +:+ c = a +:+ (b +:+ c).
Proof.
  induction a as [|x a IH]; [done|].
  change ((String x a +:+ b) +:+ c) with (String x ((a +:+ b) +:+ c)).
  by rewrite IH.
Qed.

Lemma join_cons x xs : Str.join (x :: xs) = x +:+ Str.join xs.
Proof.
  unfold Str.join. destruct xs as [|y xs]; simpl; [|done].
  by rewrite append_empty_r.
Qed.

Lemma join_app xs ys : Str.join (xs ++ ys) = Str.join xs +:+ Str.join ys.
Proof.
  induction xs as [|x xs IH]; [done|].
  change ((x :: xs) ++ ys) with (x :: (xs ++ ys)).
  by rewrite !join_cons, IH, append_assoc_text.
Qed.

Lemma lines_keepends_concat cur l :
  concat (Py.lines_keepends cur l) = rev cur ++ l.
Proof.
  enough (forall n l cur, List.length l <= n ->
            concat (Py.lines_keepends cur l) = rev cur ++ l) as Hen
    by (by eapply Hen).
  clear. induction n as [|n IH]; intros l cur Hlen.
  - destruct l; [|simpl in Hlen; lia].
    destruct cur; simpl; by rewrite ?app_nil_r.
  - destruct l as [|c l].
    { destruct cur; simpl; by rewrite ?app_nil_r. }
    simpl in Hlen. cbn [Py.lines_keepends].
    destruct (Ascii.eqb c Py.linefeed).
    { cbn [concat]. rewrite IH by lia. simpl. by rewrite <- app_assoc. }
    destruct (Ascii.eqb c Py.carriage_return).
    2:{ rewrite IH by lia. simpl. by rewrite <- app_assoc. }
    destruct l as [|c' l'].
    { simpl. by rewrite app_nil_r. }
    simpl in Hlen. destruct (Ascii.eqb c' Py.linefeed).
    + cbn [concat]. rewrite IH by lia. simpl. by rewrite <- !app_assoc.
    + cbn [concat]. rewrite IH by (simpl; lia). simpl.
      by rewrite <- !app_assoc.
Qed.

Lemma join_texts (ls : list (list ascii)) :
  Str.join (map String.string_of_list_ascii ls)
  = String.string_of_list_ascii (concat ls).
Proof.
  induction ls as [|l ls IH]; [done|].
  cbn [map concat]. by rewrite join_cons, IH, text_app.
Qed.

(** The lines of a text, joined, are the text. *)
Lemma join_splitlines source :
  Str.join (Py.splitlines_keepends source) = source.
Proof.
  unfold Py.splitlines_keepends.
  rewrite join_texts, lines_keepends_concat. simpl.
  apply String.string_of_list_ascii_of_string.
Qed.

Lemma slice_split s n : Str.slice s 0 n +:+ Str.slice_from s n = s.
Proof.
  unfold Str.slice, Str.slice_from, Str.len. rewrite Nat.sub_0_r.
  revert n. induction s as [|c s IH]; intros n.
  - by rewrite !substring_empty.
  - destruct n as [|n].
    + rewrite Nat.sub_0_r, substring_all. done.
    + transitivity
        (String c (String.substring 0 n s
                   +:+ String.substring n (String.length s - n) s));
        [done|by rewrite IH].
Qed.

Lemma str_slice_split s i : Py.str_slice_to s i +:+ Py.str_slice_from s i = s.
Proof. apply slice_split. Qed.

Lemma slice_index_le len i : Py.slice_index len i <= len.
Proof. unfold Py.slice_index. destruct (i <? 0)%Z eqn:E; lia. Qed.

(** Where [l[i]] is an item, [l[i:]] begins with it. *)
Lemma getitem_slice_from {A} (l : list A) i x :
  Py.getitem l i = Some x ->
  exists tl, Py.slice_from l i = x :: tl.
Proof.
  unfold Py.getitem, Py.slice_from, Py.slice_index.
  destruct (0 <=? i)%Z eqn:E0.
  - intros Hx. apply Z.leb_le in E0.
    assert ((i <? 0)%Z = false) as -> by lia.
    pose proof (lookup_lt_Some _ _ _ Hx) as Hlt.
    rewrite Nat.min_l by lia. eexists. by apply drop_S.
  - apply Z.leb_gt in E0.
    destruct (- Z.of_nat (List.length l) <=? i)%Z eqn:E1; [|done].
    intros Hx. apply Z.leb_le in E1.
    assert ((i <? 0)%Z = true) as -> by lia.
    rewrite Z.max_r by lia. eexists. by apply drop_S.
Qed.

Lemma slice_to_from {A} (l : list A) i :
  Py.slice_to l i ++ Py.slice_from l i = l.
Proof. apply take_drop. Qed.

End CompileUntilProperties.

(** ** Conditions and bodies *)

Section Paired.
Context `{Evaluator}.

#[local] Instance keeps_paired_refl : Reflexive keeps_paired.
Proof. by intros h Hp. Qed.

#[local] Instance keeps_paired_trans : Transitive keeps_paired.
Proof. intros h1 h2 h3 H12 H23 Hp. by apply H23, H12. Qed.

#[local] Instance parse_keeps_paired_refl : Reflexive parse_keeps_paired.
Proof. by intros s Hp. Qed.

#[local] Instance parse_keeps_paired_trans : Transitive parse_keeps_paired.
Proof. intros s1 s2 s3 H12 H23 Hp. by apply H23, H12. Qed.

Lemma preserves_weaken {S A} (R R' : S -> S -> Prop) (m : M S A) :
  preserves R m -> (forall s s', R s s' -> R' s s') -> preserves R' m.
Proof. intros Hm HR s r s' E. by eapply HR, Hm. Qed.

Lemma paired_rebound h h' : heap_rebound h h' -> keeps_paired h h'.
Proof.
  intros Hreb Hp. unfold paired in *.
  induction Hreb as [|o o' t t' Ho _ IH]; [done|].
  apply Forall_cons in Hp as [Hpo Hpt]. constructor; [|by apply IH].
  by destruct Ho.
Qed.

Lemma paired_alloc o : paired_obj o -> preserves keeps_paired (alloc o).
Proof.
  intros Ho h r h' [= _ <-] Hp. apply Forall_app. split; [done|].
  by constructor.
Qed.

Lemma paired_store l o : paired_obj o -> preserves keeps_paired (store l o).
Proof. intros Ho h r h' [= _ <-] Hp. by apply Forall_insert. Qed.

Lemma paired_load l : preserves keeps_paired (load l).
Proof.
  intros h r h'. unfold load. destruct (h !! l); intros [= _ <-]; reflexivity.
Qed.

Lemma paired_list_append l x : preserves keeps_paired (list_append l x).
Proof.
  unfold list_append, list_items. keep; try apply paired_load.
  by apply paired_store.
Qed.

Lemma paired_appendchild self x :
  preserves keeps_paired (Block_appendchild self x).
Proof.
  unfold Block_appendchild, getattr_childnodes. keep; try apply paired_load.
  all: apply paired_list_append.
Qed.

Lemma paired_elif self expr : preserves keeps_paired (IfBlock_elif_ self expr).
Proof.
  intros h r h'. unfold IfBlock_elif_, bind at 1, load.
  destruct (h !! self) as [o|] eqn:Hs; [|intros [= _ <-]; reflexivity].
  destruct o; try (intros [= _ <-]; reflexivity).
  destruct (_ =? _); [intros [= _ <-]; reflexivity|].
  unfold bind, lift, store, alloc.
  destruct (compile_eval _) as [cls|code]; simpl;
    intros [= _ <-]; [reflexivity|].
  intros Hp. pose proof (Forall_lookup_1 _ _ _ _ Hp Hs) as Ho. simpl in Ho.
  pose proof (lookup_lt_Some _ _ _ Hs) as Hlt.
  rewrite <- insert_app_l by done.
  rewrite list_insert_insert_eq. apply Forall_insert.
  - apply Forall_app. split; [done|]. by constructor.
  - simpl. rewrite !length_app. simpl. lia.
Qed.

Lemma paired_else self : preserves keeps_paired (IfBlock_else_ self).
Proof.
  intros h r h'. unfold IfBlock_else_, bind, load, store.
  destruct (h !! self) as [o|] eqn:Hs; [|intros [= _ <-]; reflexivity].
  destruct o; try (intros [= _ <-]; reflexivity).
  destruct (_ =? _); intros [= _ <-]; [reflexivity|].
  intros Hp. pose proof (Forall_lookup_1 _ _ _ _ Hp Hs) as Ho.
  by apply Forall_insert.
Qed.

Lemma paired_inits :
  (forall data, preserves keeps_paired (Text_init data))
  /\ (forall expr, preserves keeps_paired (Variable_init expr))
  /\ (forall expr, preserves keeps_paired (IfBlock_init expr))
  /\ (forall expr, preserves keeps_paired (ForBlock_init expr))
  /\ preserves keeps_paired ExecBlock_init
  /\ preserves keeps_paired EncodingBlock_init.
Proof.
  unfold Text_init, Variable_init, IfBlock_init, ForBlock_init,
    ExecBlock_init, EncodingBlock_init.
  repeat apply conj; intros; keep; by apply paired_alloc.
Qed.

Lemma paired_on_heap {A} (m : M heap A) :
  preserves keeps_paired m -> preserves parse_keeps_paired (on_heap m).
Proof.
  intros Hm [h hd] r [h' hd']. unfold on_heap.
  destruct (m h) as [[r0 h0]|] eqn:E; [|done].
  intros [= _ <- <-]. unfold parse_keeps_paired. simpl. eapply Hm, E.
Qed.

Lemma paired_on_snd {A} (m : M TemplateHandler A) :
  preserves parse_keeps_paired (on_snd m).
Proof.
  intros [h hd] r [h' hd']. unfold on_snd.
  destruct (m hd) as [[r0 hd0]|]; [|done].
  intros [= _ <- _]. by intros Hp.
Qed.

Lemma paired_in_namespace {A} d (body : M (heap * gmap string value) A) :
  preserves eval_rebound body ->
  preserves keeps_paired (in_namespace d body).
Proof.
  intros Hb. eapply preserves_weaken; [by apply preserves_in_namespace|].
  apply paired_rebound.
Qed.

Lemma paired_with_namespace {A} d (body : M (heap * gmap string value) A) :
  preserves eval_rebound body ->
  preserves keeps_paired (with_namespace d body).
Proof.
  intros Hb. eapply preserves_weaken; [by apply preserves_with_namespace|].
  apply paired_rebound.
Qed.

Lemma paired_open_block init :
  preserves keeps_paired init -> preserves parse_keeps_paired (open_block init).
Proof.
  intros Hi. unfold open_block, nodestack_top, nodestack_append.
  keep; try apply paired_on_snd.
  - by apply paired_on_heap.
  - apply paired_on_heap, paired_appendchild.
Qed.

Lemma paired_handle_end : preserves parse_keeps_paired handle_end.
Proof.
  unfold handle_end, nodestack_pop, execute_in_root, root_encoding,
    detect_encoding, set_root_encoding.
  keep; try apply paired_on_snd;
    try (apply paired_on_heap;
         first [apply paired_load|by apply paired_store
               |apply preserves_get; apply _]).
  - apply paired_on_heap, paired_in_namespace.
    unfold ExecBlock_execute. keep; try apply preserves_on_snd.
    apply preserves_Block_evaluate. intros x. apply preserves_evaluate.
  - apply paired_on_heap, paired_with_namespace, preserves_evaluate.
Qed.

Lemma paired_handle name expr :
  preserves parse_keeps_paired (handle name expr).
Proof.
  pose proof paired_inits as (Ft & Fv & Fi & Ff & Fx & Fe).
  unfold handle, handle_block, handle_variable, handle_comment, handle_text,
    nodestack_top.
  keep; try apply paired_on_snd; try apply paired_handle_end;
    try (by apply paired_open_block);
    try (apply paired_on_heap;
         first [apply paired_load | apply paired_elif | apply paired_else
               | apply paired_appendchild | done]).
Qed.

Lemma paired_parse_loop again data tokens :
  (forall d p, preserves parse_keeps_paired (again d p)) ->
  preserves parse_keeps_paired (parse_loop again data tokens).
Proof.
  intros Hagain.
  induction tokens as [[[[name start] end_] expr] rest IH| | |];
    intros st r st'; simpl.
  - destruct (handle name expr st) as [[[u|e] st1]|] eqn:E; [| |done].
    + intros E'. etransitivity; [eapply paired_handle, E|eapply IH, E'].
    + pose proof (paired_handle _ _ _ _ _ E) as H1.
      destruct e; try (by intros [= _ <-]).
      intros E'. etransitivity; [exact H1|]. revert E'.
      generalize st1 r st'.
      change (preserves parse_keeps_paired
                (do data_head <- lift (decode (Str.slice data 0 end_) encoding);
                 do data_tail <- lift (decode (Str.slice_from data end_) encoding);
                 again (data_head +:+ data_tail) (Str.len data_head))).
      keep.
  - by intros [= _ <-].
  - by intros [= _ <-].
  - done.
Qed.

Lemma paired_parse calls data pos :
  preserves parse_keeps_paired (parse calls data pos).
Proof.
  revert data pos. induction calls as [|n IH]; intros data pos; simpl.
  - apply preserves_cut.
  - by apply paired_parse_loop.
Qed.

Lemma paired_Template_init code : preserves keeps_paired (Template_init code).
Proof.
  unfold Template_init. keep; try (by apply paired_alloc);
    try apply paired_load; try (by apply paired_store).
  intros h r h'.
  destruct (parse 2 code 0 _) as [[r0 [h0 hd0]]|] eqn:E; [|done].
  intros [= _ <-]. apply (paired_parse _ _ _ _ _ _ E).
Qed.

End Paired.

(** * Further properties of the module *)

(** ** [tokenize] *)

(** X1: the generator [tokenize] always finishes, with exhaustion or with
    an exception, and the tokens it yields lie side by side: each starts
    where the one before ended (the first at [pos]), ends after its
    start, and ends inside [data]. *)
Theorem tokenize_tiles data pos :
  complete (tokenize data pos) /\ tiled data pos (tokenize data pos).
Proof.
  split; [apply tokenize_never_pending|apply tokenize_loop_tiled].
Qed.

(** X2: where a marker opens at [pos] and the closing marker of its kind
    does not occur from [pos] on, [tokenize] raises [TemplateSyntaxError]
    with the length of [data] as the position, not [pos]. *)
Theorem tokenize_unterminated name stag etag data pos :
  (name, stag, etag) ∈ tagset ->
  Str.startswith data stag pos = true ->
  Str.index data etag pos = None ->
  tokenize data pos
  = Throw (TemplateSyntaxError "invalid syntax" (Some (Str.len data))).
Proof.
  intros Hin Hs Hi. rewrite tokenize_turn.
  assert (pos < Str.len data) as Hpos.
  { assert (stag <> "" /\ Str.len stag = 2) as [Hne Hlen].
    { unfold tagset in Hin. apply list_elem_of_In in Hin. simpl in Hin.
      by destruct Hin as [[= <- <- <-]|[[= <- <- <-]|[[= <- <- <-]|[]]]]. }
    apply prefix_occurrence, occurrence_inside in Hs; [|done].
    unfold Str.len in *. lia. }
  apply Nat.ltb_lt in Hpos. rewrite Hpos.
  by rewrite (next_token_at_marker _ _ _ _ _ Hin Hs), Hi.
Qed.

Lemma tokenize_unterminated_witness :
  tokenize "ab{{ x" 2
  = Throw (TemplateSyntaxError "invalid syntax" (Some (Str.len "ab{{ x"))).
Proof.
  apply (tokenize_unterminated "variable" "{{" "}}").
  - unfold tagset. apply list_elem_of_In. simpl. tauto.
  - reflexivity.
  - reflexivity.
Defined.

(** X3: where a marker opens at [pos], its closing marker does not start
    on the second character of the opening one, and the first closing
    marker after the opening one is at [i], [tokenize] yields the token
    of the marker's name from [pos] to the end of the closing marker,
    with the text between the markers, stripped, and goes on from
    there. *)
Theorem tokenize_closed_tag name stag etag data pos i :
  (name, stag, etag) ∈ tagset ->
  Str.startswith data stag pos = true ->
  Str.startswith data etag (pos + 1) = false ->
  Str.index data etag (pos + Str.len stag) = Some i ->
  tokenize data pos
  = Yield (name, pos, i + Str.len etag,
           Str.strip (Str.slice data (pos + Str.len stag) i))
          (tokenize data (i + Str.len etag)).
Proof.
  intros Hin Hs Hno Hi.
  assert (stag <> "" /\ Str.len stag = 2 /\ etag <> "") as (Hne & Hlen & Hne').
  { unfold tagset in Hin. apply list_elem_of_In in Hin. simpl in Hin.
    by destruct Hin as [[= <- <- <-]|[[= <- <- <-]|[[= <- <- <-]|[]]]]. }
  assert (pos < Str.len data) as Hpos.
  { apply prefix_occurrence, occurrence_inside in Hs; [|done].
    unfold Str.len in *. lia. }
  rewrite tokenize_turn. apply Nat.ltb_lt in Hpos. rewrite Hpos.
  rewrite (next_token_without_overlap _ _ _ _ _ Hin Hs), Hi; [done|].
  intros Hov. pose proof (index_first data etag pos Hne') as Hf.
  rewrite Hov in Hf. destruct Hf as (_ & Hf & _). congruence.
Qed.

Lemma tokenize_closed_tag_witness :
  tokenize "a{% if x %}b" 1
  = Yield ("block", 1, 11, "if x") (tokenize "a{% if x %}b" 11).
Proof.
  apply (tokenize_closed_tag "block" "{%" "%}" "a{% if x %}b" 1 9).
  - unfold tagset. apply list_elem_of_In. simpl. tauto.
  - reflexivity.
  - reflexivity.
  - reflexivity.
Defined.

(** X4: where no marker opens at [pos], inside [data], [tokenize] yields
    a [text] token with the text from [pos] to [next], unchanged; no
    marker opens between [pos] and [next], and [next] is the end of
    [data] or a place where a marker opens. *)
Theorem tokenize_text data pos :
  pos < Str.len data ->
  opens data pos = false ->
  exists next,
    tokenize data pos
    = Yield ("text", pos, next, Str.slice data pos next) (tokenize data next)
    /\ pos < next
    /\ (forall p, pos <= p < next -> opens data p = false)
    /\ (next = Str.len data \/ opens data next = true).
Proof.
  intros Hpos Ho. rewrite tokenize_turn.
  apply Nat.ltb_lt in Hpos as Hpos'. rewrite Hpos'.
  unfold next_token. rewrite (scan_tagset_opens _ _ Ho).
  pose proof (rx_stags_search_first data pos) as Hf.
  pose proof (rx_stags_search_le data pos) as Hle.
  destruct (rx_stags_search data pos) as [m|].
  - destruct Hf as (Hm1 & Hm2 & Hm3). exists m.
    split; [done|]. split; [|split; [done|by right]].
    destruct (decide (m = pos)) as [->|]; [congruence|lia].
  - exists (Str.len data). split; [done|]. split; [done|].
    split; [|by left]. intros p Hp. apply Hf. lia.
Qed.

Lemma tokenize_text_witness :
  exists next,
    tokenize "ab{{ x }}" 0
    = Yield ("text", 0, next, Str.slice "ab{{ x }}" 0 next)
            (tokenize "ab{{ x }}" next)
    /\ 0 < next
    /\ (forall p, 0 <= p < next -> opens "ab{{ x }}" p = false)
    /\ (next = Str.len "ab{{ x }}" \/ opens "ab{{ x }}" next = true).
Proof.
  apply (tokenize_text "ab{{ x }}" 0).
  - vm_compute. lia.
  - reflexivity.
Defined.

(** ** [Text] *)

Section TextEscapes.
Context `{Evaluator}.

(** X5: [Text(data)] keeps a text without a backslash as it is. *)
Theorem Text_init_plain data (h : heap) :
  plain data = true ->
  Text_init data h = Some (Ok (List.length h), h ++ [Text data]).
Proof.
  intros Hp. unfold Text_init, alloc, Escape.rx_escape_sub.
  rewrite sub_plain by done. simpl.
  by rewrite String.string_of_list_ascii_of_string.
Qed.

(** X6: a backslash at the end of a line joins the line with the next:
    in a text without other backslashes, [Text] removes the backslash
    and the newline and nothing else. *)
Theorem Text_init_continuation a b (h : heap) :
  plain a = true -> plain b = true ->
  Text_init (a +:+ char Escape.backslash +:+ char Escape.newline +:+ b) h
  = Some (Ok (List.length h), h ++ [Text (a +:+ b)]).
Proof.
  intros Ha Hb. unfold Text_init, alloc, Escape.rx_escape_sub.
  rewrite chars_app. simpl String.list_ascii_of_string at 2.
  rewrite sub_continuation by done. simpl.
  by rewrite text_app, !String.string_of_list_ascii_of_string.
Qed.

(** X7: a backslash that follows only spaces and tabs on its line, and
    is not at the end of the line, is removed together with these
    spaces and tabs: [pre] ends a line or is empty, [ws] are the spaces
    and tabs, [b] is the rest. *)
Theorem Text_init_line_start pre ws b (h : heap) :
  plain pre = true -> at_line_start pre = true ->
  blank ws = true ->
  plain b = true -> no_newline_ahead b = true ->
  Text_init (pre +:+ ws +:+ char Escape.backslash +:+ b) h
  = Some (Ok (List.length h), h ++ [Text (pre +:+ b)]).
Proof.
  intros Hpre Hline Hws Hb Hnl. unfold Text_init, alloc, Escape.rx_escape_sub.
  do 2 f_equal. f_equal. f_equal.
  rewrite !chars_app. simpl String.list_ascii_of_string at 3. cbn [app].
  assert (Escape.sub (Some [])
            (String.list_ascii_of_string ws
             ++ Escape.backslash :: String.list_ascii_of_string b)
          = String.list_ascii_of_string b) as Hrest.
  { apply sub_line_start; [done..|]. by destruct b. }
  unfold at_line_start in Hline.
  destruct (last (String.list_ascii_of_string pre)) as [c|] eqn:Hlast.
  - rewrite sub_line, Hrest; [| done | by rewrite Hlast]. simpl.
    by rewrite text_app, !String.string_of_list_ascii_of_string.
  - apply last_None in Hlast. rewrite Hlast. simpl app at 1.
    rewrite Hrest, String.string_of_list_ascii_of_string.
    destruct pre; [done|by simpl in Hlast].
Qed.

End TextEscapes.

(** ** The handler *)

Section HandlerProperties.
Context `{Evaluator}.

(** X8: a [text] token and a [variable] token whose expression compiles
    store one new node and append it to the [childnodes] of the
    innermost open block; nothing else in the store changes, and the
    stack of open blocks stays as it is.  A [variable] token whose
    expression does not compile raises what [compile] raises and stores
    nothing; a [comment] token does nothing. *)
Theorem leaf_tokens_append expr (h : heap) hd top o c items :
  last (nodestack hd) = Some top ->
  h !! top = Some o -> childnodes_of o = Some c ->
  h !! c = Some (PyList items) ->
  handle "text" expr (h, hd)
  = Some (Ok tt,
          (<[c := PyList (items ++ [List.length h])]>
             (h ++ [Text (Escape.rx_escape_sub expr)]), hd))
  /\ (forall code,
        compile_eval expr = inr code ->
        handle "variable" expr (h, hd)
        = Some (Ok tt,
                (<[c := PyList (items ++ [List.length h])]>
                   (h ++ [Variable_ code]), hd)))
  /\ (forall cls,
        compile_eval expr = inl cls ->
        handle "variable" expr (h, hd)
        = Some (Raise (HostError cls), (h, hd)))
  /\ handle "comment" expr (h, hd) = Some (Ok tt, (h, hd)).
Proof.
  intros Hlast Htop Hc Hitems. repeat apply conj.
  - by eapply handle_text_run.
  - intros code Hcode. by eapply handle_variable_run.
  - intros cls Hcode. by eapply handle_variable_error.
  - done.
Qed.

(** X9: an [end] tag while no block is open takes the root itself off
    the stack and raises nothing.  With the stack empty, every later
    [text], [variable] and [end] token raises [IndexError] and changes
    nothing. *)
Theorem end_without_open_block expr tokens (h : heap) hd c d enc :
  Str.split1 expr = "end" :: tokens ->
  nodestack hd = [root hd] ->
  h !! root hd = Some (Template c d enc) ->
  let hd' := {| root := root hd; nodestack := [] |} in
  handle "block" expr (h, hd) = Some (Ok tt, (h, hd'))
  /\ (forall text,
        handle "text" text (h, hd') = Some (Raise IndexError, (h, hd')))
  /\ (forall e,
        handle "variable" e (h, hd') = Some (Raise IndexError, (h, hd')))
  /\ handle "block" expr (h, hd') = Some (Raise IndexError, (h, hd')).
Proof.
  intros Hexpr Hstack Hroot hd'.
  change (handle "block" expr) with (handle_block expr).
  rewrite (handle_block_end _ _ Hexpr). repeat apply conj.
  - unfold handle_end, bind at 1.
    rewrite (nodestack_pop_run h hd (root hd)) by (by rewrite Hstack).
    rewrite Hstack. simpl removelast.
    erewrite bind_on_heap_load by exact Hroot. done.
  - intros text. change (handle "text" text) with (handle_text text).
    unfold handle_text. by rewrite bind_top_none.
  - intros e. change (handle "variable" e) with (handle_variable e).
    unfold handle_variable. by rewrite bind_top_none.
  - unfold handle_end, bind at 1, nodestack_pop.
    by rewrite bind_handler_get.
Qed.


(** X11: a source without opening markers compiles to a [Template] with
    one [Text] node, whatever else the store holds, and renders to the
    source with its escapes removed, in every namespace. *)
Theorem literal_template code (h : heap) namespace kwds :
  code <> "" -> rx_stags_search code 0 = None ->
  let t := S (List.length h) in
  let h' := h ++ [PyList [List.length h + 2];
                  Template (List.length h) ∅ None;
                  Text (Escape.rx_escape_sub code)] in
  Template_init code h = Some (Ok t, h')
  /\ render h' t namespace kwds = Some (Ok (Escape.rx_escape_sub code), h').
Proof.
  intros Hne Hno t h'.
  assert (h' !! List.length h = Some (PyList [List.length h + 2])) as H0.
  { unfold h'. by rewrite lookup_app_r, Nat.sub_diag. }
  assert (h' !! t = Some (Template (List.length h) ∅ None)) as H1.
  { unfold h', t. rewrite lookup_app_r by lia.
    by replace (S (List.length h) - List.length h) with 1 by lia. }
  assert (h' !! (List.length h + 2) = Some (Text (Escape.rx_escape_sub code)))
    as H2.
  { unfold h'. rewrite lookup_app_r by lia.
    by replace (List.length h + 2 - List.length h) with 2 by lia. }
  split.
  - unfold Template_init, bind at 1 2, alloc.
    set (h2 := (h ++ [PyList []]) ++ [Template (List.length h) ∅ None]).
    assert (List.length (h ++ [PyList []]) = t) as ->
      by (rewrite length_app; simpl; unfold t; lia).
    assert (List.length h2 = List.length h + 2) as Hlen2
      by (unfold h2; rewrite !length_app; simpl; lia).
    assert (parse 2 code 0 (h2, TemplateHandler_init t)
            = Some (Ok tt, (h', TemplateHandler_init t))) as Hparse.
    { change (parse 2 code 0)
        with (parse_loop (parse 1) code (tokenize code 0)).
      rewrite tokenize_literal by done. cbn [parse_loop].
      assert (h2 !! t = Some (Template (List.length h) ∅ None)) as Ht.
      { unfold h2. rewrite lookup_app_r by (rewrite length_app; simpl; lia).
        rewrite length_app. simpl.
        by replace (t - (List.length h + 1)) with 0 by (unfold t; lia). }
      assert (h2 !! List.length h = Some (PyList [])) as Hc.
      { unfold h2. rewrite <- app_assoc. simpl.
        by rewrite lookup_app_r, Nat.sub_diag. }
      rewrite (handle_text_run code h2 (TemplateHandler_init t) t _
                 (List.length h) [] eq_refl Ht eq_refl Hc).
      unfold ret. do 3 f_equal. rewrite Hlen2.
      unfold h2, h'. rewrite <- !app_assoc. simpl.
      by rewrite insert_app_r_alt, Nat.sub_diag by done. }
    unfold bind at 1. rewrite Hparse.
    unfold bind at 1, load. rewrite H1. done.
  - unfold render. rewrite (Template_evaluate_run _ _ _ _ _ _ _ _ H1).
    unfold with_namespace, Block_evaluate.
    erewrite bind_on_heap_ok
      by (unfold getattr_childnodes, bind, load; rewrite H1; reflexivity).
    erewrite bind_on_heap_ok
      by (unfold list_items, bind, load; rewrite H0; reflexivity).
    assert (List.length h' = S (List.length h + 2)) as ->
      by (unfold h'; rewrite length_app; simpl; lia).
    cbn [mapM evaluate]. unfold bind at 1 2.
    erewrite bind_on_heap_load by exact H2. done.
Qed.

(** X12: compiling never exceeds the two calls of [parse] and the
    number of turns the embedding provides for, whatever the source:
    [Template(code)] returns or raises.  The store it leaves is in the
    shape of a tree: every body is a list, and the nodes in it were
    stored after the node that holds the body. *)
Theorem Template_init_builds_tree code (h : heap) :
  decode_rejects_empty -> wf h ->
  exists r h', Template_init code h = Some (r, h') /\ wf h'.
Proof. apply Template_init_shape. Qed.

(** X13: over a store in the shape of a tree, as many nested calls of
    [evaluate] as the store has objects are enough: rendering returns
    or raises, and it leaves the store in the shape of a tree, so that
    this holds for every later rendering too. *)
Theorem render_of_tree_returns (h : heap) t namespace kwds :
  wf h ->
  exists r h', render h t namespace kwds = Some (r, h') /\ wf h'.
Proof. apply render_returns. Qed.

(** X14: a [Template] that was compiled is a [Template] object in the
    store, and where its default namespace has ['__escape__'] it has
    the class [NonEscapeValue] under ['__nonescape__']. *)
Theorem Template_init_nonescape code (h : heap) t h' :
  Template_init code h = Some (Ok t, h') ->
  exists c d enc,
    h' !! t = Some (Template c d enc)
    /\ (is_Some (d !! "__escape__") ->
        d !! "__nonescape__" = Some NonEscapeValue).
Proof.
  unfold Template_init, bind at 1 2, alloc.
  set (self := List.length (h ++ [PyList []])).
  unfold bind at 1.
  destruct (parse 2 code 0 _) as [[[u|e] [h1 hd1]]|]; [|done..].
  unfold bind at 1, load.
  destruct (h1 !! self) as [o|] eqn:Hself; [|done].
  destruct o; try done.
  destruct (namespace !! "__escape__") as [esc|] eqn:Hesc.
  - unfold bind, store, ret. intros [= <- <-].
    eexists _, _, _. split.
    + apply list_lookup_insert_eq. by eapply lookup_lt_Some.
    + intros _. by rewrite lookup_insert_eq.
  - unfold bind, ret. intros [= <- <-].
    eexists _, _, _. split; [done|]. rewrite Hesc. by intros [? ?].
Qed.

(** X15: [Variable.evaluate] writes neither the store nor the
    namespace.  Without ['__escape__'] in the namespace, or with an
    object there that is false, it gives [unicode(obj)] for the value
    of the expression, also when that value is a [NonEscapeValue];
    with one that is true, a [NonEscapeValue] is unwrapped and not
    escaped, and any other value is converted and then escaped. *)
Theorem Variable_evaluate_escapes code (h : heap) d obj :
  eval code d = inr obj ->
  (forall r s', Variable_evaluate code (h, d) = Some (r, s') -> s' = (h, d))
  /\ ((forall esc, d !! "__escape__" = Some esc -> truth esc = false) ->
      Variable_evaluate code (h, d) = Some (of_host (unicode obj), (h, d)))
  /\ (forall esc,
        d !! "__escape__" = Some esc -> truth esc = true ->
        Variable_evaluate code (h, d)
        = match nonescape_value obj with
          | Some v => Some (of_host (unicode v), (h, d))
          | None =>
              match unicode obj with
              | inr u => Some (of_host (call esc u), (h, d))
              | inl cls => Some (Raise (HostError cls), (h, d))
              end
          end).
Proof.
  intros Hobj. split; [|split].
  - intros r s'. apply Variable_evaluate_state.
  - intros Hesc. unfold Variable_evaluate. rewrite bind_get_snd.
    unfold bind at 1, lift at 1. rewrite Hobj. simpl.
    destruct (d !! "__escape__") as [esc|]; [|done].
    by rewrite (Hesc esc eq_refl).
  - intros esc Hesc Ht. unfold Variable_evaluate. rewrite bind_get_snd.
    unfold bind at 1, lift at 1. rewrite Hobj. simpl. rewrite Hesc, Ht.
    destruct (nonescape_value obj); [done|].
    unfold bind, lift. by destruct (unicode obj).
Qed.

(** X17: compiling keeps every condition of an [IfBlock] with its
    body: in the store a compilation leaves, as in the store it began
    with, [codeobj_list] and [ifnodes_list] of an [IfBlock] are of the
    same length, so that the [zip] of [IfBlock.evaluate] drops neither a
    condition nor a body; rendering keeps this too. *)
Theorem conditions_stay_paired code (h : heap) :
  paired h ->
  (forall r h', Template_init code h = Some (r, h') -> paired h')
  /\ (forall t namespace kwds r h',
        render h t namespace kwds = Some (r, h') -> paired h').
Proof.
  intros Hp. split.
  - intros r h' Hrun. by eapply paired_Template_init.
  - intros t namespace kwds r h' Hrun.
    by eapply paired_rebound; [eapply render_rebound|].
Qed.

(** X18: an [if] tag whose condition compiles stores a new [IfBlock]
    whose [childnodes] is the one entry of its [ifnodes_list] and whose
    [elsenodes] is another, empty list.  The block becomes the last
    child of the innermost open block and the new innermost open block;
    the [end] tag that follows only takes it off the stack again. *)
Theorem if_tag_opens expr tokens code (h : heap) hd top o c items :
  Str.split1 expr = "if" :: tokens ->
  compile_eval (Str.strip (Str.join tokens)) = inr code ->
  last (nodestack hd) = Some top ->
  h !! top = Some o -> childnodes_of o = Some c ->
  h !! c = Some (PyList items) ->
  let n := List.length h in
  let h1 := <[c := PyList (items ++ [n + 2])]>
              (h ++ [PyList []; PyList []; IfBlock n [code] [n] (n + 1)]) in
  let hd1 := {| root := root hd; nodestack := nodestack hd ++ [n + 2] |} in
  handle "block" expr (h, hd) = Some (Ok tt, (h1, hd1))
  /\ forall expr' tokens',
       Str.split1 expr' = "end" :: tokens' ->
       handle "block" expr' (h1, hd1) = Some (Ok tt, (h1, hd)).
Proof.
  intros Hexpr Hcode Hlast Htop Hc Hitems n h1 hd1.
  pose proof (lookup_lt_Some _ _ _ Hitems) as Hclt. fold n in Hclt.
  set (h0 := h ++ [PyList []; PyList []; IfBlock n [code] [n] (n + 1)]).
  assert (IfBlock_init (Str.join tokens) h = Some (Ok (n + 2), h0)) as Hinit.
  { unfold IfBlock_init, bind at 1, alloc. unfold bind at 1, lift.
    rewrite Hcode. simpl. unfold bind, alloc.
    rewrite !length_app. simpl. fold n. unfold h0.
    rewrite <- !app_assoc. simpl.
    by replace (n + 1 + 1) with (n + 2) by lia. }
  change (handle "block" expr) with (handle_block expr). split.
  - unfold handle_block. rewrite Hexpr. simpl.
    eapply open_block_run; [exact Hinit|exact Hlast| |exact Hc|];
      by apply lookup_app_l_Some.
  - intros expr' tokens' Hexpr'.
    change (handle "block" expr') with (handle_block expr').
    rewrite (handle_block_end _ _ Hexpr').
    subst hd1. clear Hlast. destruct hd as [r stack]. simpl.
    apply (handle_end_plain h1 stack r (n + 2)
             (IfBlock n [code] [n] (n + 1))); [|exact I].
    unfold h1. rewrite list_lookup_insert_ne by lia.
    rewrite lookup_app_r by (fold n; lia). fold n.
    by replace (n + 2 - n) with 2 by lia.
Qed.

End HandlerProperties.

(** ** [compile_until] *)

(** X16: [compile_until] returns only after [compile] has raised
    [SyntaxError] on the whole source.  What it returns then is the code
    object of a beginning [body] of the source and the length of [body]
    as the offset, and the rest of the source from there begins with
    one of the terminators. *)
Theorem compile_until_returns {C} (_compile : string -> compiled C)
    terminators source codeobj offset :
  compile_until _compile terminators source = Ok (codeobj, offset) ->
  exists body rest lineno col,
    source = body +:+ rest
    /\ offset = Str.len body
    /\ _compile source = SyntaxError lineno col
    /\ _compile body = Compiled codeobj
    /\ exists token,
         token ∈ terminators /\ Str.startswith rest token 0 = true.
Proof.
  unfold compile_until.
  destruct (_compile source) as [|[lineno|] [col|]|] eqn:Hsrc; try done.
  destruct (Py.getitem _ _) as [line|] eqn:Hline; [|done].
  destruct (getitem_slice_from _ _ _ Hline) as [tl Htl].
  pose proof (slice_to_from (Py.splitlines_keepends source) (lineno - 1))
    as Hlines.
  rewrite Htl in Hlines |- *.
  set (body := Str.join (Py.slice_to _ _ ++ [Py.str_slice_to line _])).
  set (rest := Str.join (Py.str_slice_from line _ :: tl)).
  destruct (existsb _ terminators) eqn:Hterm; [|done].
  unfold compile_body.
  destruct (_compile body) as [c| |] eqn:Hbody; try done.
  intros [= <- <-]. exists body, rest, (Some lineno), (Some col).
  split; [|split; [done|split; [done|split; [done|]]]].
  - unfold body, rest. rewrite join_app, join_cons, (join_cons _ tl).
    change (Str.join []) with "". rewrite append_empty_r.
    rewrite append_assoc_text, <- (append_assoc_text (Py.str_slice_to _ _)).
    rewrite str_slice_split, <- join_cons, <- join_app, Hlines.
    by rewrite join_splitlines.
  - apply existsb_exists in Hterm as (token & Hin & Hs).
    exists token. split; [by apply list_elem_of_In|done].
Qed.

Lemma compile_until_returns_witness :
  exists body rest lineno col,
    "a=3}}" = body +:+ rest
    /\ 3 = Str.len body
    /\ Samples.compile_line "a=3}}" = SyntaxError lineno col
    /\ Samples.compile_line body = Compiled "a=3"
    /\ exists token,
         token ∈ ["}}"] /\ Str.startswith rest token 0 = true.
Proof.
  apply (compile_until_returns Samples.compile_line ["}}"] "a=3}}" "a=3" 3).
  reflexivity.
Defined.

(** * The claims on the parser and the loop *)

(** C4: when the [end] of an [exec] block is parsed, the text of its
    body is executed as statements in the default namespace of the
    [Template]; evaluating an [ExecBlock] gives the empty string and
    changes nothing; so [{% exec %}ns_var = 5{% end %}{{ ns_var }}] has
    [ns_var] in its default namespace once compiled, and renders [5]. *)
Theorem exec_runs_when_closed :
  (forall (E : Evaluator) (h : heap) hd node c rc d enc expr tokens
          source h1 d1 d2,
      Str.split1 expr = "end" :: tokens ->
      last (nodestack hd) = Some node ->
      h !! node = Some (ExecBlock c) ->
      h !! root hd = Some (Template rc d enc) ->
      Block_evaluate (evaluate (List.length h)) node (h, d)
        = Some (Ok source, (h1, d1)) ->
      exec source d1 = inr d2 ->
      handle_block expr (h, hd) =
        Some (Ok tt,
              (<[root hd := Template rc d2 enc]> h1,
               {| root := root hd;
                  nodestack := removelast (nodestack hd) |})))
  /\ (forall (E : Evaluator) n x c (h : heap) (d : gmap string value),
      h !! x = Some (ExecBlock c) ->
      evaluate (S n) x (h, d) = Some (Ok "", (h, d)))
  /\ (let code := "{% exec %}ns_var = 5{% end %}{{ ns_var }}" in
      let h := [PyList [3; 5];
                Template 0 {[ "ns_var" := MiniPy.PInt 5 ]} None;
                PyList [4]; ExecBlock 2; Text "ns_var = 5";
                Variable_ (MiniPy.CName "ns_var")] in
      Template_init (H := MiniPy.evaluator) code [] = Some (Ok 1, h)
      /\ render (H := MiniPy.evaluator) h 1 None ∅ = Some (Ok "5", h)).
Proof.
  split; [|split].
  - intros E h hd node c rc d enc expr tokens source h1 d1 d2 Hexpr.
    rewrite (handle_block_end _ _ Hexpr). apply handle_end_exec.
  - intros E n x c h d. apply ExecBlock_evaluate_empty.
  - vm_compute. done.
Qed.

(** C5: a [ForBlock] merges each binding set into the namespace it was
    given and then evaluates its body in it, one binding set after the
    other, and joins the results in that order; the namespace keeps the
    bindings afterwards: with a body of nodes that write no namespace it
    is the namespace before with all binding sets merged in, and a name
    of the last binding set has its value from there.  So
    [{% for x in [1,2,3] %}{{x}}{% end %}{{x}}] renders [1233]. *)
Theorem ForBlock_evaluate_merges_bindings :
  (forall (E : Evaluator) n x c code (h : heap) d bsets,
      h !! x = Some (ForBlock c code) ->
      eval_iter code d = inr bsets ->
      evaluate (S n) x (h, d) =
        (do results <- ForBlock_loop (evaluate n) x bsets;
         ret (Str.join results)) (h, d))
  /\ (forall (E : Evaluator) ev x s,
      ForBlock_loop ev x [] s = Some (Ok [], s))
  /\ (forall (E : Evaluator) ev x b rest (h : heap) d,
      ForBlock_loop ev x (b :: rest) (h, d) =
        (do r <- Block_evaluate ev x;
         do results <- ForBlock_loop ev x rest;
         ret (r :: results)) (h, update d b))
  /\ (forall (E : Evaluator) n x c code items bsets (h : heap) d out s',
      h !! x = Some (ForBlock c code) ->
      h !! c = Some (PyList items) ->
      Forall (fun l => exists o, h !! l = Some o /\ inert o) items ->
      eval_iter code d = inr bsets ->
      evaluate n x (h, d) = Some (Ok out, s') ->
      s' = (h, merged d bsets)
      /\ forall pre b k v,
           bsets = pre ++ [b] -> b !! k = Some v ->
           s'.2 !! k = Some v)
  /\ (let code := "{% for x in [1,2,3] %}{{x}}{% end %}{{x}}" in
      let h := [PyList [3; 5]; Template 0 ∅ None; PyList [4];
                ForBlock 2 (MiniPy.CLocalsFor "x" [1; 2; 3]%Z);
                Variable_ (MiniPy.CName "x"); Variable_ (MiniPy.CName "x")] in
      Template_init (H := MiniPy.evaluator) code [] = Some (Ok 1, h)
      /\ render (H := MiniPy.evaluator) h 1 None ∅ = Some (Ok "1233", h)).
Proof.
  split; [|split; [|split; [|split]]].
  - intros E n x c code h d bsets Hx Hit.
    rewrite (evaluate_run _ _ _ _ _ Hx). cbn beta iota.
    erewrite ForBlock_evaluate_run by done.
    unfold bind at 1, lift. by rewrite Hit.
  - intros. apply ForBlock_loop_nil.
  - intros. apply ForBlock_loop_cons.
  - intros E n x c code items bsets h d out s' Hx Hc Hall Hit Hrun.
    assert (s' = (h, merged d bsets)) as ->.
    { destruct n as [|n]; [done|].
      rewrite (evaluate_run _ _ _ _ _ Hx) in Hrun. cbn beta iota in Hrun.
      erewrite ForBlock_evaluate_run in Hrun by done.
      unfold bind at 1, lift in Hrun. rewrite Hit in Hrun. simpl in Hrun.
      unfold bind in Hrun.
      destruct (ForBlock_loop _ x bsets _) as [[[rs|e] s1]|] eqn:El;
        [|done..].
      eapply ForBlock_loop_inert in El as [-> _]; try done.
      by injection Hrun as _ <-. }
    split; [done|]. intros pre b k v -> Hk. simpl. by apply merged_last.
  - vm_compute. done.
Qed.

(** C6: the [end] of an [encoding] block, while the root has no encoding
    that counts as true, stores the stripped text of the block as the
    encoding and raises the restart; while the root has one, it changes
    nothing and raises nothing.  From then on no token restarts the
    parse and the encoding stays, whatever a restart would do; and with
    a [decode] that knows no codec of the empty name, the one nested
    call of [parse] is the only one.  So with two [encoding] blocks the
    encoding is the name in the first. *)
Theorem encoding_detected_once :
  (forall (E : Evaluator) (h : heap) hd node c rc d enc expr tokens,
      Str.split1 expr = "end" :: tokens ->
      last (nodestack hd) = Some node ->
      h !! node = Some (EncodingBlock c) ->
      h !! root hd = Some (Template rc d enc) ->
      (encoding_truth enc = false ->
       forall text h1,
         with_namespace ∅ (evaluate (List.length h) node) h
           = Some (Ok text, h1) ->
         handle_block expr (h, hd) =
           Some (Raise (EncodingDetected (Str.strip text)),
                 (<[root hd := Template rc d (Some (Str.strip text))]> h1,
                  {| root := root hd;
                     nodestack := removelast (nodestack hd) |})))
      /\ (encoding_truth enc = true ->
          handle_block expr (h, hd) =
            Some (Ok tt,
                  (h, {| root := root hd;
                         nodestack := removelast (nodestack hd) |}))))
  /\ (forall (E : Evaluator) again again' data tokens
             (st : heap * TemplateHandler) c d e,
      st.1 !! root st.2 = Some (Template c d (Some e)) -> e <> "" ->
      parse_loop again data tokens st = parse_loop again' data tokens st
      /\ forall r st',
           parse_loop again data tokens st = Some (r, st') ->
           root st'.2 = root st.2
           /\ exists c' d',
                st'.1 !! root st.2 = Some (Template c' d' (Some e)))
  /\ (forall (E : Evaluator) n data pos st,
      decode_rejects_empty ->
      parse (2 + n) data pos st = parse 2 data pos st)
  /\ (let code :=
        "{% encoding %}utf-8{% end %}{% encoding %}latin-1{% end %}" in
      let h := [PyList [3; 6]; Template 0 ∅ (Some "utf-8");
                PyList [4]; EncodingBlock 2; Text "utf-8";
                PyList [7]; EncodingBlock 5; Text "latin-1"] in
      Template_init (H := MiniPy.evaluator) code [] = Some (Ok 1, h)).
Proof.
  split; [|split; [|split]].
  - intros E h hd node c rc d enc expr tokens Hexpr Hlast Hnode Hroot.
    rewrite (handle_block_end _ _ Hexpr). split.
    + intros Hf text h1 Hrun. by eapply handle_end_encoding_first.
    + intros Ht. destruct enc as [e|]; [|done].
      eapply handle_end_encoding_later; try done.
      intros ->. done.
  - intros E again again' data tokens st c d e Hr He.
    assert (encoding_set st) as Hset by (by exists c, d, e).
    destruct (parse_loop_set again again' data tokens st Hset) as [Heq Hk].
    split; [done|]. intros r st' Hrun.
    destruct (Hk _ _ Hrun) as [Hroot [_ Hkeep]].
    split; [done|]. by apply Hkeep in Hr.
  - intros E n data pos st Hdec. by apply parse_two_calls.
  - vm_compute. done.
Qed.

(** * The claims on concrete templates *)

Import MiniPy.
Import Samples.

(** C1: the source [{% if true %}no end] leaves the [if] block open.
    [TemplateHandler.get_result] would raise [TemplateSyntaxError] on
    the stack the parse ends with, but [Template.__init__] never calls
    it, and the [Template] is built. *)
Theorem unterminated_block_is_accepted :
  let code := "{% if true %}no end" in
  let h := [PyList [4]; Template 0 ∅ None; PyList [5]; PyList [];
            IfBlock 2 [CName "true"] [2] 3; Text "no end"] in
  let hd := {| root := 1; nodestack := [1; 4] |} in
  parse 2 code 0 ([PyList []; Template 0 ∅ None], TemplateHandler_init 1)
    = Some (Ok tt, (h, hd))
  /\ TemplateHandler_get_result (h, hd)
     = Some (Raise (TemplateSyntaxError "invalid syntax" None), (h, hd))
  /\ Template_init code [] = Some (Ok 1, h).
Proof. vm_compute. done. Qed.

(** C8: in [{#}a#}] the first [#}] after the opening [{#] starts at 4,
    so that the comment would be [}a] and end at 6; [tokenize] looks for
    the closing marker from the first character of the opening marker,
    finds the [#}] at 1, and yields an empty comment that ends at 3.
    For [{#}] alone, which has no closing marker after the opening one,
    it yields a comment and raises nothing. *)
Theorem closing_marker_overlaps_opening :
  Str.index "{#}a#}" "#}" (0 + Str.len "{#") = Some 4
  /\ tokenize "{#}a#}" 0
     = Yield ("comment", 0, 3, "") (Yield ("text", 3, 6, "a#}") Stop)
  /\ Str.index "{#}" "#}" (0 + Str.len "{#") = None
  /\ tokenize "{#}" 0 = Yield ("comment", 0, 3, "") Stop.
Proof. vm_compute. done. Qed.

(** C2 as stated fails: the [IfBlock] of
    [{% if a %}A{% else %}B{% end %}] is compiled with its [elsenodes]
    as [childnodes]; evaluating it where [a] is true rebinds
    [childnodes] to the body of the first branch. *)
Lemma IfBlock_evaluate_rebinds_childnodes :
  let h := [PyList [4]; Template 0 ∅ None; PyList [5]; PyList [6];
            IfBlock 3 [CName "a"] [2] 3; Text "A"; Text "B"] in
  let ns : gmap string pyvalue := {[ "a" := PInt 1 ]} in
  Template_init "{% if a %}A{% else %}B{% end %}" [] = Some (Ok 1, h)
  /\ evaluate 2 4 (h, ns)
     = Some (Ok "A", (<[4 := IfBlock 2 [CName "a"] [2] 3]> h, ns))
  /\ h !! 4 <> (<[4 := IfBlock 2 [CName "a"] [2] 3]> h) !! 4.
Proof. vm_compute. repeat split; done. Qed.

(** C9 as stated fails: a second [else], and an [elif] after [else], end
    the compilation with [TextTemplateError], which is not a
    [TemplateSyntaxError]. *)
Lemma second_else_is_not_a_syntax_error :
  fst <$> Template_init "{% if a %}A{% else %}B{% else %}C{% end %}" []
    = Some (Raise (TextTemplateError "else_() has already been called"))
  /\ fst <$> Template_init "{% if a %}A{% else %}B{% elif c %}C{% end %}" []
    = Some (Raise (TextTemplateError "else_() has already been called"))
  /\ TextTemplateError "else_() has already been called"
     <> TemplateSyntaxError "invalid syntax" None.
Proof. vm_compute. repeat split; done. Qed.

(** ** The theorems at work *)

Lemma IfBlock_evaluate_keeps_branches_witness :
  let ns : gmap string pyvalue := {[ "a" := PInt 0; "b" := PInt 1 ]} in
  let h' := <[4 := IfBlock 6 [CName "a"; CName "b"] [2; 6] 3]>
              sample_conditional in
  sample_conditional !! 4
    = Some (IfBlock 3 [CName "a"; CName "b"] [2; 6] 3)
  /\ evaluate 2 4 (sample_conditional, ns) = Some (Ok "B", (h', ns))
  /\ exists c', h' !! 4 = Some (IfBlock c' [CName "a"; CName "b"] [2; 6] 3)
                /\ (c' = 3 \/ c' = 3 \/ c' ∈ [2; 6]).
Proof.
  intros ns h'.
  assert (sample_conditional !! 4
          = Some (IfBlock 3 [CName "a"; CName "b"] [2; 6] 3)) as Hx
    by reflexivity.
  assert (evaluate 2 4 (sample_conditional, ns) = Some (Ok "B", (h', ns)))
    as Hrun by (vm_compute; reflexivity).
  split; [exact Hx|]. split; [exact Hrun|].
  exact (IfBlock_evaluate_keeps_branches 2 4 sample_conditional ns
           (Ok "B") h' ns 3 [CName "a"; CName "b"] [2; 6] 3 Hx Hrun).
Defined.

Lemma IfBlock_evaluate_first_true_witness :
  let ns1 : gmap string pyvalue := {[ "a" := PInt 0; "b" := PInt 1 ]} in
  let ns2 : gmap string pyvalue := {[ "a" := PInt 0; "b" := PInt 0 ]} in
  evaluate 2 4 (sample_conditional, ns1)
    = evaluate_body 1 [7]
        (<[4 := IfBlock 6 [CName "a"; CName "b"] [2; 6] 3]>
           sample_conditional, ns1)
  /\ evaluate 2 4 (sample_conditional, ns2)
     = evaluate_body 1 [8]
         (<[4 := IfBlock 3 [CName "a"; CName "b"] [2; 6] 3]>
            sample_conditional, ns2)
  /\ fst <$> evaluate 2 4 (sample_conditional, ns1) = Some (Ok "B")
  /\ fst <$> evaluate 2 4 (sample_conditional, ns2) = Some (Ok "C").
Proof.
  intros ns1 ns2.
  destruct (IfBlock_evaluate_first_true 1 4 sample_conditional ns1
              3 [CName "a"; CName "b"] [2; 6] 3 eq_refl) as (Hfirst & _ & _).
  destruct (IfBlock_evaluate_first_true 1 4 sample_conditional ns2
              3 [CName "a"; CName "b"] [2; 6] 3 eq_refl) as (_ & Helse & _).
  split; [|split; [|split; reflexivity]].
  - apply (Hfirst [(CName "a", 2)] (CName "b") 6 [] (PInt 1) [7]);
      try reflexivity.
    constructor; [|constructor]. exists (PInt 0). split; reflexivity.
  - apply (Helse [8]); [|reflexivity].
    constructor; [|constructor; [|constructor]];
      exists (PInt 0); split; reflexivity.
Defined.

Lemma exec_runs_when_closed_witness :
  handle_block "end" sample_exec_open =
    Some (Ok tt,
          ([PyList [3]; Template 0 {[ "ns_var" := PInt 5 ]} None;
            PyList [4]; ExecBlock 2; Text "ns_var = 5"],
           {| root := 1; nodestack := [1] |}))
  /\ evaluate 1 3 (sample_exec_open.1, ∅) = Some (Ok "", (sample_exec_open.1, ∅)).
Proof.
  destruct exec_runs_when_closed as (Hend & Hempty & _). split.
  - apply (Hend evaluator sample_exec_open.1 sample_exec_open.2 3 2 0 ∅ None
             "end" [] "ns_var = 5" sample_exec_open.1 ∅
             {[ "ns_var" := PInt 5 ]}); reflexivity.
  - apply (Hempty evaluator 0 3 2). reflexivity.
Defined.

Lemma ForBlock_evaluate_merges_bindings_witness :
  evaluate 2 3 (sample_loop, ∅)
    = Some (Ok "123", (sample_loop,
                       merged ∅ [{[ "x" := PInt 1 ]}; {[ "x" := PInt 2 ]};
                                 {[ "x" := PInt 3 ]}]))
  /\ merged (∅ : gmap string pyvalue)
       [{[ "x" := PInt 1 ]}; {[ "x" := PInt 2 ]}; {[ "x" := PInt 3 ]}]
       !! "x" = Some (PInt 3).
Proof.
  destruct ForBlock_evaluate_merges_bindings as (_ & _ & _ & Hinert & _).
  assert (evaluate 2 3 (sample_loop, ∅)
          = Some (Ok "123", (sample_loop,
                             merged ∅ [{[ "x" := PInt 1 ]};
                                       {[ "x" := PInt 2 ]};
                                       {[ "x" := PInt 3 ]}]))) as Hrun
    by (vm_compute; reflexivity).
  split; [exact Hrun|].
  destruct (Hinert evaluator 2 3 2 (CLocalsFor "x" [1; 2; 3]%Z) [4]
              [{[ "x" := PInt 1 ]}; {[ "x" := PInt 2 ]}; {[ "x" := PInt 3 ]}]
              sample_loop ∅ "123"
              (sample_loop,
               merged ∅ [{[ "x" := PInt 1 ]}; {[ "x" := PInt 2 ]};
                         {[ "x" := PInt 3 ]}])
              eq_refl eq_refl) as [_ Hlast];
    [|reflexivity|exact Hrun|].
  - constructor; [|constructor].
    exists (Variable_ (CName "x")). split; [reflexivity|exact I].
  - apply (Hlast [{[ "x" := PInt 1 ]}; {[ "x" := PInt 2 ]}]
             {[ "x" := PInt 3 ]} "x" (PInt 3)); reflexivity.
Defined.

Lemma decode_rejects_empty_here : decode_rejects_empty.
Proof. intros data. exists "LookupError". reflexivity. Defined.

Lemma encoding_detected_once_witness :
  handle_block "end" sample_encoding_open =
    Some (Raise (EncodingDetected "utf-8"),
          ([PyList [3]; Template 0 ∅ (Some "utf-8"); PyList [4];
            EncodingBlock 2; Text " utf-8 "],
           {| root := 1; nodestack := [1] |}))
  /\ handle_block "end" sample_encoding_later =
       Some (Ok tt, (sample_encoding_later.1,
                     {| root := 1; nodestack := [1] |}))
  /\ parse_loop (parse 1) "{% end %}{{ x }}" (tokenize "{% end %}{{ x }}" 0)
       sample_encoding_later
     = parse_loop (parse 0) "{% end %}{{ x }}" (tokenize "{% end %}{{ x }}" 0)
         sample_encoding_later
  /\ parse 3 "{% encoding %}ascii{% end %}" 0
       ([PyList []; Template 0 ∅ None], TemplateHandler_init 1)
     = parse 2 "{% encoding %}ascii{% end %}" 0
         ([PyList []; Template 0 ∅ None], TemplateHandler_init 1).
Proof.
  destruct encoding_detected_once as (Hend & Hset & Htwo & _).
  destruct (Hend evaluator sample_encoding_open.1 sample_encoding_open.2
              3 2 0 ∅ None "end" [] eq_refl eq_refl eq_refl eq_refl)
    as [Hfirst _].
  destruct (Hend evaluator sample_encoding_later.1 sample_encoding_later.2
              3 2 0 ∅ (Some "latin-1") "end" [] eq_refl eq_refl eq_refl
              eq_refl) as [_ Hlater].
  split; [|split; [|split]].
  - apply (Hfirst eq_refl " utf-8 " sample_encoding_open.1). reflexivity.
  - apply (Hlater eq_refl).
  - apply (Hset evaluator (parse 1) (parse 0) "{% end %}{{ x }}"
             (tokenize "{% end %}{{ x }}" 0) sample_encoding_later
             0 ∅ "latin-1"); [reflexivity|discriminate].
  - apply (Htwo evaluator 1). exact decode_rejects_empty_here.
Defined.

Lemma render_overlays_and_repeats_witness :
  let ns : gmap string pyvalue := {[ "x" := PInt 2; "y" := PInt 3 ]} in
  Template_init "{% exec %}x = 1{% end %}{{ x }}{{ y }}" []
    = Some (Ok 1, sample_defaults)
  /\ render sample_defaults 1 (Some ns) ∅ = Some (Ok "23", sample_defaults)
  /\ update {[ "x" := PInt 1 ]} ns !! "x" = Some (PInt 2)
  /\ sample_defaults !! 1 = Some (Template 0 {[ "x" := PInt 1 ]} None)
  /\ exists h'', render sample_defaults 1 (Some ns) ∅ = Some (Ok "23", h'').
Proof.
  intros ns.
  destruct (render_overlays_and_repeats sample_defaults 1 0
              {[ "x" := PInt 1 ]} None ns eq_refl)
    as (Hrun & Hnew & Hold & Hagain).
  assert (render sample_defaults 1 (Some ns) ∅
          = Some (Ok "23", sample_defaults)) as Hr by (vm_compute; reflexivity).
  split; [vm_compute; reflexivity|]. split; [exact Hr|].
  split; [apply (Hnew "x" (PInt 2)); reflexivity|].
  destruct (Hagain (Ok "23") sample_defaults Hr) as [Hkeep Hsame].
  split; [exact Hkeep|exact Hsame].
Defined.

Lemma render_kwds_override_witness :
  let ns : gmap string pyvalue := {[ "x" := PInt 2; "y" := PInt 3 ]} in
  let kwds : gmap string pyvalue := {[ "x" := PInt 7 ]} in
  render sample_defaults 1 (Some ns) kwds
    = with_namespace (update (update {[ "x" := PInt 1 ]} ns) kwds)
        (Block_evaluate (evaluate 7) 1) sample_defaults
  /\ update (update {[ "x" := PInt 1 ]} ns) kwds !! "x" = Some (PInt 7)
  /\ render sample_defaults 1 (Some ns) kwds = Some (Ok "73", sample_defaults).
Proof.
  intros ns kwds.
  destruct (render_kwds_override sample_defaults 1 0 {[ "x" := PInt 1 ]}
              None (Some ns) kwds eq_refl) as (Hrun & Hnew & _).
  split; [exact Hrun|].
  split; [apply (Hnew "x" (PInt 7)); reflexivity|].
  vm_compute. reflexivity.
Defined.

Lemma elif_else_errors_witness :
  handle_block "else" sample_else_open
    = Some (Raise (TextTemplateError "else_() has already been called"),
            sample_else_open)
  /\ handle_block "elif b" sample_else_open
     = Some (Raise (TextTemplateError "else_() has already been called"),
             sample_else_open)
  /\ handle_block "elif x" sample_for_open
     = Some (Raise (TemplateSyntaxError "invalid syntax" None),
             sample_for_open)
  /\ handle_block "else" sample_if_open = Some (Ok tt, sample_else_open).
Proof.
  split; [|split; [|split]].
  - destruct (elif_else_errors sample_else_open.1 sample_else_open.2 4
                "else" [] eq_refl (or_intror eq_refl)) as (Herr & _ & _).
    apply (Herr [CName "a"] [2] 3). reflexivity.
  - destruct (elif_else_errors sample_else_open.1 sample_else_open.2 4
                "elif b" ["b"] eq_refl (or_introl eq_refl)) as (Herr & _ & _).
    apply (Herr [CName "a"] [2] 3). reflexivity.
  - destruct (elif_else_errors sample_for_open.1 sample_for_open.2 3
                "elif x" ["x"] eq_refl (or_introl eq_refl)) as (_ & Hsyn & _).
    apply (Hsyn (ForBlock 2 (CLocalsFor "x" [1; 2]%Z))); [reflexivity|].
    intros c codes ifs els. discriminate.
  - destruct (elif_else_errors sample_if_open.1 sample_if_open.2 4
                "else" [] eq_refl (or_intror eq_refl)) as (_ & _ & Helse).
    apply (Helse 2 [CName "a"] [2] 3); [reflexivity|discriminate|reflexivity].
Defined.

(** ** The further properties at work *)

Lemma Text_init_plain_witness :
  Text_init "a{b}" [] = Some (Ok 0, [Text "a{b}"]).
Proof. apply (Text_init_plain "a{b}" []). reflexivity. Defined.

Lemma Text_init_continuation_witness :
  Text_init ("ab" +:+ char Escape.backslash +:+ char Escape.newline +:+ "cd")
            []
  = Some (Ok 0, [Text ("ab" +:+ "cd")]).
Proof. apply (Text_init_continuation "ab" "cd" []); reflexivity. Defined.

Lemma Text_init_line_start_witness :
  let pre := "a" +:+ char Escape.newline in
  Text_init (pre +:+ "  " +:+ char Escape.backslash +:+ "  x") []
  = Some (Ok 0, [Text (pre +:+ "  x")]).
Proof.
  intros pre. apply (Text_init_line_start pre "  " "  x" []); reflexivity.
Defined.

Lemma leaf_tokens_append_witness :
  let h := [PyList []; Template 0 ∅ None] in
  let hd := TemplateHandler_init 1 in
  handle "text" "x" (h, hd)
  = Some (Ok tt, ([PyList [2]; Template 0 ∅ None; Text "x"], hd))
  /\ handle "variable" "x" (h, hd)
     = Some (Ok tt, ([PyList [2]; Template 0 ∅ None; Variable_ (CName "x")],
                     hd))
  /\ handle "variable" "x y" (h, hd)
     = Some (Raise (HostError "SyntaxError"), (h, hd))
  /\ handle "comment" "x" (h, hd) = Some (Ok tt, (h, hd)).
Proof.
  intros h hd.
  destruct (leaf_tokens_append "x" h hd 1 (Template 0 ∅ None) 0 []
              eq_refl eq_refl eq_refl eq_refl) as (Ht & Hv & _ & Hc).
  destruct (leaf_tokens_append "x y" h hd 1 (Template 0 ∅ None) 0 []
              eq_refl eq_refl eq_refl eq_refl) as (_ & _ & He & _).
  split; [exact Ht|]. split; [exact (Hv (CName "x") eq_refl)|].
  split; [exact (He "SyntaxError" eq_refl)|exact Hc].
Defined.

Lemma end_without_open_block_witness :
  let h := [PyList []; Template 0 ∅ None] in
  let hd' := {| root := 1; nodestack := [] |} in
  handle "block" "end" (h, TemplateHandler_init 1) = Some (Ok tt, (h, hd'))
  /\ (forall text,
        handle "text" text (h, hd') = Some (Raise IndexError, (h, hd')))
  /\ (forall e,
        handle "variable" e (h, hd') = Some (Raise IndexError, (h, hd')))
  /\ handle "block" "end" (h, hd') = Some (Raise IndexError, (h, hd')).
Proof.
  intros h hd'.
  exact (end_without_open_block "end" [] h (TemplateHandler_init 1) 0 ∅ None
           eq_refl eq_refl eq_refl).
Defined.


Lemma literal_template_witness :
  let h := [PyList [2]; Template 0 ∅ None; Text "hello"] in
  Template_init "hello" [] = Some (Ok 1, h)
  /\ render h 1 (Some {[ "x" := PInt 1 ]}) ∅ = Some (Ok "hello", h).
Proof.
  intros h.
  apply (literal_template "hello" [] (Some {[ "x" := PInt 1 ]}) ∅).
  - discriminate.
  - reflexivity.
Defined.

Lemma wf_nil : wf (H := MiniPy.evaluator) [].
Proof. intros l o b Hl. discriminate Hl. Defined.

Lemma Template_init_builds_tree_witness :
  exists r h',
    Template_init "{% if a %}A{% else %}{{ b }}{% end %}" [] = Some (r, h')
    /\ wf h'.
Proof.
  apply (Template_init_builds_tree "{% if a %}A{% else %}{{ b }}{% end %}" []).
  - exact decode_rejects_empty_here.
  - exact wf_nil.
Defined.

Lemma wf_sample_loop : wf sample_loop.
Proof.
  destruct (Template_init_shape "{% for x in [1,2,3] %}{{x}}{% end %}{{x}}" []
              decode_rejects_empty_here wf_nil) as (r & h' & Hrun & Hwf).
  vm_compute in Hrun. injection Hrun as <- <-. exact Hwf.
Defined.

Lemma render_of_tree_returns_witness :
  exists r h', render sample_loop 1 None ∅ = Some (r, h') /\ wf h'.
Proof. exact (render_of_tree_returns sample_loop 1 None ∅ wf_sample_loop). Defined.

Lemma Template_init_nonescape_witness :
  let h' : heap :=
    [PyList [3];
     Template 0 {[ "__escape__" := PInt 1;
                   "__nonescape__" := PNonEscapeValue_class ]} None;
     PyList [4]; ExecBlock 2; Text "__escape__ = 1"] in
  exists c d enc,
    h' !! 1 = Some (Template c d enc)
    /\ (is_Some (d !! "__escape__") ->
        d !! "__nonescape__" = Some NonEscapeValue).
Proof.
  intros h'.
  apply (Template_init_nonescape "{% exec %}__escape__ = 1{% end %}" []).
  vm_compute. reflexivity.
Defined.

Lemma Variable_evaluate_escapes_witness :
  let h : heap := [] in
  let d : gmap string pyvalue :=
    {[ "x" := PNonEscapeValue (PStr "<b>"); "__escape__" := PUpper ]} in
  let d0 : gmap string pyvalue := {[ "x" := PStr "<b>" ]} in
  Variable_evaluate (H := MiniPy.evaluator) (CName "x") (h, d0)
  = Some (Ok "<b>", (h, d0))
  /\ Variable_evaluate (H := MiniPy.evaluator) (CName "x") (h, d)
     = Some (Ok "<b>", (h, d)).
Proof.
  intros h d d0. split.
  - apply (Variable_evaluate_escapes (H := MiniPy.evaluator) (CName "x") h d0 (PStr "<b>") eq_refl).
    intros esc Hesc. discriminate Hesc.
  - exact (proj2 (proj2 (Variable_evaluate_escapes (H := MiniPy.evaluator)
                           (CName "x") h d
                           (PNonEscapeValue (PStr "<b>")) eq_refl))
             PUpper eq_refl eq_refl).
Defined.

Lemma conditions_stay_paired_witness :
  paired sample_conditional
  /\ forall r h',
       render sample_conditional 1 None {[ "a" := PInt 1 ]} = Some (r, h') ->
       paired h'.
Proof.
  assert (paired (H := MiniPy.evaluator) []) as Hnil by constructor.
  destruct (conditions_stay_paired
              "{% if a %}A{% elif b %}B{% else %}C{% end %}" [] Hnil)
    as [Hc _].
  assert (paired sample_conditional) as Hp by (by apply (Hc (Ok 1))).
  split; [exact Hp|]. intros r h'.
  apply (proj2 (conditions_stay_paired "" sample_conditional Hp)).
Defined.

Lemma if_tag_opens_witness :
  let h := [PyList []; Template 0 ∅ None] in
  let h1 := [PyList [4]; Template 0 ∅ None; PyList []; PyList [];
             IfBlock 2 [CName "a"] [2] 3] in
  handle "block" "if a" (h, TemplateHandler_init 1)
  = Some (Ok tt, (h1, {| root := 1; nodestack := [1; 4] |}))
  /\ forall expr' tokens',
       Str.split1 expr' = "end" :: tokens' ->
       handle "block" expr' (h1, {| root := 1; nodestack := [1; 4] |})
       = Some (Ok tt, (h1, TemplateHandler_init 1)).
Proof.
  intros h h1.
  exact (if_tag_opens "if a" ["a"] (CName "a") h (TemplateHandler_init 1) 1
           (Template 0 ∅ None) 0 [] eq_refl eq_refl eq_refl eq_refl eq_refl
           eq_refl).
Defined.
